(** * gobwas/avl: an immutable AVL tree

    A shallow embedding of the Go package [avl] (node layer and [Tree]
    handle) and the proofs of its ordering, balance, lookup and
    persistence properties.

    The code is embedded twice.
    - Value level ([Node], [Tree]): a [*node] is a value of the inductive
      type [node], [nil] is [Nil], and "clone, then assign a field of the
      clone" builds a new value.  The ordering, balance and lookup
      properties are proved here.
    - Pointer level ([Heap]): nodes are cells of an explicit store,
      [clone] and [new] allocate, field assignments overwrite a cell.
      Identity of roots, sharing and the absence of mutation are stated
      here, and every operation is proved to compute the value-level
      result on the tree the store represents.

    Conventions.
    - The Go interface [Item] is the class [Item]: a carrier with the
      method [Compare].  A nil interface value (the "empty" result of the
      API) is [None]; stored items and arguments are non-nil.
    - Go's [int] is 64 bits wide.  Cached heights and the element count
      stay far below [2^63] for every tree that fits in memory, so they
      are unbounded integers here.
    - A run-time panic (nil dereference, or the explicit balancing panic)
      is [None] at the value level and [Panic] at the pointer level.
    - [Tree.Predecessor] delegates to the node method, which the source
      spells [Predcessor]. *)

From Stdlib Require Import ZArith List Lia Sorted.
From stdpp Require Import base tactics option list sorting.

Local Open Scope Z_scope.

(** ** The Item interface *)

Class Item (A : Type) := Compare : A -> A -> Z.

(** The comparison contract: a three-way comparison of a total preorder. *)
Class ItemOrder (A : Type) `{Item A} : Prop := {
  Compare_antisym : forall x y : A, Z.sgn (Compare x y) = - Z.sgn (Compare y x);
  Compare_trans : forall x y z : A,
      Compare x y <= 0 -> Compare y z <= 0 -> Compare x z <= 0
}.

(** Integers compared by their difference. *)
#[export] Instance ZItem : Item Z := fun a b => a - b.

(** Keyed records [(ID, payload)] compared by [ID] only, as the [User]
    example of the package documentation. *)
#[export] Instance UserItem : Item (Z * Z) := fun a b => fst a - fst b.

(** ** Value-level model of the node layer *)

Inductive node (A : Type) : Type :=
| Nil : node A
| Node (value : A) (left right : node A) (h : Z) : node A.
Arguments Nil {A}.
Arguments Node {A} value left right h.

Module Node.
Section Defs.
Context {A : Type} `{Item A}.

Definition max (a b : Z) : Z := if decide (a > b) then a else b.

Fixpoint Size (n : node A) : Z :=
  match n with
  | Nil => 0
  | Node _ l r _ => 1 + Size l + Size r
  end.

Definition clone (n : node A) : node A := n.

Definition height (n : node A) : Z :=
  match n with
  | Nil => 0
  | Node _ _ _ h => h
  end.

Definition balance (n : node A) : Z :=
  match n with
  | Nil => 0
  | Node _ l r _ => height r - height l
  end.

Definition adjustHeight (n : node A) : option (node A) :=
  match n with
  | Nil => None
  | Node v l r _ => Some (Node v l r (max (height l) (height r) + 1))
  end.

(** [root := n.left.clone(); node := n.clone(); node.left = root.right;
    root.right = node; node.adjustHeight(); root.adjustHeight()]. *)
Definition rotateRight (n : node A) : option (node A) :=
  match n with
  | Nil => None
  | Node v l r h =>
    match clone l with
    | Nil => None
    | Node lv ll lr lh =>
      node' ← adjustHeight (Node v lr r h);
      adjustHeight (Node lv ll node' lh)
    end
  end.

Definition rotateLeft (n : node A) : option (node A) :=
  match n with
  | Nil => None
  | Node v l r h =>
    match clone r with
    | Nil => None
    | Node rv rl rr rh =>
      node' ← adjustHeight (Node v l rl h);
      adjustHeight (Node rv node' rr rh)
    end
  end.

Definition rebalance (n : node A) : option (node A) :=
  match n with
  | Nil => Some Nil
  | Node v l r h =>
    let b := balance n in
    if decide (b < -1 /\ balance l <= 0) then rotateRight n
    else if decide (b > 1 /\ balance r >= 0) then rotateLeft n
    else if decide (b < -1 /\ balance l > 0) then
      l' ← rotateLeft l;
      rotateRight (Node v l' r h)
    else if decide (b > 1 /\ balance r < 0) then
      r' ← rotateRight r;
      rotateLeft (Node v l r' h)
    else if decide (b > 1 \/ b < -1) then None
    else Some n
  end.

Fixpoint Insert (n : node A) (x : A) : option (node A * option A) :=
  match n with
  | Nil => Some (Node x Nil Nil 1, None)
  | Node v l r h =>
    let cmp := Compare x v in
    '(root, existing) ←
      (if decide (cmp < 0) then
         '(m, existing) ← Insert l x;
         Some (match existing with
               | None => Node v m r h
               | Some _ => Nil
               end, existing)
       else if decide (cmp > 0) then
         '(m, existing) ← Insert r x;
         Some (match existing with
               | None => Node v l m h
               | Some _ => Nil
               end, existing)
       else Some (Nil, Some v));
    match root with
    | Nil => Some (n, existing)
    | Node _ _ _ _ =>
      root ← adjustHeight root;
      root ← rebalance root;
      Some (root, None)
    end
  end.

Fixpoint Update (n : node A) (x : A) : option (node A * option A) :=
  match n with
  | Nil => Some (Node x Nil Nil 1, None)
  | Node v l r h =>
    let cmp := Compare x v in
    '(root, prev) ←
      (if decide (cmp < 0) then
         '(m, prev) ← Update l x;
         Some (Node v m r h, prev)
       else if decide (cmp > 0) then
         '(m, prev) ← Insert r x;
         Some (Node v l m h, prev)
       else Some (Node x l r h, Some v));
    root ← adjustHeight root;
    root ← rebalance root;
    Some (root, None)
  end.

Fixpoint Max (n : node A) : option A :=
  match n with
  | Nil => None
  | Node v _ r _ =>
    match r with
    | Nil => Some v
    | Node _ _ _ _ => Max r
    end
  end.

Fixpoint Min (n : node A) : option A :=
  match n with
  | Nil => None
  | Node v l _ _ =>
    match l with
    | Nil => Some v
    | Node _ _ _ _ => Min l
    end
  end.

(** The body of [destroy], with the recursive call [n.left.Delete(m)]
    taken as a parameter so that [Delete] is structurally recursive.  The
    fresh node [new(node)] has height field 0 until the caller adjusts
    it. *)
Definition destroy_with (del : node A -> A -> option (node A * option A))
    (n : node A) : option (node A) :=
  match n with
  | Nil => None
  | Node _ l r _ =>
    match l, r with
    | Node _ _ _ _, Node _ _ _ _ =>
      match Max l with
      | None => None
      | Some m =>
        '(l', _) ← del l m;
        Some (Node m l' r 0)
      end
    | Node _ _ _ _, Nil => Some l
    | Nil, Node _ _ _ _ => Some r
    | Nil, Nil => Some Nil
    end
  end.

Fixpoint Delete (n : node A) (x : A) : option (node A * option A) :=
  match n with
  | Nil => Some (Nil, None)
  | Node v l r h =>
    let cmp := Compare x v in
    '(root, existed) ←
      (if decide (cmp < 0) then
         '(m, existed) ← Delete l x;
         Some (match existed with
               | Some _ => Node v m r h
               | None => Nil
               end, existed)
       else if decide (cmp > 0) then
         '(m, existed) ← Delete r x;
         Some (match existed with
               | Some _ => Node v l m h
               | None => Nil
               end, existed)
       else
         root ← destroy_with Delete n;
         Some (root, Some v));
    match existed with
    | None => Some (n, None)
    | Some _ =>
      match root with
      | Nil => Some (Nil, existed)
      | Node _ _ _ _ =>
        root ← adjustHeight root;
        root ← rebalance root;
        Some (root, existed)
      end
    end
  end.

Definition destroy : node A -> option (node A) := destroy_with Delete.

Fixpoint Search (n : node A) (x : A) : option A :=
  match n with
  | Nil => None
  | Node v l r _ =>
    let cmp := Compare x v in
    if decide (cmp < 0) then Search l x
    else if decide (cmp > 0) then Search r x
    else Some v
  end.

Fixpoint Predcessor (n : node A) (x : A) : option A :=
  match n with
  | Nil => None
  | Node v l r _ =>
    let cmp := Compare x v in
    if decide (cmp < 0) then Predcessor l x
    else if decide (cmp > 0) then
      match Predcessor r x with
      | None => Some v
      | Some p => Some p
      end
    else Max l
  end.

Fixpoint Successor (n : node A) (x : A) : option A :=
  match n with
  | Nil => None
  | Node v l r _ =>
    let cmp := Compare x v in
    if decide (cmp < 0) then
      match Successor l x with
      | None => Some v
      | Some s => Some s
      end
    else if decide (cmp > 0) then Successor r x
    else Min r
  end.

(** Traversals.  The visitor is a Go closure: it may carry state of its
    own, so it is a function from the item and its state to the boolean
    it returns and its next state.  The traversal returns the visitor's
    final state. *)
Section Traversals.
Context {St : Type}.

Fixpoint InOrder (n : node A) (fn : A -> St -> bool * St) (s : St) : St :=
  match n with
  | Nil => s
  | Node v l r _ =>
    let s := InOrder l fn s in
    let '(_, s) := fn v s in
    InOrder r fn s
  end.

Fixpoint PreOrder (n : node A) (fn : A -> St -> bool * St) (s : St) : St :=
  match n with
  | Nil => s
  | Node v l r _ =>
    let '(_, s) := fn v s in
    let s := PreOrder l fn s in
    PreOrder r fn s
  end.

Fixpoint PostOrder (n : node A) (fn : A -> St -> bool * St) (s : St) : St :=
  match n with
  | Nil => s
  | Node v l r _ =>
    let s := PostOrder l fn s in
    let s := PostOrder r fn s in
    let '(_, s) := fn v s in
    s
  end.

End Traversals.
End Defs.
End Node.

(** ** Value-level model of the Tree handle *)

Record Tree (A : Type) : Type := mkTree { root : node A; size : Z }.
Arguments mkTree {A} root size.
Arguments root {A} t.
Arguments size {A} t.

Module Tree.
Section Defs.
Context {A : Type} `{Item A}.

(** The zero value [var tree Tree]. *)
Definition empty : Tree A := mkTree Nil 0.

Definition Size (t : Tree A) : Z := size t.

Definition Insert (t : Tree A) (x : A) : option (Tree A * option A) :=
  '(r, existing) ← Node.Insert (root t) x;
  Some (mkTree r (match existing with
                  | None => size t + 1
                  | Some _ => size t
                  end), existing).

Definition Update (t : Tree A) (x : A) : option (Tree A * option A) :=
  '(r, prev) ← Node.Update (root t) x;
  Some (mkTree r (match prev with
                  | None => size t + 1
                  | Some _ => size t
                  end), prev).

Definition Delete (t : Tree A) (x : A) : option (Tree A * option A) :=
  '(r, existed) ← Node.Delete (root t) x;
  Some (mkTree r (match existed with
                  | Some _ => size t - 1
                  | None => size t
                  end), existed).

Definition Max (t : Tree A) : option A := Node.Max (root t).
Definition Min (t : Tree A) : option A := Node.Min (root t).
Definition Search (t : Tree A) (x : A) : option A := Node.Search (root t) x.
Definition Predecessor (t : Tree A) (x : A) : option A :=
  Node.Predcessor (root t) x.
Definition Successor (t : Tree A) (x : A) : option A :=
  Node.Successor (root t) x.

Definition InOrder {St} (t : Tree A) (fn : A -> St -> bool * St) (s : St) : St :=
  Node.InOrder (root t) fn s.
Definition PreOrder {St} (t : Tree A) (fn : A -> St -> bool * St) (s : St) : St :=
  Node.PreOrder (root t) fn s.
Definition PostOrder {St} (t : Tree A) (fn : A -> St -> bool * St) (s : St) : St :=
  Node.PostOrder (root t) fn s.

End Defs.
End Tree.

(** ** Trees built by the public operations *)

Inductive op (A : Type) : Type :=
| OpInsert (x : A)
| OpUpdate (x : A)
| OpDelete (x : A).
Arguments OpInsert {A} x.
Arguments OpUpdate {A} x.
Arguments OpDelete {A} x.

Section Reachable.
Context {A : Type} `{Item A}.

Definition apply_op (t : Tree A) (o : op A) : option (Tree A) :=
  match o with
  | OpInsert x => fst <$> Tree.Insert t x
  | OpUpdate x => fst <$> Tree.Update t x
  | OpDelete x => fst <$> Tree.Delete t x
  end.

Fixpoint run (ops : list (op A)) (t : Tree A) : option (Tree A) :=
  match ops with
  | [] => Some t
  | o :: ops => t' ← apply_op t o; run ops t'
  end.

(** [reachable t]: [t] is the result of a finite sequence of [Insert],
    [Update] and [Delete] calls starting from the empty tree. *)
Definition reachable (t : Tree A) : Prop :=
  exists ops, run ops Tree.empty = Some t.

(** ** Observations and invariants *)

(** The items of a subtree, left to right. *)
Fixpoint inorder (n : node A) : list A :=
  match n with
  | Nil => []
  | Node v l r _ => inorder l ++ v :: inorder r
  end.

Fixpoint preorder (n : node A) : list A :=
  match n with
  | Nil => []
  | Node v l r _ => v :: preorder l ++ preorder r
  end.

Fixpoint postorder (n : node A) : list A :=
  match n with
  | Nil => []
  | Node v l r _ => postorder l ++ postorder r ++ [v]
  end.

(** A visitor that records every item it is called with, together with
    the boolean it answers, around an arbitrary visitor [fn]. *)
Definition logging {St} (fn : A -> St -> bool * St)
    (x : A) (st : list (A * bool) * St) : bool * (list (A * bool) * St) :=
  let '(b, s) := fn x (snd st) in (b, (fst st ++ [(x, b)], s)).

(** The visitor contract of the documentation on a call log: once a call
    has answered [false] there is no later call. *)
Definition stops_at_false (log : list (A * bool)) : Prop :=
  forall i x, log !! i = Some (x, false) -> length log = S i.

Definition lt (a b : A) : Prop := Compare a b < 0.

(** Strictly ascending lists. *)
Definition ascending (l : list A) : Prop := StronglySorted lt l.

(** Operations on ascending lists, the reference the trees are compared
    with: lookup of the item equal to [x], insertion of [x] unless an equal
    item exists, insertion or replacement, and removal. *)
Fixpoint find_list (x : A) (l : list A) : option A :=
  match l with
  | [] => None
  | a :: l' =>
    if decide (Compare x a < 0) then None
    else if decide (Compare x a > 0) then find_list x l'
    else Some a
  end.

Fixpoint ins_list (x : A) (l : list A) : list A :=
  match l with
  | [] => [x]
  | a :: l' =>
    if decide (Compare x a < 0) then x :: l
    else if decide (Compare x a > 0) then a :: ins_list x l'
    else l
  end.

Fixpoint upd_list (x : A) (l : list A) : list A :=
  match l with
  | [] => [x]
  | a :: l' =>
    if decide (Compare x a < 0) then x :: l
    else if decide (Compare x a > 0) then a :: upd_list x l'
    else x :: l'
  end.

Fixpoint del_list (x : A) (l : list A) : list A :=
  match l with
  | [] => []
  | a :: l' =>
    if decide (Compare x a < 0) then l
    else if decide (Compare x a > 0) then a :: del_list x l'
    else l'
  end.

(** [r] is the greatest item of [items] strictly less than [x], or empty
    when no item is less than [x]. *)
Definition is_predecessor (items : list A) (x : A) (r : option A) : Prop :=
  match r with
  | Some p =>
    p ∈ items /\ lt p x /\
    forall q, q ∈ items -> lt q x -> Compare q p <= 0
  | None => forall q, q ∈ items -> ~ lt q x
  end.

(** [r] is the smallest item of [items] strictly greater than [x], or
    empty when no item is greater than [x]. *)
Definition is_successor (items : list A) (x : A) (r : option A) : Prop :=
  match r with
  | Some s =>
    s ∈ items /\ lt x s /\
    forall q, q ∈ items -> lt x q -> Compare s q <= 0
  | None => forall q, q ∈ items -> ~ lt x q
  end.

(** The true height of a subtree, independent of the cached field. *)
Fixpoint real_height (n : node A) : Z :=
  match n with
  | Nil => 0
  | Node _ l r _ => 1 + Z.max (real_height l) (real_height r)
  end.

(** The balance invariant on every node of a subtree. *)
Fixpoint avl (n : node A) : Prop :=
  match n with
  | Nil => True
  | Node _ l r h =>
    avl l /\ avl r /\
    h = 1 + Z.max (Node.height l) (Node.height r) /\
    -1 <= Node.height r - Node.height l <= 1
  end.

(** [P] holds of every node of a subtree. *)
Fixpoint every_node (P : A -> node A -> node A -> Z -> Prop)
    (n : node A) : Prop :=
  match n with
  | Nil => True
  | Node v l r h => P v l r h /\ every_node P l /\ every_node P r
  end.

Fixpoint depth (n : node A) : nat :=
  match n with
  | Nil => O
  | Node _ l r _ => S (Nat.max (depth l) (depth r))
  end.

End Reachable.

(** ** Pointer-level model

    The same code over an explicit store: a [*node] is [None] (nil) or
    the address of a cell, cells are allocated at the end of the store,
    and field assignments overwrite a cell in place.  Recursion through
    pointers is bounded by fuel. *)

Module Heap.

Definition ptr : Type := option nat.

Record cell (A : Type) : Type :=
  Cell { value : A; left : ptr; right : ptr; h : Z }.
Arguments Cell {A} value left right h.
Arguments value {A} c.
Arguments left {A} c.
Arguments right {A} c.
Arguments h {A} c.

Inductive outcome (A R : Type) : Type :=
| Ok (r : R) (hp : list (cell A))
| Panic
| OutOfFuel.
Arguments Ok {A R} r hp.
Arguments Panic {A R}.
Arguments OutOfFuel {A R}.

Definition M (A R : Type) : Type := list (cell A) -> outcome A R.

Definition ret {A R} (r : R) : M A R := fun hp => Ok r hp.

Definition bind {A R R'} (m : M A R) (k : R -> M A R') : M A R' :=
  fun hp =>
    match m hp with
    | Ok r hp' => k r hp'
    | Panic => Panic
    | OutOfFuel => OutOfFuel
    end.

Definition panic {A R} : M A R := fun _ => Panic.
Definition out_of_fuel {A R} : M A R := fun _ => OutOfFuel.

Declare Scope heap_scope.
Delimit Scope heap_scope with heap.
Notation "'let*' x := m 'in' k" := (bind m (fun x => k))
  (at level 10, x pattern, m at level 100, k at level 200) : heap_scope.
Notation "m ;; k" := (bind m (fun _ => k))
  (at level 100, k at level 200, right associativity) : heap_scope.
Local Open Scope heap_scope.

(** The handle [Tree{root, size}], passed by value. *)
Record Tree : Type := mkTree { root : ptr; size : Z }.

Section Defs.
Context {A : Type} `{Item A}.

(** *** Store primitives *)

(** [&node{...}] and [new(node)]: a fresh cell at the end of the store. *)
Definition alloc (c : cell A) : M A ptr :=
  fun hp => Ok (Some (length hp)) (hp ++ [c]).

(** [*p]: nil or dangling pointers panic. *)
Definition load (p : ptr) : M A (cell A) :=
  fun hp =>
    match p with
    | None => Panic
    | Some l =>
      match hp !! l with
      | Some c => Ok c hp
      | None => Panic
      end
    end.

Definition store (p : ptr) (c : cell A) : M A unit :=
  fun hp =>
    match p with
    | None => Panic
    | Some l =>
      match hp !! l with
      | Some _ => Ok tt (<[l:=c]> hp)
      | None => Panic
      end
    end.

Definition set_value (p : ptr) (x : A) : M A unit :=
  let* c := load p in store p (Cell x (left c) (right c) (h c)).
Definition set_left (p q : ptr) : M A unit :=
  let* c := load p in store p (Cell (value c) q (right c) (h c)).
Definition set_right (p q : ptr) : M A unit :=
  let* c := load p in store p (Cell (value c) (left c) q (h c)).
Definition set_h (p : ptr) (z : Z) : M A unit :=
  let* c := load p in store p (Cell (value c) (left c) (right c) z).

(** *** Node layer *)

Definition clone (n : ptr) : M A ptr :=
  match n with
  | None => ret None
  | Some _ => let* cp := load n in alloc cp
  end.

Definition height (n : ptr) : M A Z :=
  match n with
  | None => ret 0
  | Some _ => let* c := load n in ret (h c)
  end.

Definition balance (n : ptr) : M A Z :=
  match n with
  | None => ret 0
  | Some _ =>
    let* c := load n in
    let* hr := height (right c) in
    let* hl := height (left c) in
    ret (hr - hl)
  end.

Definition adjustHeight (n : ptr) : M A unit :=
  let* c := load n in
  let* hl := height (left c) in
  let* hr := height (right c) in
  set_h n (Node.max hl hr + 1).

Definition rotateRight (n : ptr) : M A ptr :=
  let* cn := load n in
  let* root := clone (left cn) in
  let* node := clone n in
  let* croot := load root in
  set_left node (right croot);;
  set_right root node;;
  adjustHeight node;;
  adjustHeight root;;
  ret root.

Definition rotateLeft (n : ptr) : M A ptr :=
  let* cn := load n in
  let* root := clone (right cn) in
  let* node := clone n in
  let* croot := load root in
  set_right node (left croot);;
  set_left root node;;
  adjustHeight node;;
  adjustHeight root;;
  ret root.

(** [b && e] with [e] evaluated only when [b] holds. *)
Definition and_then (b : bool) (e : M A bool) : M A bool :=
  if b then e else ret false.

Definition left_balance (n : ptr) : M A Z :=
  let* c := load n in balance (left c).
Definition right_balance (n : ptr) : M A Z :=
  let* c := load n in balance (right c).

Definition rebalance (n : ptr) : M A ptr :=
  let* b := balance n in
  let* c1 := and_then (bool_decide (b < -1))
               (let* lb := left_balance n in ret (bool_decide (lb <= 0))) in
  if c1 then rotateRight n else
  let* c2 := and_then (bool_decide (b > 1))
               (let* rb := right_balance n in ret (bool_decide (rb >= 0))) in
  if c2 then rotateLeft n else
  let* c3 := and_then (bool_decide (b < -1))
               (let* lb := left_balance n in ret (bool_decide (lb > 0))) in
  if c3 then
    let* n := clone n in
    let* c := load n in
    let* l := rotateLeft (left c) in
    set_left n l;;
    rotateRight n
  else
  let* c4 := and_then (bool_decide (b > 1))
               (let* rb := right_balance n in ret (bool_decide (rb < 0))) in
  if c4 then
    let* n := clone n in
    let* c := load n in
    let* r := rotateRight (right c) in
    set_right n r;;
    rotateLeft n
  else
  if bool_decide (b > 1 \/ b < -1) then panic
  else ret n.

Fixpoint Insert (fuel : nat) (n : ptr) (x : A) : M A (ptr * option A) :=
  match fuel with
  | O => out_of_fuel
  | S fuel =>
    match n with
    | None =>
      let* r := alloc (Cell x None None 1) in
      ret (r, None)
    | Some _ =>
      let* cn := load n in
      let cmp := Compare x (value cn) in
      let* (root, existing) :=
        (if decide (cmp < 0) then
           let* (m, existing) := Insert fuel (left cn) x in
           match existing with
           | None =>
             let* root := clone n in
             set_left root m;;
             ret (root, existing)
           | Some _ => ret (None, existing)
           end
         else if decide (cmp > 0) then
           let* (m, existing) := Insert fuel (right cn) x in
           match existing with
           | None =>
             let* root := clone n in
             set_right root m;;
             ret (root, existing)
           | Some _ => ret (None, existing)
           end
         else ret (None, Some (value cn))) in
      match root with
      | None => ret (n, existing)
      | Some _ =>
        adjustHeight root;;
        let* r := rebalance root in
        ret (r, None)
      end
    end
  end.

Fixpoint Update (fuel : nat) (n : ptr) (x : A) : M A (ptr * option A) :=
  match fuel with
  | O => out_of_fuel
  | S fuel =>
    match n with
    | None =>
      let* r := alloc (Cell x None None 1) in
      ret (r, None)
    | Some _ =>
      let* root := clone n in
      let* cn := load n in
      let cmp := Compare x (value cn) in
      let* prev :=
        (if decide (cmp < 0) then
           let* (m, prev) := Update fuel (left cn) x in
           set_left root m;;
           ret prev
         else if decide (cmp > 0) then
           let* (m, prev) := Insert fuel (right cn) x in
           set_right root m;;
           ret prev
         else
           let* croot := load root in
           set_value root x;;
           ret (Some (value croot))) in
      adjustHeight root;;
      let* r := rebalance root in
      ret (r, None)
    end
  end.

Fixpoint Max (fuel : nat) (n : ptr) : M A (option A) :=
  match fuel with
  | O => out_of_fuel
  | S fuel =>
    match n with
    | None => ret None
    | Some _ =>
      let* c := load n in
      match right c with
      | Some _ => Max fuel (right c)
      | None => ret (Some (value c))
      end
    end
  end.

Fixpoint Min (fuel : nat) (n : ptr) : M A (option A) :=
  match fuel with
  | O => out_of_fuel
  | S fuel =>
    match n with
    | None => ret None
    | Some _ =>
      let* c := load n in
      match left c with
      | Some _ => Min fuel (left c)
      | None => ret (Some (value c))
      end
    end
  end.

(** [destroy], with the recursive call [n.left.Delete(m)] and the fuel
    left for it taken from the caller.  [new(node)] and the assignment
    [root.value = m] that follows it are one allocation; a nil [m] would
    make [m.Compare] panic inside [Delete]. *)
Definition destroy_with (del : ptr -> A -> M A (ptr * option A))
    (fuel : nat) (n : ptr) : M A ptr :=
  let* cn := load n in
  match left cn, right cn with
  | Some _, Some _ =>
    let* m := Max fuel (left cn) in
    match m with
    | None => panic
    | Some m =>
      let* root := alloc (Cell m None None 0) in
      let* (l, _) := del (left cn) m in
      set_left root l;;
      set_right root (right cn);;
      ret root
    end
  | Some _, None => ret (left cn)
  | None, Some _ => ret (right cn)
  | None, None => ret None
  end.

Fixpoint Delete (fuel : nat) (n : ptr) (x : A) : M A (ptr * option A) :=
  match fuel with
  | O => out_of_fuel
  | S fuel =>
    match n with
    | None => ret (None, None)
    | Some _ =>
      let* cn := load n in
      let cmp := Compare x (value cn) in
      let* (root, existed) :=
        (if decide (cmp < 0) then
           let* (m, existed) := Delete fuel (left cn) x in
           match existed with
           | Some _ =>
             let* root := clone n in
             set_left root m;;
             ret (root, existed)
           | None => ret (None, existed)
           end
         else if decide (cmp > 0) then
           let* (m, existed) := Delete fuel (right cn) x in
           match existed with
           | Some _ =>
             let* root := clone n in
             set_right root m;;
             ret (root, existed)
           | None => ret (None, existed)
           end
         else
           let* root := destroy_with (Delete fuel) fuel n in
           ret (root, Some (value cn))) in
      match existed with
      | None => ret (n, None)
      | Some _ =>
        match root with
        | None => ret (None, existed)
        | Some _ =>
          adjustHeight root;;
          let* r := rebalance root in
          ret (r, existed)
        end
      end
    end
  end.

Definition destroy (fuel : nat) : ptr -> M A ptr :=
  destroy_with (Delete fuel) fuel.

Fixpoint Search (fuel : nat) (n : ptr) (x : A) : M A (option A) :=
  match fuel with
  | O => out_of_fuel
  | S fuel =>
    match n with
    | None => ret None
    | Some _ =>
      let* c := load n in
      let cmp := Compare x (value c) in
      if decide (cmp < 0) then Search fuel (left c) x
      else if decide (cmp > 0) then Search fuel (right c) x
      else ret (Some (value c))
    end
  end.

Fixpoint Predcessor (fuel : nat) (n : ptr) (x : A) : M A (option A) :=
  match fuel with
  | O => out_of_fuel
  | S fuel =>
    match n with
    | None => ret None
    | Some _ =>
      let* c := load n in
      let cmp := Compare x (value c) in
      if decide (cmp < 0) then Predcessor fuel (left c) x
      else if decide (cmp > 0) then
        let* p := Predcessor fuel (right c) x in
        match p with
        | None => ret (Some (value c))
        | Some _ => ret p
        end
      else Max fuel (left c)
    end
  end.

Fixpoint Successor (fuel : nat) (n : ptr) (x : A) : M A (option A) :=
  match fuel with
  | O => out_of_fuel
  | S fuel =>
    match n with
    | None => ret None
    | Some _ =>
      let* c := load n in
      let cmp := Compare x (value c) in
      if decide (cmp < 0) then
        let* s := Successor fuel (left c) x in
        match s with
        | None => ret (Some (value c))
        | Some _ => ret s
        end
      else if decide (cmp > 0) then Successor fuel (right c) x
      else Min fuel (right c)
    end
  end.

Section Traversals.
Context {St : Type}.

(** [fn(n.value)] as a statement: the visitor runs, its answer is
    dropped. *)
Definition visit (fn : A -> St -> bool * St) (x : A) (s : St) : M A St :=
  ret (snd (fn x s)).

Fixpoint InOrder (fuel : nat) (n : ptr) (fn : A -> St -> bool * St) (s : St)
    : M A St :=
  match fuel with
  | O => out_of_fuel
  | S fuel =>
    match n with
    | None => ret s
    | Some _ =>
      let* c := load n in
      let* s := InOrder fuel (left c) fn s in
      let* s := visit fn (value c) s in
      InOrder fuel (right c) fn s
    end
  end.

Fixpoint PreOrder (fuel : nat) (n : ptr) (fn : A -> St -> bool * St) (s : St)
    : M A St :=
  match fuel with
  | O => out_of_fuel
  | S fuel =>
    match n with
    | None => ret s
    | Some _ =>
      let* c := load n in
      let* s := visit fn (value c) s in
      let* s := PreOrder fuel (left c) fn s in
      PreOrder fuel (right c) fn s
    end
  end.

Fixpoint PostOrder (fuel : nat) (n : ptr) (fn : A -> St -> bool * St) (s : St)
    : M A St :=
  match fuel with
  | O => out_of_fuel
  | S fuel =>
    match n with
    | None => ret s
    | Some _ =>
      let* c := load n in
      let* s := PostOrder fuel (left c) fn s in
      let* s := PostOrder fuel (right c) fn s in
      visit fn (value c) s
    end
  end.

End Traversals.

(** *** Tree handle *)

Definition Tree_Size (t : Tree) : Z := size t.

Definition Tree_Insert (fuel : nat) (t : Tree) (x : A)
    : M A (Tree * option A) :=
  let* (r, existing) := Insert fuel (root t) x in
  ret (mkTree r (match existing with
                 | None => size t + 1
                 | Some _ => size t
                 end), existing).

Definition Tree_Update (fuel : nat) (t : Tree) (x : A)
    : M A (Tree * option A) :=
  let* (r, prev) := Update fuel (root t) x in
  ret (mkTree r (match prev with
                 | None => size t + 1
                 | Some _ => size t
                 end), prev).

Definition Tree_Delete (fuel : nat) (t : Tree) (x : A)
    : M A (Tree * option A) :=
  let* (r, existed) := Delete fuel (root t) x in
  ret (mkTree r (match existed with
                 | Some _ => size t - 1
                 | None => size t
                 end), existed).

(** A sequence of modifying calls, each on the handle the previous one
    returned. *)
Definition apply_op (fuel : nat) (t : Tree) (o : op A) : M A Tree :=
  match o with
  | OpInsert x => let* (t', _) := Tree_Insert fuel t x in ret t'
  | OpUpdate x => let* (t', _) := Tree_Update fuel t x in ret t'
  | OpDelete x => let* (t', _) := Tree_Delete fuel t x in ret t'
  end.

Fixpoint run (fuel : nat) (ops : list (op A)) (t : Tree) : M A Tree :=
  match ops with
  | [] => ret t
  | o :: ops => let* t' := apply_op fuel t o in run fuel ops t'
  end.

(** *** Representation: the store holds the value-level tree [t] at [p]

    [repr_in D hp p t]: following the pointers from [p] in [hp] spells out
    [t], and every cell on the way lies at an address in [D]. *)

Fixpoint repr_in (D : nat -> Prop) (hp : list (cell A)) (p : ptr)
    (t : node A) : Prop :=
  match t with
  | Nil => p = None
  | Node v tl tr ht =>
    exists l pl pr,
      p = Some l /\ D l /\ hp !! l = Some (Cell v pl pr ht) /\
      repr_in D hp pl tl /\ repr_in D hp pr tr
  end.

Definition repr : list (cell A) -> ptr -> node A -> Prop :=
  repr_in (fun _ => True).

(** No cell of [hp] is changed in [hp']. *)
Definition preserved (hp hp' : list (cell A)) : Prop :=
  forall l c, hp !! l = Some c -> hp' !! l = Some c.

Definition Tree_Max (fuel : nat) (t : Tree) : M A (option A) :=
  Max fuel (root t).
Definition Tree_Min (fuel : nat) (t : Tree) : M A (option A) :=
  Min fuel (root t).
Definition Tree_Search (fuel : nat) (t : Tree) (x : A) : M A (option A) :=
  Search fuel (root t) x.
Definition Tree_Predecessor (fuel : nat) (t : Tree) (x : A)
    : M A (option A) :=
  Predcessor fuel (root t) x.
Definition Tree_Successor (fuel : nat) (t : Tree) (x : A)
    : M A (option A) :=
  Successor fuel (root t) x.
Definition Tree_InOrder {St : Type} (fuel : nat) (t : Tree)
    (fn : A -> St -> bool * St) (s : St) : M A St :=
  InOrder fuel (root t) fn s.
Definition Tree_PreOrder {St : Type} (fuel : nat) (t : Tree)
    (fn : A -> St -> bool * St) (s : St) : M A St :=
  PreOrder fuel (root t) fn s.
Definition Tree_PostOrder {St : Type} (fuel : nat) (t : Tree)
    (fn : A -> St -> bool * St) (s : St) : M A St :=
  PostOrder fuel (root t) fn s.

(** [node.Size]: the number of nodes of a subtree, counted by a walk. *)
Fixpoint Size (fuel : nat) (n : ptr) : M A Z :=
  match fuel with
  | O => out_of_fuel
  | S fuel =>
    match n with
    | None => ret 0
    | Some _ =>
      let* c := load n in
      let* sl := Size fuel (left c) in
      let* sr := Size fuel (right c) in
      ret (1 + sl + sr)
    end
  end.

(** A call that, when it returns, has allocated at most [k] cells. *)
Definition grows_by {R : Type} (k : nat) (m : M A R) : Prop :=
  forall hp r hp',
    m hp = Ok r hp' ->
    (length hp <= length hp' /\ length hp' <= length hp + k)%nat.

(** A call that reads the store only, and whose answer stands in every
    extension of the store. *)
Definition read_only {R : Type} (m : M A R) : Prop :=
  forall hp r hp1 ext,
    m hp = Ok r hp1 -> hp1 = hp /\ m (hp ++ ext) = Ok r (hp ++ ext).

(** Every read-only operation on the handle [t] that returned in the
    store [hp] returns the same in the store [hp']. *)
Definition same_answers (t : Tree) (hp hp' : list (cell A)) : Prop :=
  (forall fuel x r,
     Tree_Search fuel t x hp = Ok r hp ->
     Tree_Search fuel t x hp' = Ok r hp') /\
  (forall fuel r,
     Tree_Min fuel t hp = Ok r hp -> Tree_Min fuel t hp' = Ok r hp') /\
  (forall fuel r,
     Tree_Max fuel t hp = Ok r hp -> Tree_Max fuel t hp' = Ok r hp') /\
  (forall fuel x r,
     Tree_Predecessor fuel t x hp = Ok r hp ->
     Tree_Predecessor fuel t x hp' = Ok r hp') /\
  (forall fuel x r,
     Tree_Successor fuel t x hp = Ok r hp ->
     Tree_Successor fuel t x hp' = Ok r hp') /\
  (forall (St : Type) fuel (fn : A -> St -> bool * St) s r,
     Tree_InOrder fuel t fn s hp = Ok r hp ->
     Tree_InOrder fuel t fn s hp' = Ok r hp') /\
  (forall (St : Type) fuel (fn : A -> St -> bool * St) s r,
     Tree_PreOrder fuel t fn s hp = Ok r hp ->
     Tree_PreOrder fuel t fn s hp' = Ok r hp') /\
  (forall (St : Type) fuel (fn : A -> St -> bool * St) s r,
     Tree_PostOrder fuel t fn s hp = Ok r hp ->
     Tree_PostOrder fuel t fn s hp' = Ok r hp').

End Defs.
End Heap.

(** ** Further specifications *)

Inductive balance_case : Type :=
  | SingleRight
  | SingleLeft
  | DoubleLeftRight
  | DoubleRightLeft
  | BalancingError
  | InBalance.

Section MoreSpecs.
Context {A : Type} `{Item A}.

(** [r] is the least item of [items], or empty when there is none. *)
Definition is_min (items : list A) (r : option A) : Prop :=
  match r with
  | Some m => m ∈ items /\ forall q, q ∈ items -> Compare m q <= 0
  | None => items = []
  end.

(** [r] is the greatest item of [items], or empty when there is none. *)
Definition is_max (items : list A) (r : option A) : Prop :=
  match r with
  | Some m => m ∈ items /\ forall q, q ∈ items -> Compare q m <= 0
  | None => items = []
  end.

Definition is_update (o : op A) : bool :=
  match o with
  | OpUpdate _ => true
  | _ => false
  end.

(** The case that the [switch] of [rebalance] selects for a node: its
    conditions in the order of the source, [BalancingError] being the case
    that panics with a balancing error and [InBalance] the fall-through
    that returns the node. *)
Definition rebalance_case (n : node A) : balance_case :=
  match n with
  | Nil => InBalance
  | Node _ l r _ =>
    let b := Node.balance n in
    if decide (b < -1 /\ Node.balance l <= 0) then SingleRight
    else if decide (b > 1 /\ Node.balance r >= 0) then SingleLeft
    else if decide (b < -1 /\ Node.balance l > 0) then DoubleLeftRight
    else if decide (b > 1 /\ Node.balance r < 0) then DoubleRightLeft
    else if decide (b > 1 \/ b < -1) then BalancingError
    else InBalance
  end.

End MoreSpecs.

(** ** Example trees and visitors *)

(** [Insert(User{1,10})], [Insert(User{2,20})] from the empty tree. *)
Definition users12 : Tree (Z * Z) :=
  mkTree (Node (1, 10) Nil (Node (2, 20) Nil Nil 1) 2) 2.

(** [Insert(1)], [Insert(2)], [Insert(3)] from the empty tree. *)
Definition ints123 : Tree Z :=
  mkTree (Node 2 (Node 1 Nil Nil 1) (Node 3 Nil Nil 1) 2) 3.

(** The store after [Insert(1)], [Insert(2)], [Insert(3)] from the empty
    tree and the empty store, and the handle of the result.  Cells 6, 7
    and 3 hold the tree; the others are earlier versions and the copies
    made on the way. *)
Definition store123 : list (Heap.cell Z) :=
  [Heap.Cell 1 None None 1;
   Heap.Cell 2 None None 1;
   Heap.Cell 1 None (Some 1%nat) 2;
   Heap.Cell 3 None None 1;
   Heap.Cell 2 None (Some 3%nat) 2;
   Heap.Cell 1 None (Some 4%nat) 3;
   Heap.Cell 2 (Some 7%nat) (Some 3%nat) 2;
   Heap.Cell 1 None None 1].
Definition handle123 : Heap.Tree := Heap.mkTree (Some 6%nat) 3.

(** A visitor that asks to stop at every call, and one that never does. *)
Definition stop_at_once {A : Type} (x : A) (s : unit) : bool * unit :=
  (false, s).
Definition keep_going {A : Type} (x : A) (s : unit) : bool * unit :=
  (true, s).

(** * Proofs *)

(** ** Heights and rebalancing *)

#[global] Arguments Node.rebalance {A} n : simpl never.

Section Balance.
Context {A : Type} `{Item A}.

Lemma max_Zmax (a b : Z) : Node.max a b = Z.max a b.
Proof. unfold Node.max. case_decide; lia. Qed.

Lemma avl_height_nonneg (n : node A) : avl n -> 0 <= Node.height n.
Proof.
  induction n as [|v l IHl r IHr h]; simpl; [lia|].
  intros (Hl & Hr & -> & _). specialize (IHl Hl). specialize (IHr Hr). lia.
Qed.

Lemma avl_height_pos (v : A) l r h : avl (Node v l r h) -> 1 <= h.
Proof.
  simpl. intros (Hl & Hr & -> & _).
  pose proof (avl_height_nonneg l Hl). lia.
Qed.

Lemma avl_real_height (n : node A) : avl n -> Node.height n = real_height n.
Proof.
  induction n as [|v l IHl r IHr h]; simpl; [done|].
  intros (Hl & Hr & -> & _). rewrite <- IHl, <- IHr by done. done.
Qed.

(** What [adjustHeight] followed by [rebalance] does to a node whose
    subtrees are balanced and differ in height by at most two. *)
Lemma rebalance_spec (v : A) (l r : node A) h :
  avl l -> avl r ->
  -2 <= Node.height r - Node.height l <= 2 ->
  h = 1 + Z.max (Node.height l) (Node.height r) ->
  exists n',
    Node.rebalance (Node v l r h) = Some n' /\
    avl n' /\
    inorder n' = inorder l ++ v :: inorder r /\
    (Node.height n' = h \/
     Node.height n' = h - 1 /\
     ~ -1 <= Node.height r - Node.height l <= 1) /\
    (-1 <= Node.height r - Node.height l <= 1 -> n' = Node v l r h).
Proof.
  intros Hl Hr Hb ->.
  pose proof (avl_height_nonneg l Hl) as Hl0.
  pose proof (avl_height_nonneg r Hr) as Hr0.
  unfold Node.rebalance. cbn [Node.balance].
  repeat case_decide.
  - (* single right rotation *)
    destruct l as [|lv ll lr lh]; [simpl in *; lia|].
    simpl in Hl. destruct Hl as (Hll & Hlr & -> & Hlb).
    pose proof (avl_height_nonneg ll Hll). pose proof (avl_height_nonneg lr Hlr).
    simpl in *. rewrite !max_Zmax.
    eexists; split; [reflexivity|].
    simpl. rewrite <- app_assoc. simpl.
    repeat split; try done; lia.
  - (* single left rotation *)
    destruct r as [|rv rl rr rh]; [simpl in *; lia|].
    simpl in Hr. destruct Hr as (Hrl & Hrr & -> & Hrb).
    pose proof (avl_height_nonneg rl Hrl). pose proof (avl_height_nonneg rr Hrr).
    simpl in *. rewrite !max_Zmax.
    eexists; split; [reflexivity|].
    simpl. rewrite <- app_assoc. simpl.
    repeat split; try done; lia.
  - (* left-right double rotation *)
    destruct l as [|lv ll lr lh]; [simpl in *; lia|].
    simpl in Hl. destruct Hl as (Hll & Hlr & -> & Hlb).
    pose proof (avl_height_nonneg ll Hll).
    destruct lr as [|kv kl kr kh]; [simpl in *; lia|].
    simpl in Hlr. destruct Hlr as (Hkl & Hkr & -> & Hkb).
    pose proof (avl_height_nonneg kl Hkl). pose proof (avl_height_nonneg kr Hkr).
    simpl in *. rewrite !max_Zmax.
    eexists; split; [reflexivity|].
    simpl. rewrite <- !app_assoc. simpl. rewrite <- !app_assoc. simpl.
    repeat split; try done; lia.
  - (* right-left double rotation *)
    destruct r as [|rv rl rr rh]; [simpl in *; lia|].
    simpl in Hr. destruct Hr as (Hrl & Hrr & -> & Hrb).
    pose proof (avl_height_nonneg rr Hrr).
    destruct rl as [|kv kl kr kh]; [simpl in *; lia|].
    simpl in Hrl. destruct Hrl as (Hkl & Hkr & -> & Hkb).
    pose proof (avl_height_nonneg kl Hkl). pose proof (avl_height_nonneg kr Hkr).
    simpl in *. rewrite !max_Zmax.
    eexists; split; [reflexivity|].
    simpl. rewrite <- !app_assoc. simpl.
    repeat split; try done; lia.
  - lia.
  - eexists; split; [reflexivity|].
    simpl. repeat split; try done; lia.
Qed.

(** The same, on the node as [adjustHeight] leaves it. *)
Lemma rebalance_adjusted (v : A) (l r : node A) :
  avl l -> avl r ->
  -2 <= Node.height r - Node.height l <= 2 ->
  exists n',
    Node.rebalance
      (Node v l r (Node.max (Node.height l) (Node.height r) + 1)) = Some n' /\
    avl n' /\
    inorder n' = inorder l ++ v :: inorder r /\
    (Node.height n' = 1 + Z.max (Node.height l) (Node.height r) \/
     Node.height n' = Z.max (Node.height l) (Node.height r) /\
     ~ -1 <= Node.height r - Node.height l <= 1) /\
    (-1 <= Node.height r - Node.height l <= 1 ->
     n' = Node v l r (1 + Z.max (Node.height l) (Node.height r))) /\
    n' <> Nil.
Proof.
  intros Hl Hr Hb. rewrite max_Zmax, Z.add_comm.
  destruct (rebalance_spec v l r _ Hl Hr Hb eq_refl)
    as (n' & Hn' & Ha & Hi & Hh & Hsame).
  exists n'. repeat split; try done.
  - lia.
  - intros ->. simpl in Hi. by destruct (inorder l).
Qed.

Local Ltac finish :=
  repeat split; try done; try (simpl in *; lia); eauto.

(** [Insert] never panics on a balanced tree and keeps it balanced; the
    height grows by at most one, and the tree is returned as it is when
    the item exists. *)
Lemma Insert_avl (t : node A) (x : A) :
  avl t ->
  exists t' e,
    Node.Insert t x = Some (t', e) /\ avl t' /\
    (Node.height t' = Node.height t \/
     Node.height t' = Node.height t + 1) /\
    (is_Some e -> t' = t) /\ t' <> Nil.
Proof.
  induction t as [|v l IHl r IHr h]; intros Ha.
  - exists (Node x Nil Nil 1), None. simpl.
    finish.
  - pose proof Ha as Ha'. simpl in Ha. destruct Ha as (Hl & Hr & Hh & Hb).
    cbn [Node.Insert]. repeat case_decide.
    + destruct (IHl Hl) as (l' & e & -> & Hl' & Hhl & Hsame & Hne).
      destruct e as [e|]; simpl.
      * exists (Node v l r h), (Some e). finish.
      * destruct (rebalance_adjusted v l' r Hl' Hr)
          as (n' & -> & Hn' & _ & Hhn & _ & Hnn); [lia|].
        simpl. exists n', None. finish; by intros [? ?].
    + destruct (IHr Hr) as (r' & e & -> & Hr' & Hhr & Hsame & Hne).
      destruct e as [e|]; simpl.
      * exists (Node v l r h), (Some e). finish.
      * destruct (rebalance_adjusted v l r' Hl Hr')
          as (n' & -> & Hn' & _ & Hhn & _ & Hnn); [lia|].
        simpl. exists n', None. finish; by intros [? ?].
    + simpl. exists (Node v l r h), (Some v). finish.
Qed.

(** [Update] never panics on a balanced tree and keeps it balanced. *)
Lemma Update_avl (t : node A) (x : A) :
  avl t ->
  exists t' e,
    Node.Update t x = Some (t', e) /\ avl t' /\
    (Node.height t' = Node.height t \/
     Node.height t' = Node.height t + 1) /\ t' <> Nil.
Proof.
  induction t as [|v l IHl r IHr h]; intros Ha.
  - exists (Node x Nil Nil 1), None. simpl.
    finish.
  - simpl in Ha. destruct Ha as (Hl & Hr & Hh & Hb).
    cbn [Node.Update]. repeat case_decide.
    + destruct (IHl Hl) as (l' & e & -> & Hl' & Hhl & Hne).
      simpl.
      destruct (rebalance_adjusted v l' r Hl' Hr)
        as (n' & -> & Hn' & _ & Hhn & _ & Hnn); [lia|].
      simpl. exists n', None. finish.
    + destruct (Insert_avl r x Hr) as (r' & e & -> & Hr' & Hhr & _ & Hne).
      simpl.
      destruct (rebalance_adjusted v l r' Hl Hr')
        as (n' & -> & Hn' & _ & Hhn & _ & Hnn); [lia|].
      simpl. exists n', None. finish.
    + simpl.
      destruct (rebalance_adjusted x l r Hl Hr)
        as (n' & -> & Hn' & _ & Hhn & _ & Hnn); [lia|].
      simpl. exists n', None. finish.
Qed.

Lemma Max_is_Some (t : node A) : t <> Nil -> is_Some (Node.Max t).
Proof.
  induction t as [|v l IHl r IHr h]; [done|]. intros _.
  destruct r as [|rv rl rr rh]; simpl; [eauto|]. by apply IHr.
Qed.

(** [Delete] never panics on a balanced tree and keeps it balanced; the
    height shrinks by at most one, and the tree is returned as it is when
    nothing was removed. *)
Lemma Delete_avl (t : node A) (x : A) :
  avl t ->
  exists t' e,
    Node.Delete t x = Some (t', e) /\ avl t' /\
    (Node.height t' = Node.height t \/
     Node.height t' = Node.height t - 1) /\
    (e = None -> t' = t).
Proof.
  revert x. induction t as [|v l IHl r IHr h]; intros x Ha.
  - exists Nil, None. simpl. finish.
  - pose proof Ha as Ha'. simpl in Ha. destruct Ha as (Hl & Hr & Hh & Hb).
    pose proof (avl_height_nonneg l Hl) as Hl0.
    pose proof (avl_height_nonneg r Hr) as Hr0.
    cbn [Node.Delete]. repeat case_decide.
    + destruct (IHl x Hl) as (l' & e & -> & Hl' & Hhl & Hsame).
      destruct e as [e|]; simpl.
      * destruct (rebalance_adjusted v l' r Hl' Hr)
          as (n' & -> & Hn' & _ & Hhn & _ & Hnn); [lia|].
        simpl. exists n', (Some e). finish.
      * exists (Node v l r h), None. finish.
    + destruct (IHr x Hr) as (r' & e & -> & Hr' & Hhr & Hsame).
      destruct e as [e|]; simpl.
      * destruct (rebalance_adjusted v l r' Hl Hr')
          as (n' & -> & Hn' & _ & Hhn & _ & Hnn); [lia|].
        simpl. exists n', (Some e). finish.
      * exists (Node v l r h), None. finish.
    + unfold Node.destroy_with.
      destruct l as [|lv ll lr lh], r as [|rv rl rr rh].
      * simpl. exists Nil, (Some v). finish.
      * simpl. pose proof Hr as Hr2.
        simpl in Hr2. destruct Hr2 as (Hrl & Hrr & Hrh & Hrb).
        destruct (rebalance_adjusted rv rl rr Hrl Hrr)
          as (n' & -> & Hn' & _ & _ & Hsame & _); [lia|].
        rewrite Hsame, <- Hrh by lia.
        simpl. exists (Node rv rl rr rh), (Some v).
        finish.
      * simpl. pose proof Hl as Hl2.
        simpl in Hl2. destruct Hl2 as (Hll & Hlr & Hlh & Hlb).
        destruct (rebalance_adjusted lv ll lr Hll Hlr)
          as (n' & -> & Hn' & _ & _ & Hsame & _); [lia|].
        rewrite Hsame, <- Hlh by lia.
        simpl. exists (Node lv ll lr lh), (Some v).
        finish.
      * destruct (Max_is_Some (Node lv ll lr lh)) as [m ->]; [done|].
        destruct (IHl m Hl) as (l' & e & -> & Hl' & Hhl & _).
        destruct (rebalance_adjusted m l' (Node rv rl rr rh) Hl' Hr)
          as (n' & Hreb & Hn' & _ & Hhn & _ & _); [simpl in *; lia|].
        simpl in Hreb |- *. rewrite Hreb.
        simpl. exists n', (Some v). finish.
Qed.

(** *** Trees built by the public operations are balanced *)

Lemma apply_op_avl (t : Tree A) (o : op A) :
  avl (root t) -> exists t', apply_op t o = Some t' /\ avl (root t').
Proof.
  intros Ha. destruct o as [x|x|x]; simpl.
  - unfold Tree.Insert.
    destruct (Insert_avl (root t) x Ha) as (r & e & -> & Hr & _).
    simpl. eauto.
  - unfold Tree.Update.
    destruct (Update_avl (root t) x Ha) as (r & e & -> & Hr & _).
    simpl. eauto.
  - unfold Tree.Delete.
    destruct (Delete_avl (root t) x Ha) as (r & e & -> & Hr & _).
    simpl. eauto.
Qed.

Lemma run_avl (ops : list (op A)) (t : Tree A) :
  avl (root t) -> exists t', run ops t = Some t' /\ avl (root t').
Proof.
  revert t. induction ops as [|o ops IH]; intros t Ha; simpl; [eauto|].
  destruct (apply_op_avl t o Ha) as (t1 & -> & Ha1). simpl. by apply IH.
Qed.

(** No sequence of operations panics. *)
Lemma run_total (ops : list (op A)) : is_Some (run ops Tree.empty).
Proof. destruct (run_avl ops Tree.empty) as (t & -> & _); [done|eauto]. Qed.

Lemma reachable_avl (t : Tree A) : reachable t -> avl (root t).
Proof.
  intros [ops Hrun]. destruct (run_avl ops Tree.empty) as (t' & Ht' & Ha).
  - done.
  - by simplify_eq.
Qed.

Lemma avl_every_node (n : node A) :
  avl n ->
  every_node (fun v l r h =>
    Z.abs (Node.height r - Node.height l) <= 1 /\
    h = 1 + Z.max (Node.height l) (Node.height r) /\
    Node.height l = real_height l /\ Node.height r = real_height r) n.
Proof.
  induction n as [|v l IHl r IHr h]; [done|].
  intros Ha. pose proof Ha as (Hl & Hr & Hh & Hb).
  cbn [every_node]. repeat split; auto using avl_real_height; lia.
Qed.

(** C4.  In every tree built from the empty tree by [Insert], [Update] and
    [Delete], every node has children whose heights differ by at most one
    and a cached height equal to one plus the larger child height (0 for
    an empty subtree); the cached heights are the true heights. *)
Theorem balance_invariant (t : Tree A) :
  reachable t ->
  every_node (fun v l r h =>
    Z.abs (Node.height r - Node.height l) <= 1 /\
    h = 1 + Z.max (Node.height l) (Node.height r) /\
    Node.height l = real_height l /\ Node.height r = real_height r)
    (root t).
Proof. intros Hr. by apply avl_every_node, reachable_avl. Qed.

End Balance.

(** ** The comparison contract *)

Section Order.
Context {A : Type} `{ItemOrder A}.

Lemma Compare_refl (x : A) : Compare x x = 0.
Proof. pose proof (Compare_antisym x x). lia. Qed.

Lemma Compare_gt_lt (x y : A) : Compare x y > 0 <-> Compare y x < 0.
Proof. pose proof (Compare_antisym x y). lia. Qed.

Lemma Compare_eq_sym (x y : A) : Compare x y = 0 -> Compare y x = 0.
Proof. pose proof (Compare_antisym x y). lia. Qed.

Lemma lt_le_trans (x y z : A) :
  Compare x y < 0 -> Compare y z <= 0 -> Compare x z < 0.
Proof.
  intros Hxy Hyz.
  destruct (decide (Compare x z < 0)) as [|Hn]; [done|].
  pose proof (Compare_antisym x z). pose proof (Compare_antisym x y).
  assert (Compare z x <= 0) as Hzx by lia.
  pose proof (Compare_trans y z x Hyz Hzx). lia.
Qed.

Lemma le_lt_trans (x y z : A) :
  Compare x y <= 0 -> Compare y z < 0 -> Compare x z < 0.
Proof.
  intros Hxy Hyz.
  destruct (decide (Compare x z < 0)) as [|Hn]; [done|].
  pose proof (Compare_antisym x z). pose proof (Compare_antisym y z).
  assert (Compare z x <= 0) as Hzx by lia.
  pose proof (Compare_trans z x y Hzx Hxy). lia.
Qed.

Lemma lt_trans (x y z : A) : lt x y -> lt y z -> lt x z.
Proof. unfold lt. intros Hxy Hyz. eapply lt_le_trans; [done|lia]. Qed.

Lemma eq_lt_trans (x y z : A) : Compare x y = 0 -> lt y z -> lt x z.
Proof. unfold lt. intros Hxy Hyz. eapply le_lt_trans; [|done]. lia. Qed.

Lemma lt_eq_trans (x y z : A) : lt x y -> Compare y z = 0 -> lt x z.
Proof. unfold lt. intros Hxy Hyz. eapply lt_le_trans; [done|lia]. Qed.

#[local] Instance lt_transitive : Transitive (lt (A:=A)).
Proof. intros x y z. apply lt_trans. Qed.

(** *** Ascending lists *)

Lemma ascending_node (l1 l2 : list A) (v : A) :
  ascending (l1 ++ v :: l2) <->
  ascending l1 /\ ascending l2 /\
  Forall (fun a => lt a v) l1 /\ Forall (lt v) l2.
Proof.
  unfold ascending.
  rewrite StronglySorted_app, StronglySorted_cons, !Forall_forall.
  split.
  - intros (H12 & H1 & H2 & H3). repeat split; try done.
    intros a Ha. apply H12; [done|]. apply elem_of_cons. by left.
  - intros (H1 & H2 & H3 & H4). repeat split; try done.
    intros a b Ha Hb. apply elem_of_cons in Hb as [->|Hb]; [by apply H3|].
    eapply lt_trans; [by apply H3|by apply H4].
Qed.

Section Lists.
Variables (x v : A) (l1 l2 : list A).

Lemma find_list_lt :
  Compare x v < 0 -> find_list x (l1 ++ v :: l2) = find_list x l1.
Proof.
  intros Hx. induction l1 as [|a l IH]; simpl; repeat case_decide; done || lia.
Qed.

Lemma ins_list_lt :
  Compare x v < 0 -> ins_list x (l1 ++ v :: l2) = ins_list x l1 ++ v :: l2.
Proof.
  intros Hx. induction l1 as [|a l IH]; simpl; repeat case_decide;
    try done; try lia. by rewrite IH.
Qed.

Lemma upd_list_lt :
  Compare x v < 0 -> upd_list x (l1 ++ v :: l2) = upd_list x l1 ++ v :: l2.
Proof.
  intros Hx. induction l1 as [|a l IH]; simpl; repeat case_decide;
    try done; try lia. by rewrite IH.
Qed.

Lemma del_list_lt :
  Compare x v < 0 -> del_list x (l1 ++ v :: l2) = del_list x l1 ++ v :: l2.
Proof.
  intros Hx. induction l1 as [|a l IH]; simpl; repeat case_decide;
    try done; try lia. by rewrite IH.
Qed.

Lemma find_list_skip (a : A) l :
  Compare x a > 0 -> find_list x (a :: l) = find_list x l.
Proof. intros Ha. simpl. repeat case_decide; done || lia. Qed.

Lemma ins_list_skip (a : A) l :
  Compare x a > 0 -> ins_list x (a :: l) = a :: ins_list x l.
Proof. intros Ha. simpl. repeat case_decide; done || lia. Qed.

Lemma upd_list_skip (a : A) l :
  Compare x a > 0 -> upd_list x (a :: l) = a :: upd_list x l.
Proof. intros Ha. simpl. repeat case_decide; done || lia. Qed.

Lemma del_list_skip (a : A) l :
  Compare x a > 0 -> del_list x (a :: l) = a :: del_list x l.
Proof. intros Ha. simpl. repeat case_decide; done || lia. Qed.

(** Below, every item of [l1] is less than [v] and [v <= x], so a walk
    from the left passes all of [l1]. *)
Lemma passes_left (a : A) :
  lt a v -> Compare x v >= 0 -> Compare x a > 0.
Proof.
  unfold lt. intros Ha Hx. apply Compare_gt_lt.
  eapply lt_le_trans; [done|]. pose proof (Compare_antisym x v). lia.
Qed.

Lemma find_list_ge :
  Forall (fun a => lt a v) l1 -> Compare x v >= 0 ->
  find_list x (l1 ++ v :: l2) = find_list x (v :: l2).
Proof.
  intros Hl Hx. induction Hl as [|a l Ha Hl IH]; [done|].
  simpl app. rewrite find_list_skip by by apply passes_left.
  by rewrite IH.
Qed.

Lemma ins_list_ge :
  Forall (fun a => lt a v) l1 -> Compare x v >= 0 ->
  ins_list x (l1 ++ v :: l2) = l1 ++ ins_list x (v :: l2).
Proof.
  intros Hl Hx. induction Hl as [|a l Ha Hl IH]; [done|].
  simpl app. rewrite ins_list_skip by by apply passes_left.
  by rewrite IH.
Qed.

Lemma upd_list_ge :
  Forall (fun a => lt a v) l1 -> Compare x v >= 0 ->
  upd_list x (l1 ++ v :: l2) = l1 ++ upd_list x (v :: l2).
Proof.
  intros Hl Hx. induction Hl as [|a l Ha Hl IH]; [done|].
  simpl app. rewrite upd_list_skip by by apply passes_left.
  by rewrite IH.
Qed.

Lemma del_list_ge :
  Forall (fun a => lt a v) l1 -> Compare x v >= 0 ->
  del_list x (l1 ++ v :: l2) = l1 ++ del_list x (v :: l2).
Proof.
  intros Hl Hx. induction Hl as [|a l Ha Hl IH]; [done|].
  simpl app. rewrite del_list_skip by by apply passes_left.
  by rewrite IH.
Qed.

End Lists.

Lemma ins_list_elem (x a : A) (l : list A) :
  a ∈ ins_list x l -> a = x \/ a ∈ l.
Proof.
  induction l as [|b l IH]; simpl.
  - intros ->%list_elem_of_singleton. by left.
  - repeat case_decide; rewrite ?elem_of_cons; intuition.
Qed.

Lemma upd_list_elem (x a : A) (l : list A) :
  a ∈ upd_list x l -> a = x \/ a ∈ l.
Proof.
  induction l as [|b l IH]; simpl.
  - intros ->%list_elem_of_singleton. by left.
  - repeat case_decide; rewrite ?elem_of_cons; intuition.
Qed.

Lemma del_list_elem (x a : A) (l : list A) :
  a ∈ del_list x l -> a ∈ l.
Proof.
  induction l as [|b l IH]; simpl; [done|].
  repeat case_decide; rewrite ?elem_of_cons; intuition.
Qed.

Lemma ins_list_ascending (x : A) (l : list A) :
  ascending l -> ascending (ins_list x l).
Proof.
  unfold ascending. induction l as [|a l IH]; simpl.
  - intros _. repeat constructor.
  - rewrite StronglySorted_cons. intros [Ha Hl].
    repeat case_decide; rewrite ?StronglySorted_cons.
    + repeat split; try done. constructor; [done|].
      eapply Forall_impl; [exact Ha|]. intros b Hb. by eapply lt_trans.
    + split; [|by apply IH]. apply Forall_forall. intros b Hb.
      apply ins_list_elem in Hb as [->|Hb].
      * by apply Compare_gt_lt.
      * rewrite Forall_forall in Ha. by apply Ha.
    + done.
Qed.

Lemma upd_list_ascending (x : A) (l : list A) :
  ascending l -> ascending (upd_list x l).
Proof.
  unfold ascending. induction l as [|a l IH]; simpl.
  - intros _. repeat constructor.
  - rewrite StronglySorted_cons. intros [Ha Hl].
    repeat case_decide; rewrite ?StronglySorted_cons.
    + repeat split; try done. constructor; [done|].
      eapply Forall_impl; [exact Ha|]. intros b Hb. by eapply lt_trans.
    + split; [|by apply IH]. apply Forall_forall. intros b Hb.
      apply upd_list_elem in Hb as [->|Hb].
      * by apply Compare_gt_lt.
      * rewrite Forall_forall in Ha. by apply Ha.
    + split; [|done]. eapply Forall_impl; [exact Ha|]. intros b Hb.
      eapply eq_lt_trans; [|done]. lia.
Qed.

Lemma del_list_ascending (x : A) (l : list A) :
  ascending l -> ascending (del_list x l).
Proof.
  unfold ascending. induction l as [|a l IH]; simpl; [done|].
  rewrite StronglySorted_cons. intros [Ha Hl].
  repeat case_decide; rewrite ?StronglySorted_cons; try done.
  split; [|by apply IH]. apply Forall_forall. intros b Hb.
  apply del_list_elem in Hb. rewrite Forall_forall in Ha. by apply Ha.
Qed.

(** *** Lookups on search trees *)

Lemma Search_find (t : node A) (x : A) :
  ascending (inorder t) -> Node.Search t x = find_list x (inorder t).
Proof.
  induction t as [|v l IHl r IHr h]; [done|].
  cbn [inorder Node.Search]. intros (Hl & Hr & Hlv & Hvr)%ascending_node.
  repeat case_decide.
  - rewrite find_list_lt by done. by apply IHl.
  - rewrite find_list_ge, find_list_skip by (done || lia). by apply IHr.
  - rewrite find_list_ge by (done || lia).
    simpl. repeat case_decide; done || lia.
Qed.

Lemma Max_last (t : node A) : Node.Max t = last (inorder t).
Proof.
  induction t as [|v l IHl r IHr h]; [done|].
  cbn [inorder Node.Max]. rewrite last_app_cons.
  destruct r as [|rv rl rr rh]; [done|].
  rewrite IHr, last_cons. cbn [inorder].
  destruct (last (inorder rl ++ rv :: inorder rr)) eqn:E; [done|].
  apply last_None in E. by destruct (inorder rl).
Qed.

Lemma Min_head (t : node A) : Node.Min t = head (inorder t).
Proof.
  induction t as [|v l IHl r IHr h]; [done|].
  cbn [inorder Node.Min].
  destruct l as [|lv ll lr lh]; [done|].
  rewrite IHl. cbn [inorder]. by destruct (inorder ll).
Qed.

(** *** The modifying operations on search trees *)

Lemma Insert_inorder (t : node A) (x : A) t' e :
  avl t -> ascending (inorder t) ->
  Node.Insert t x = Some (t', e) ->
  inorder t' = ins_list x (inorder t) /\ e = find_list x (inorder t).
Proof.
  revert t' e. induction t as [|v l IHl r IHr h]; intros t' e Ha Hs Hins.
  - simpl in Hins. by simplify_eq.
  - simpl in Ha. destruct Ha as (Hl & Hr & Hh & Hb).
    cbn [inorder] in *. apply ascending_node in Hs as (Hsl & Hsr & Hlv & Hvr).
    cbn [Node.Insert] in Hins. repeat case_decide.
    + destruct (Insert_avl l x Hl) as (l' & e0 & Heq & Hl' & _ & Hsame & _).
      rewrite Heq in Hins. destruct (IHl _ _ Hl Hsl Heq) as [Hil He0].
      rewrite ins_list_lt, find_list_lt by done.
      destruct e0 as [e0|]; simpl in Hins.
      * assert (l' = l) as -> by eauto. simplify_eq.
        cbn [inorder]. by rewrite <- Hil.
      * destruct (rebalance_adjusted v l' r Hl' Hr)
          as (n' & Hreb & _ & Hin & _); [|].
        { destruct (Insert_avl l x Hl) as (? & ? & Heq' & _ & ? & _).
          rewrite Heq in Heq'. simplify_eq. lia. }
        rewrite Hreb in Hins. simpl in Hins. simplify_eq.
        by rewrite Hin, Hil.
    + destruct (Insert_avl r x Hr) as (r' & e0 & Heq & Hr' & Hhr & Hsame & _).
      rewrite Heq in Hins. destruct (IHr _ _ Hr Hsr Heq) as [Hir He0].
      rewrite ins_list_ge, find_list_ge by (done || lia).
      rewrite ins_list_skip, find_list_skip by done.
      destruct e0 as [e0|]; simpl in Hins.
      * assert (r' = r) as -> by eauto. simplify_eq.
        cbn [inorder]. by rewrite <- Hir.
      * destruct (rebalance_adjusted v l r' Hl Hr')
          as (n' & Hreb & _ & Hin & _); [lia|].
        rewrite Hreb in Hins. simpl in Hins. simplify_eq.
        by rewrite Hin, Hir.
    + simpl in Hins. simplify_eq.
      rewrite ins_list_ge, find_list_ge by (done || lia).
      simpl. by repeat case_decide; try lia.
Qed.

Lemma Update_inorder (t : node A) (x : A) t' e :
  avl t -> ascending (inorder t) ->
  Node.Update t x = Some (t', e) ->
  e = None /\
  (inorder t' = upd_list x (inorder t) \/
   inorder t' = ins_list x (inorder t)).
Proof.
  revert t' e. induction t as [|v l IHl r IHr h]; intros t' e Ha Hs Hupd.
  - simpl in Hupd. simplify_eq. split; [done|by left].
  - simpl in Ha. destruct Ha as (Hl & Hr & Hh & Hb).
    cbn [inorder] in *. apply ascending_node in Hs as (Hsl & Hsr & Hlv & Hvr).
    cbn [Node.Update] in Hupd. repeat case_decide.
    + destruct (Update_avl l x Hl) as (l' & e0 & Heq & Hl' & Hhl & _).
      rewrite Heq in Hupd. destruct (IHl _ _ Hl Hsl Heq) as [_ Hil].
      rewrite upd_list_lt, ins_list_lt by done.
      destruct (rebalance_adjusted v l' r Hl' Hr)
        as (n' & Hreb & _ & Hin & _); [lia|].
      simpl in Hupd. rewrite Hreb in Hupd. simpl in Hupd. simplify_eq.
      split; [done|]. rewrite Hin. destruct Hil as [-> | ->]; eauto.
    + destruct (Insert_avl r x Hr) as (r' & e0 & Heq & Hr' & Hhr & _).
      rewrite Heq in Hupd.
      destruct (Insert_inorder _ _ _ _ Hr Hsr Heq) as [Hir _].
      rewrite ins_list_ge by (done || lia). rewrite ins_list_skip by done.
      destruct (rebalance_adjusted v l r' Hl Hr')
        as (n' & Hreb & _ & Hin & _); [lia|].
      simpl in Hupd. rewrite Hreb in Hupd. simpl in Hupd. simplify_eq.
      split; [done|]. right. by rewrite Hin, Hir.
    + destruct (rebalance_adjusted x l r Hl Hr)
        as (n' & Hreb & _ & Hin & _); [lia|].
      simpl in Hupd. rewrite Hreb in Hupd. simpl in Hupd. simplify_eq.
      split; [done|]. left. rewrite Hin.
      rewrite upd_list_ge by (done || lia).
      simpl. by repeat case_decide; try lia.
Qed.

Lemma Delete_inorder (t : node A) (x : A) t' e :
  avl t -> ascending (inorder t) ->
  Node.Delete t x = Some (t', e) ->
  inorder t' = del_list x (inorder t) /\ e = find_list x (inorder t).
Proof.
  revert x t' e.
  induction t as [|v l IHl r IHr h]; intros x t' e Ha Hs Hdel.
  - simpl in Hdel. by simplify_eq.
  - simpl in Ha. destruct Ha as (Hl & Hr & Hh & Hb).
    pose proof (avl_height_nonneg l Hl) as Hl0.
    pose proof (avl_height_nonneg r Hr) as Hr0.
    cbn [inorder] in *.
    pose proof Hs as (Hsl & Hsr & Hlv & Hvr)%ascending_node.
    cbn [Node.Delete] in Hdel. repeat case_decide.
    + destruct (Delete_avl l x Hl) as (l' & e0 & Heq & Hl' & Hhl & Hsame).
      rewrite Heq in Hdel. destruct (IHl _ _ _ Hl Hsl Heq) as [Hil He0].
      rewrite del_list_lt, find_list_lt by done.
      destruct e0 as [e0|]; simpl in Hdel.
      * destruct (rebalance_adjusted v l' r Hl' Hr)
          as (n' & Hreb & _ & Hin & _); [lia|].
        rewrite Hreb in Hdel. simpl in Hdel. simplify_eq.
        by rewrite Hin, Hil.
      * assert (l' = l) as -> by eauto. simplify_eq.
        cbn [inorder]. by rewrite <- Hil.
    + destruct (Delete_avl r x Hr) as (r' & e0 & Heq & Hr' & Hhr & Hsame).
      rewrite Heq in Hdel. destruct (IHr _ _ _ Hr Hsr Heq) as [Hir He0].
      rewrite del_list_ge, find_list_ge by (done || lia).
      rewrite del_list_skip, find_list_skip by done.
      destruct e0 as [e0|]; simpl in Hdel.
      * destruct (rebalance_adjusted v l r' Hl Hr')
          as (n' & Hreb & _ & Hin & _); [lia|].
        rewrite Hreb in Hdel. simpl in Hdel. simplify_eq.
        by rewrite Hin, Hir.
      * assert (r' = r) as -> by eauto. simplify_eq.
        cbn [inorder]. by rewrite <- Hir.
    + rewrite del_list_ge, find_list_ge by (done || lia).
      assert (del_list x (v :: inorder r) = inorder r) as ->.
      { simpl. by repeat case_decide; try lia. }
      assert (find_list x (v :: inorder r) = Some v) as ->.
      { simpl. by repeat case_decide; try lia. }
      unfold Node.destroy_with in Hdel.
      destruct l as [|lv ll lr lh], r as [|rv rl rr rh].
      * simpl in Hdel. by simplify_eq.
      * pose proof Hr as (Hrl & Hrr & Hrh & Hrb).
        destruct (rebalance_adjusted rv rl rr Hrl Hrr)
          as (n' & Hreb & _ & Hin & _ & Hsame & _); [lia|].
        simpl in Hdel. rewrite Hreb in Hdel. simpl in Hdel. simplify_eq.
        by rewrite Hin.
      * pose proof Hl as (Hll & Hlr & Hlh & Hlb).
        destruct (rebalance_adjusted lv ll lr Hll Hlr)
          as (n' & Hreb & _ & Hin & _ & Hsame & _); [lia|].
        simpl in Hdel. rewrite Hreb in Hdel. simpl in Hdel. simplify_eq.
        rewrite Hin. simpl. by rewrite app_nil_r.
      * destruct (Max_is_Some (Node lv ll lr lh)) as [m Hm]; [done|].
        rewrite Hm in Hdel.
        destruct (Delete_avl (Node lv ll lr lh) m Hl)
          as (l' & e0 & Heq & Hl' & Hhl & _).
        rewrite Heq in Hdel. destruct (IHl _ _ _ Hl Hsl Heq) as [Hil _].
        destruct (rebalance_adjusted m l' (Node rv rl rr rh) Hl' Hr)
          as (n' & Hreb & _ & Hin & _); [simpl in *; lia|].
        simpl in Hreb, Hdel. rewrite Hreb in Hdel. simpl in Hdel.
        simplify_eq. rewrite Hin, Hil.
        rewrite Max_last in Hm. apply last_Some in Hm as [l0 Hl0'].
        rewrite Hl0' in *.
        apply ascending_node in Hsl as (_ & _ & Hl0m & _).
        rewrite del_list_ge by (done || rewrite Compare_refl; lia).
        simpl. rewrite Compare_refl. repeat case_decide; try lia.
        by rewrite app_nil_r, <- app_assoc.
Qed.

(** *** Trees built by the public operations are search trees *)

Lemma apply_op_ascending (t : Tree A) (o : op A) t' :
  avl (root t) -> ascending (inorder (root t)) ->
  apply_op t o = Some t' -> ascending (inorder (root t')).
Proof.
  intros Ha Hs Hop. destruct o as [x|x|x]; simpl in Hop.
  - unfold Tree.Insert in Hop.
    destruct (Node.Insert (root t) x) as [[r e]|] eqn:E; [|done].
    simpl in Hop. simplify_eq. simpl.
    destruct (Insert_inorder _ _ _ _ Ha Hs E) as [-> _].
    by apply ins_list_ascending.
  - unfold Tree.Update in Hop.
    destruct (Node.Update (root t) x) as [[r e]|] eqn:E; [|done].
    simpl in Hop. simplify_eq. simpl.
    destruct (Update_inorder _ _ _ _ Ha Hs E) as [_ [-> | ->]].
    + by apply upd_list_ascending.
    + by apply ins_list_ascending.
  - unfold Tree.Delete in Hop.
    destruct (Node.Delete (root t) x) as [[r e]|] eqn:E; [|done].
    simpl in Hop. simplify_eq. simpl.
    destruct (Delete_inorder _ _ _ _ Ha Hs E) as [-> _].
    by apply del_list_ascending.
Qed.

Lemma run_ascending (ops : list (op A)) (t t' : Tree A) :
  avl (root t) -> ascending (inorder (root t)) ->
  run ops t = Some t' -> ascending (inorder (root t')).
Proof.
  revert t. induction ops as [|o ops IH]; intros t Ha Hs Hrun; simpl in Hrun.
  - by simplify_eq.
  - destruct (apply_op_avl t o Ha) as (t1 & Hop & Ha1).
    rewrite Hop in Hrun. simpl in Hrun.
    eapply IH; [exact Ha1| |exact Hrun].
    exact (apply_op_ascending t o t1 Ha Hs Hop).
Qed.

Lemma reachable_ascending (t : Tree A) :
  reachable t -> ascending (inorder (root t)).
Proof.
  intros [ops Hrun]. eapply run_ascending; [| |exact Hrun]; simpl.
  - done.
  - constructor.
Qed.

End Order.

(** ** Traversals *)

Section TraversalLogs.
Context {A : Type} `{Item A} {St : Type}.
Implicit Types (fn : A -> St -> bool * St) (st : list (A * bool) * St).

Lemma logging_items fn x st :
  map fst (fst (snd (logging fn x st))) = map fst (fst st) ++ [x].
Proof.
  unfold logging. destruct (fn x (snd st)) as [b s]. simpl.
  by rewrite map_app.
Qed.

(** Whatever the visitor answers, each traversal calls it on every item
    of the tree, in the order of the traversal. *)
Lemma InOrder_items (n : node A) fn st :
  map fst (fst (Node.InOrder n (logging fn) st)) =
  map fst (fst st) ++ inorder n.
Proof.
  revert st. induction n as [|v l IHl r IHr h]; intros st; simpl.
  - by rewrite app_nil_r.
  - pose proof (logging_items fn v (Node.InOrder l (logging fn) st)) as Hv.
    destruct (logging fn v (Node.InOrder l (logging fn) st)) as [b st'].
    simpl in Hv. rewrite IHr, Hv, IHl. by rewrite <- !app_assoc.
Qed.

Lemma PreOrder_items (n : node A) fn st :
  map fst (fst (Node.PreOrder n (logging fn) st)) =
  map fst (fst st) ++ preorder n.
Proof.
  revert st. induction n as [|v l IHl r IHr h]; intros st; simpl.
  - by rewrite app_nil_r.
  - pose proof (logging_items fn v st) as Hv.
    destruct (logging fn v st) as [b st'].
    simpl in Hv. rewrite IHr, IHl, Hv. by rewrite <- !app_assoc.
Qed.

Lemma PostOrder_items (n : node A) fn st :
  map fst (fst (Node.PostOrder n (logging fn) st)) =
  map fst (fst st) ++ postorder n.
Proof.
  revert st. induction n as [|v l IHl r IHr h]; intros st; simpl.
  - by rewrite app_nil_r.
  - pose proof (logging_items fn v
      (Node.PostOrder r (logging fn) (Node.PostOrder l (logging fn) st)))
      as Hv.
    destruct (logging fn v
      (Node.PostOrder r (logging fn) (Node.PostOrder l (logging fn) st)))
      as [b st'].
    simpl in Hv. rewrite Hv, IHr, IHl. by rewrite <- !app_assoc.
Qed.

End TraversalLogs.

(** ** Neighbour queries *)

Section Neighbours.
Context {A : Type} `{ItemOrder A}.

Lemma elem_of_node (q v : A) (l1 l2 : list A) :
  q ∈ l1 ++ v :: l2 <-> q ∈ l1 \/ q = v \/ q ∈ l2.
Proof. by rewrite elem_of_app, elem_of_cons. Qed.

Lemma Predcessor_spec (n : node A) (x : A) :
  ascending (inorder n) ->
  is_predecessor (inorder n) x (Node.Predcessor n x).
Proof.
  induction n as [|v l IHl r IHr h].
  - intros _ q Hq. by apply elem_of_nil in Hq.
  - cbn [inorder Node.Predcessor].
    intros Hs. pose proof Hs as (Hsl & Hsr & Hlv & Hvr)%ascending_node.
    rewrite Forall_forall in Hlv, Hvr.
    specialize (IHl Hsl). specialize (IHr Hsr).
    assert (forall q, q ∈ inorder r -> Compare x v <= 0 -> ~ lt q x) as Hright.
    { intros q Hq Hxv Hqx. specialize (Hvr q Hq). unfold lt in *.
      pose proof (lt_le_trans q x v Hqx Hxv).
      pose proof (Compare_antisym q v). lia. }
    assert (forall q, q = v -> Compare x v <= 0 -> ~ lt q x) as Hroot.
    { intros q -> Hxv Hqx. unfold lt in *.
      pose proof (Compare_antisym x v). lia. }
    repeat case_decide.
    + (* x < v: the answer of the left subtree stands *)
      destruct (Node.Predcessor l x) as [p|]; simpl in *.
      * destruct IHl as (Hp & Hpx & Hmax). repeat split; [|done|].
        { apply elem_of_node. by left. }
        intros q [Hq|[Hq|Hq]]%elem_of_node Hqx; [by apply Hmax| |].
        -- exfalso. eapply Hroot; [done|lia|done].
        -- exfalso. eapply Hright; [done|lia|done].
      * intros q [Hq|[Hq|Hq]]%elem_of_node; [by apply IHl| |].
        -- apply Hroot; [done|lia].
        -- apply Hright; [done|lia].
    + (* x > v: the right subtree, or the node itself *)
      assert (lt v x) as Hvx by by apply Compare_gt_lt.
      destruct (Node.Predcessor r x) as [p|]; simpl in *.
      * destruct IHr as (Hp & Hpx & Hmax). repeat split; [|done|].
        { apply elem_of_node. by right; right. }
        intros q [Hq|[Hq|Hq]]%elem_of_node Hqx; [| |by apply Hmax].
        -- pose proof (lt_trans q v p (Hlv q Hq) (Hvr p Hp)) as Hqp.
           unfold lt in Hqp. lia.
        -- subst q. specialize (Hvr p Hp). unfold lt in Hvr. lia.
      * repeat split; [|done|].
        { apply elem_of_node. by right; left. }
        intros q [Hq|[Hq|Hq]]%elem_of_node Hqx.
        -- specialize (Hlv q Hq). unfold lt in Hlv. lia.
        -- subst q. rewrite Compare_refl. lia.
        -- by destruct (IHr q Hq).
    + (* x = v: the maximum of the left subtree *)
      assert (Compare x v = 0) as Hxv by lia.
      rewrite Max_last.
      destruct (last (inorder l)) as [m|] eqn:Hm; simpl.
      * apply last_Some in Hm as [l0 Hl0]. rewrite Hl0 in *.
        apply ascending_node in Hsl as (_ & _ & Hl0m & _).
        rewrite Forall_forall in Hl0m.
        assert (m ∈ l0 ++ [m]) as Hmin by (apply elem_of_node; by right; left).
        repeat split.
        { apply elem_of_node. by left. }
        { eapply lt_eq_trans; [by apply Hlv|by apply Compare_eq_sym]. }
        intros q [Hq|[Hq|Hq]]%elem_of_node Hqx.
        -- apply elem_of_node in Hq as [Hq|[->|Hq]].
           ++ specialize (Hl0m q Hq). unfold lt in Hl0m. lia.
           ++ rewrite Compare_refl. lia.
           ++ by apply elem_of_nil in Hq.
        -- exfalso. eapply Hroot; [done|lia|done].
        -- exfalso. eapply Hright; [done|lia|done].
      * apply last_None in Hm. rewrite Hm.
        intros q [Hq|[Hq|Hq]]%elem_of_node.
        -- by apply elem_of_nil in Hq.
        -- apply Hroot; [done|lia].
        -- apply Hright; [done|lia].
Qed.

Lemma Successor_spec (n : node A) (x : A) :
  ascending (inorder n) ->
  is_successor (inorder n) x (Node.Successor n x).
Proof.
  induction n as [|v l IHl r IHr h].
  - intros _ q Hq. by apply elem_of_nil in Hq.
  - cbn [inorder Node.Successor].
    intros Hs. pose proof Hs as (Hsl & Hsr & Hlv & Hvr)%ascending_node.
    rewrite Forall_forall in Hlv, Hvr.
    specialize (IHl Hsl). specialize (IHr Hsr).
    assert (forall q, q ∈ inorder l -> Compare x v >= 0 -> ~ lt x q) as Hleft.
    { intros q Hq Hxv Hxq. specialize (Hlv q Hq). unfold lt in *.
      pose proof (lt_trans x q v Hxq Hlv) as Hxv'. unfold lt in Hxv'. lia. }
    assert (forall q, q = v -> Compare x v >= 0 -> ~ lt x q) as Hroot.
    { intros q -> Hxv Hqx. unfold lt in *. lia. }
    repeat case_decide.
    + (* x < v: the left subtree, or the node itself *)
      destruct (Node.Successor l x) as [p|]; simpl in *.
      * destruct IHl as (Hp & Hpx & Hmin). repeat split; [|done|].
        { apply elem_of_node. by left. }
        intros q [Hq|[Hq|Hq]]%elem_of_node Hqx; [by apply Hmin| |].
        -- subst q. specialize (Hlv p Hp). unfold lt in Hlv. lia.
        -- pose proof (lt_trans p v q (Hlv p Hp) (Hvr q Hq)) as Hpq.
           unfold lt in Hpq. lia.
      * repeat split; [|done|].
        { apply elem_of_node. by right; left. }
        intros q [Hq|[Hq|Hq]]%elem_of_node Hqx.
        -- by destruct (IHl q Hq).
        -- subst q. rewrite Compare_refl. lia.
        -- specialize (Hvr q Hq). unfold lt in Hvr. lia.
    + (* x > v: the answer of the right subtree stands *)
      destruct (Node.Successor r x) as [p|]; simpl in *.
      * destruct IHr as (Hp & Hpx & Hmin). repeat split; [|done|].
        { apply elem_of_node. by right; right. }
        intros q [Hq|[Hq|Hq]]%elem_of_node Hqx; [| |by apply Hmin].
        -- exfalso. eapply Hleft; [done|lia|done].
        -- exfalso. eapply Hroot; [done|lia|done].
      * intros q [Hq|[Hq|Hq]]%elem_of_node; [| |by apply IHr].
        -- apply Hleft; [done|lia].
        -- apply Hroot; [done|lia].
    + (* x = v: the minimum of the right subtree *)
      assert (Compare x v = 0) as Hxv by lia.
      rewrite Min_head.
      destruct (inorder r) as [|m l0] eqn:Hm; simpl.
      * intros q [Hq|[Hq|Hq]]%elem_of_node.
        -- apply Hleft; [done|lia].
        -- apply Hroot; [done|lia].
        -- by apply elem_of_nil in Hq.
      * apply StronglySorted_cons in Hsr as [Hml0 _].
        rewrite Forall_forall in Hml0.
        assert (m ∈ m :: l0) as Hmin by (apply elem_of_cons; by left).
        repeat split.
        { apply elem_of_node. right; right. done. }
        { eapply eq_lt_trans; [done|by apply Hvr]. }
        intros q [Hq|[Hq|Hq]]%elem_of_node Hqx.
        -- exfalso. eapply Hleft; [done|lia|done].
        -- exfalso. eapply Hroot; [done|lia|done].
        -- apply elem_of_cons in Hq as [->|Hq].
           ++ rewrite Compare_refl. lia.
           ++ specialize (Hml0 q Hq). unfold lt in Hml0. lia.
Qed.

(** C9.  On every tree built by the public operations and for every
    lookup key, present or not, [Predecessor] returns the greatest stored
    item strictly less than the key (empty when there is none) and
    [Successor] the smallest stored item strictly greater than the key
    (empty when there is none). *)
Theorem neighbours_correct (t : Tree A) (x : A) :
  reachable t ->
  is_predecessor (inorder (root t)) x (Tree.Predecessor t x) /\
  is_successor (inorder (root t)) x (Tree.Successor t x).
Proof.
  intros Hs%reachable_ascending. split.
  - by apply Predcessor_spec.
  - by apply Successor_spec.
Qed.

End Neighbours.

(** ** Search after Insert *)

Section SearchInsert.
Context {A : Type} `{ItemOrder A}.

(** In an ascending list the item equal to the key is the one found. *)
Lemma find_list_elem (y v : A) (l : list A) :
  ascending l -> v ∈ l -> Compare y v = 0 -> find_list y l = Some v.
Proof.
  unfold ascending. induction l as [|a l IH]; intros Hs Hv Hy.
  - by apply elem_of_nil in Hv.
  - apply StronglySorted_cons in Hs as [Ha Hs].
    apply elem_of_cons in Hv as [->|Hv].
    + simpl. repeat case_decide; done || lia.
    + rewrite Forall_forall in Ha. specialize (Ha v Hv).
      rewrite find_list_skip; [by apply IH|].
      apply Compare_gt_lt. eapply lt_eq_trans; [exact Ha|].
      by apply Compare_eq_sym.
Qed.

Lemma find_list_Some (x a : A) (l : list A) :
  find_list x l = Some a -> a ∈ l /\ Compare x a = 0.
Proof.
  induction l as [|b l IH]; simpl; [done|].
  repeat case_decide; try done.
  - intros [? ?]%IH. split; [by apply elem_of_cons; right|done].
  - intros [= ->]. split; [by apply elem_of_cons; left|lia].
Qed.

Lemma find_list_absent (x : A) (l : list A) :
  (forall v, v ∈ l -> Compare x v <> 0) -> find_list x l = None.
Proof.
  intros Habs. destruct (find_list x l) as [a|] eqn:E; [|done].
  apply find_list_Some in E as [Ha Hx]. by destruct (Habs a Ha).
Qed.

Lemma ins_list_keeps (x a : A) (l : list A) : a ∈ l -> a ∈ ins_list x l.
Proof.
  induction l as [|b l IH]; simpl; [by intros ?%elem_of_nil|].
  repeat case_decide; rewrite !elem_of_cons; intuition.
Qed.

Lemma ins_list_adds (x : A) (l : list A) :
  find_list x l = None -> x ∈ ins_list x l.
Proof.
  induction l as [|b l IH]; simpl.
  - intros _. by apply list_elem_of_singleton.
  - repeat case_decide; rewrite ?elem_of_cons; intuition. done.
Qed.

(** [Search] on a search tree finds the stored item equal to the key. *)
Lemma Search_elem (t : node A) (y v : A) :
  ascending (inorder t) -> v ∈ inorder t -> Compare y v = 0 ->
  Node.Search t y = Some v.
Proof. intros Hs Hv Hy. rewrite Search_find by done. by apply find_list_elem. Qed.

(** C10.  On a tree built by the public operations that holds no item
    equal to [x], [Insert x] succeeds, [Search x] on the new tree returns
    [x], and [Search y] on the new tree returns the same stored item as
    on the old tree for every key [y] equal to an item [v] of the old
    tree. *)
Theorem search_after_insert (t : Tree A) (x : A) :
  reachable t ->
  (forall v, v ∈ inorder (root t) -> Compare x v <> 0) ->
  exists t',
    Tree.Insert t x = Some (t', None) /\
    Tree.Search t' x = Some x /\
    forall y v, v ∈ inorder (root t) -> Compare y v = 0 ->
      Tree.Search t y = Some v /\ Tree.Search t' y = Some v.
Proof.
  intros Hr Habs.
  pose proof (reachable_avl t Hr) as Ha.
  pose proof (reachable_ascending t Hr) as Hs.
  destruct (Insert_avl (root t) x Ha) as (r & e & Hins & Hr' & _).
  destruct (Insert_inorder _ _ _ _ Ha Hs Hins) as [Hin He].
  rewrite find_list_absent in He by done. subst e.
  assert (ascending (inorder r)) as Hs'.
  { rewrite Hin. by apply ins_list_ascending. }
  exists (mkTree r (size t + 1)). unfold Tree.Insert, Tree.Search.
  rewrite Hins. simpl. repeat split.
  - apply Search_elem; [done| |apply Compare_refl].
    rewrite Hin. apply ins_list_adds. by apply find_list_absent.
  - by apply Search_elem.
  - apply Search_elem; [done| |done]. rewrite Hin. by apply ins_list_keeps.
Qed.

End SearchInsert.

(** ** Lawful item types *)

#[export] Instance ZItem_order : ItemOrder Z.
Proof. split; unfold Compare, ZItem; intros; lia. Qed.

#[export] Instance UserItem_order : ItemOrder (Z * Z).
Proof. split; unfold Compare, UserItem; intros; lia. Qed.

Lemma users12_reachable : reachable users12.
Proof. exists [OpInsert (1, 10); OpInsert (2, 20)]. reflexivity. Qed.

Lemma ints123_reachable : reachable ints123.
Proof. exists [OpInsert 1; OpInsert 2; OpInsert 3]. reflexivity. Qed.

(** ** Where the code departs from its documentation *)

(** [Update] returns [root.rebalance(), nil]: the previous item it has
    just computed is dropped on every path. *)
Lemma Update_prev_None {A : Type} `{Item A} (n : node A) (x : A) r prev :
  Node.Update n x = Some (r, prev) -> prev = None.
Proof.
  destruct n as [|v l r0 h]; simpl; [by intros [= _ <-]|].
  intros Hu. repeat case_decide.
  - destruct (Node.Update l x) as [[m p]|]; simpl in Hu; [|done].
    destruct (Node.rebalance _); simpl in Hu; by simplify_eq.
  - destruct (Node.Insert r0 x) as [[m p]|]; simpl in Hu; [|done].
    destruct (Node.rebalance _); simpl in Hu; by simplify_eq.
  - simpl in Hu. destruct (Node.rebalance _); simpl in Hu; by simplify_eq.
Qed.

(** C1.  [Update] on the tree holding [(1,10)] and [(2,20)]: updating the
    root item replaces it but reports no previous item, and updating the
    item of the right subtree neither replaces it nor reports it; both
    times the size grows to 3. *)
Theorem update_drops_previous :
  Tree.Update users12 (1, 11) =
    Some (mkTree (Node (1, 11) Nil (Node (2, 20) Nil Nil 1) 2) 3, None) /\
  Tree.Update users12 (2, 21) =
    Some (mkTree (Node (1, 10) Nil (Node (2, 20) Nil Nil 1) 2) 3, None).
Proof. split; reflexivity. Qed.

(** C2.  On the tree holding 1, 2, 3, with a visitor that answers [false]
    at every call, each traversal still calls the visitor on all three
    items: the call log violates the stop contract. *)
Theorem traversals_ignore_stop :
  let log_in := fst (Tree.InOrder ints123 (logging stop_at_once) ([], tt)) in
  let log_pre := fst (Tree.PreOrder ints123 (logging stop_at_once) ([], tt)) in
  let log_post :=
    fst (Tree.PostOrder ints123 (logging stop_at_once) ([], tt)) in
  log_in = [(1, false); (2, false); (3, false)] /\
  log_pre = [(2, false); (1, false); (3, false)] /\
  log_post = [(1, false); (3, false); (2, false)] /\
  ~ stops_at_false log_in /\ ~ stops_at_false log_pre /\
  ~ stops_at_false log_post.
Proof.
  repeat split; intros Hstop.
  - by specialize (Hstop 0%nat 1 eq_refl).
  - by specialize (Hstop 0%nat 2 eq_refl).
  - by specialize (Hstop 0%nat 1 eq_refl).
Qed.

(** C6.  [Insert(1)] then [Update(1)] from the empty tree: one item is
    stored and visited, and [Size] answers 2. *)
Theorem size_overcounts_after_update :
  exists t,
    run [OpInsert 1; OpUpdate 1] Tree.empty = Some t /\
    Tree.Size t = 2 /\
    length (fst (Tree.InOrder t (logging keep_going) ([], tt))) = 1%nat.
Proof. exists (mkTree (Node 1 Nil Nil 1) 2). repeat split. Qed.

(** ** Instances of the theorems *)

Lemma balance_invariant_witness :
  every_node (fun v l r h =>
    Z.abs (Node.height r - Node.height l) <= 1 /\
    h = 1 + Z.max (Node.height l) (Node.height r) /\
    Node.height l = real_height l /\ Node.height r = real_height r)
    (root ints123).
Proof.
  apply (balance_invariant ints123).
  exists [OpInsert 1; OpInsert 2; OpInsert 3]. reflexivity.
Defined.

Lemma neighbours_correct_witness :
  is_predecessor (inorder (root ints123)) 2 (Tree.Predecessor ints123 2) /\
  is_successor (inorder (root ints123)) 2 (Tree.Successor ints123 2).
Proof.
  apply (neighbours_correct ints123 2).
  exists [OpInsert 1; OpInsert 2; OpInsert 3]. reflexivity.
Defined.

Lemma search_after_insert_witness :
  exists t',
    Tree.Insert ints123 5 = Some (t', None) /\
    Tree.Search t' 5 = Some 5 /\
    forall y v, v ∈ inorder (root ints123) -> Compare y v = 0 ->
      Tree.Search ints123 y = Some v /\ Tree.Search t' y = Some v.
Proof.
  apply (search_after_insert ints123 5).
  - exists [OpInsert 1; OpInsert 2; OpInsert 3]. reflexivity.
  - intros v Hv. simpl in Hv.
    repeat (apply elem_of_cons in Hv as [->|Hv]); try done.
    by apply elem_of_nil in Hv.
Defined.


(** ** The pointer-level model refines the value-level model *)

#[global] Arguments Heap.bind : simpl never.
#[global] Arguments Heap.ret : simpl never.
#[global] Arguments Heap.alloc : simpl never.
#[global] Arguments Heap.load : simpl never.
#[global] Arguments Heap.store : simpl never.
#[global] Arguments Heap.set_left : simpl never.
#[global] Arguments Heap.set_right : simpl never.
#[global] Arguments Heap.set_value : simpl never.
#[global] Arguments Heap.set_h : simpl never.
#[global] Arguments Heap.clone : simpl never.
#[global] Arguments Heap.height : simpl never.
#[global] Arguments Heap.balance : simpl never.
#[global] Arguments Heap.adjustHeight : simpl never.
#[global] Arguments Heap.rotateRight : simpl never.
#[global] Arguments Heap.rotateLeft : simpl never.
#[global] Arguments Heap.rebalance : simpl never.
#[global] Arguments Heap.and_then : simpl never.
#[global] Arguments Heap.left_balance : simpl never.
#[global] Arguments Heap.right_balance : simpl never.

Section HeapBasics.
Context {A : Type} `{Item A}.
Implicit Types (hp ext : list (Heap.cell A)) (p q : Heap.ptr) (t : node A).
Implicit Types (D : nat -> Prop).
Local Open Scope heap_scope.

Lemma bind_ok {R R'} (m : Heap.M A R) (k : R -> Heap.M A R') hp r hp' :
  m hp = Heap.Ok r hp' -> Heap.bind m k hp = k r hp'.
Proof. unfold Heap.bind. by intros ->. Qed.

Lemma bind_assoc {R R' R''} (m : Heap.M A R) (k : R -> Heap.M A R')
    (k' : R' -> Heap.M A R'') hp :
  Heap.bind (Heap.bind m k) k' hp =
  Heap.bind m (fun r => Heap.bind (k r) k') hp.
Proof. unfold Heap.bind. by destruct (m hp). Qed.

Lemma from_nil {R} (m : Heap.M A R) hp o : m (hp ++ []) = o -> m hp = o.
Proof. by rewrite app_nil_r. Qed.

(** *** Store primitives at a known address *)

Lemma load_at hp l c :
  hp !! l = Some c -> Heap.load (Some l) hp = Heap.Ok c hp.
Proof. intros Hl. unfold Heap.load. by rewrite Hl. Qed.

Lemma store_at hp l c0 c :
  hp !! l = Some c0 -> Heap.store (Some l) c hp = Heap.Ok tt (<[l:=c]> hp).
Proof. intros Hl. unfold Heap.store. by rewrite Hl. Qed.

Lemma clone_at hp l c :
  hp !! l = Some c ->
  Heap.clone (Some l) hp = Heap.Ok (Some (length hp)) (hp ++ [c]).
Proof.
  intros Hl. unfold Heap.clone.
  by rewrite (bind_ok _ _ _ _ _ (load_at _ _ _ Hl)).
Qed.

Lemma set_left_at hp l c q :
  hp !! l = Some c ->
  Heap.set_left (Some l) q hp =
  Heap.Ok tt (<[l:=Heap.Cell (Heap.value c) q (Heap.right c) (Heap.h c)]> hp).
Proof.
  intros Hl. unfold Heap.set_left.
  rewrite (bind_ok _ _ _ _ _ (load_at _ _ _ Hl)). by eapply store_at.
Qed.

Lemma set_right_at hp l c q :
  hp !! l = Some c ->
  Heap.set_right (Some l) q hp =
  Heap.Ok tt (<[l:=Heap.Cell (Heap.value c) (Heap.left c) q (Heap.h c)]> hp).
Proof.
  intros Hl. unfold Heap.set_right.
  rewrite (bind_ok _ _ _ _ _ (load_at _ _ _ Hl)). by eapply store_at.
Qed.

Lemma set_value_at hp l c x :
  hp !! l = Some c ->
  Heap.set_value (Some l) x hp =
  Heap.Ok tt (<[l:=Heap.Cell x (Heap.left c) (Heap.right c) (Heap.h c)]> hp).
Proof.
  intros Hl. unfold Heap.set_value.
  rewrite (bind_ok _ _ _ _ _ (load_at _ _ _ Hl)). by eapply store_at.
Qed.

Lemma adjustHeight_at hp l c hl hr :
  hp !! l = Some c ->
  Heap.height (Heap.left c) hp = Heap.Ok hl hp ->
  Heap.height (Heap.right c) hp = Heap.Ok hr hp ->
  Heap.adjustHeight (Some l) hp =
  Heap.Ok tt
    (<[l:=Heap.Cell (Heap.value c) (Heap.left c) (Heap.right c)
            (Node.max hl hr + 1)]> hp).
Proof.
  intros Hk Hl Hr. unfold Heap.adjustHeight.
  rewrite (bind_ok _ _ _ _ _ (load_at _ _ _ Hk)).
  rewrite (bind_ok _ _ _ _ _ Hl), (bind_ok _ _ _ _ _ Hr).
  unfold Heap.set_h.
  rewrite (bind_ok _ _ _ _ _ (load_at _ _ _ Hk)). by eapply store_at.
Qed.

(** *** Cells allocated by the current call: the store is [hp ++ ext] and
    the cell is the [k]-th of [ext] *)

Lemma lookup_new hp ext (k : nat) :
  (hp ++ ext) !! (length hp + k)%nat = ext !! k.
Proof. rewrite lookup_app_r by lia. f_equal. lia. Qed.

Lemma insert_new hp ext (k : nat) c :
  <[(length hp + k)%nat:=c]> (hp ++ ext) = hp ++ <[k:=c]> ext.
Proof. apply insert_app_r. Qed.

Lemma load_old hp ext l c :
  hp !! l = Some c ->
  Heap.load (Some l) (hp ++ ext) = Heap.Ok c (hp ++ ext).
Proof. intros Hl. by apply load_at, lookup_app_l_Some. Qed.

Lemma load_new hp ext (k : nat) c :
  ext !! k = Some c ->
  Heap.load (Some (length hp + k)%nat) (hp ++ ext) = Heap.Ok c (hp ++ ext).
Proof. intros Hk. apply load_at. by rewrite lookup_new. Qed.

Lemma clone_old hp ext l c :
  hp !! l = Some c ->
  Heap.clone (Some l) (hp ++ ext) =
  Heap.Ok (Some (length hp + length ext)%nat) (hp ++ (ext ++ [c])).
Proof.
  intros Hl. rewrite (clone_at _ l c) by by apply lookup_app_l_Some.
  by rewrite length_app, app_assoc.
Qed.

Lemma set_left_new hp ext (k : nat) c q :
  ext !! k = Some c ->
  Heap.set_left (Some (length hp + k)%nat) q (hp ++ ext) =
  Heap.Ok tt
    (hp ++ <[k:=Heap.Cell (Heap.value c) q (Heap.right c) (Heap.h c)]> ext).
Proof.
  intros Hk. rewrite (set_left_at _ _ c) by by rewrite lookup_new.
  by rewrite insert_new.
Qed.

Lemma set_right_new hp ext (k : nat) c q :
  ext !! k = Some c ->
  Heap.set_right (Some (length hp + k)%nat) q (hp ++ ext) =
  Heap.Ok tt
    (hp ++ <[k:=Heap.Cell (Heap.value c) (Heap.left c) q (Heap.h c)]> ext).
Proof.
  intros Hk. rewrite (set_right_at _ _ c) by by rewrite lookup_new.
  by rewrite insert_new.
Qed.

Lemma adjustHeight_new hp ext (k : nat) c hl hr :
  ext !! k = Some c ->
  Heap.height (Heap.left c) (hp ++ ext) = Heap.Ok hl (hp ++ ext) ->
  Heap.height (Heap.right c) (hp ++ ext) = Heap.Ok hr (hp ++ ext) ->
  Heap.adjustHeight (Some (length hp + k)%nat) (hp ++ ext) =
  Heap.Ok tt
    (hp ++ <[k:=Heap.Cell (Heap.value c) (Heap.left c) (Heap.right c)
                  (Node.max hl hr + 1)]> ext).
Proof.
  intros Hk Hl Hr.
  rewrite (adjustHeight_at _ _ c hl hr) by (done || by rewrite lookup_new).
  by rewrite insert_new.
Qed.

(** *** Representation *)

Lemma repr_in_mono D D' hp p t :
  (forall l, D l -> D' l) -> Heap.repr_in D hp p t -> Heap.repr_in D' hp p t.
Proof.
  intros HD. revert p.
  induction t as [|v tl IHl tr IHr ht]; intros p; simpl; [done|].
  intros (l & pl & pr & -> & Hd & Hl & Hrl & Hrr).
  exists l, pl, pr. repeat split; auto.
Qed.

(** Every cell of a represented tree is allocated. *)
Lemma repr_in_allocated D hp p t :
  Heap.repr_in D hp p t ->
  Heap.repr_in (fun l => D l /\ (l < length hp)%nat) hp p t.
Proof.
  revert p. induction t as [|v tl IHl tr IHr ht]; intros p; simpl; [done|].
  intros (l & pl & pr & -> & Hd & Hl & Hrl & Hrr).
  exists l, pl, pr. repeat split; auto. by eapply lookup_lt_Some.
Qed.

(** A represented tree survives any change of the store outside [D]. *)
Lemma repr_in_transport D hp hp' p t :
  (forall l c, D l -> hp !! l = Some c -> hp' !! l = Some c) ->
  Heap.repr_in D hp p t -> Heap.repr_in D hp' p t.
Proof.
  intros Hsub. revert p.
  induction t as [|v tl IHl tr IHr ht]; intros p; simpl; [done|].
  intros (l & pl & pr & -> & Hd & Hl & Hrl & Hrr).
  exists l, pl, pr. repeat split; auto.
Qed.

Lemma repr_in_app D hp ext p t :
  Heap.repr_in D hp p t -> Heap.repr_in D (hp ++ ext) p t.
Proof.
  apply repr_in_transport. intros l c _. apply lookup_app_l_Some.
Qed.

Lemma repr_in_insert D hp l0 c p t :
  (forall l, D l -> l <> l0) ->
  Heap.repr_in D hp p t -> Heap.repr_in D (<[l0:=c]> hp) p t.
Proof.
  intros Hne. apply repr_in_transport. intros l c' Hd Hl.
  rewrite list_lookup_insert_ne; [done|]. intros ->. by eapply Hne.
Qed.

Lemma repr_in_node D hp l v pl pr ht tl tr :
  D l -> hp !! l = Some (Heap.Cell v pl pr ht) ->
  Heap.repr_in D hp pl tl -> Heap.repr_in D hp pr tr ->
  Heap.repr_in D hp (Some l) (Node v tl tr ht).
Proof. intros. simpl. eauto 10. Qed.

Lemma height_repr D hp p t :
  Heap.repr_in D hp p t -> Heap.height p hp = Heap.Ok (Node.height t) hp.
Proof.
  destruct t as [|v tl tr ht]; simpl.
  - by intros ->.
  - intros (l & pl & pr & -> & _ & Hl & _). unfold Heap.height.
    by rewrite (bind_ok _ _ _ _ _ (load_at _ _ _ Hl)).
Qed.

Lemma height_old D hp ext p t :
  Heap.repr_in D hp p t ->
  Heap.height p (hp ++ ext) = Heap.Ok (Node.height t) (hp ++ ext).
Proof. intros Hr. eapply height_repr. by apply repr_in_app. Qed.

Lemma height_new hp ext (k : nat) c :
  ext !! k = Some c ->
  Heap.height (Some (length hp + k)%nat) (hp ++ ext) =
  Heap.Ok (Heap.h c) (hp ++ ext).
Proof.
  intros Hk. unfold Heap.height.
  by rewrite (bind_ok _ _ _ _ _ (load_new _ _ _ _ Hk)).
Qed.

Lemma balance_repr D hp p t :
  Heap.repr_in D hp p t -> Heap.balance p hp = Heap.Ok (Node.balance t) hp.
Proof.
  destruct t as [|v tl tr ht]; simpl.
  - by intros ->.
  - intros (l & pl & pr & -> & _ & Hl & Hrl & Hrr). unfold Heap.balance.
    rewrite (bind_ok _ _ _ _ _ (load_at _ _ _ Hl)). simpl.
    rewrite (bind_ok _ _ _ _ _ (height_repr _ _ _ _ Hrr)).
    by rewrite (bind_ok _ _ _ _ _ (height_repr _ _ _ _ Hrl)).
Qed.

(** [adjustHeight] on a node whose cached height is already right
    rewrites the same cell. *)
Lemma adjustHeight_same D hp l v pl pr tl tr :
  hp !! l = Some (Heap.Cell v pl pr
                    (Node.max (Node.height tl) (Node.height tr) + 1)) ->
  Heap.repr_in D hp pl tl -> Heap.repr_in D hp pr tr ->
  Heap.adjustHeight (Some l) hp = Heap.Ok tt hp.
Proof.
  intros Hl Hrl Hrr.
  rewrite (adjustHeight_at _ _ _ _ _ Hl (height_repr _ _ _ _ Hrl)
             (height_repr _ _ _ _ Hrr)).
  simpl. by rewrite list_insert_id.
Qed.

End HeapBasics.

(** One step of a pointer-level program: the first action of a [bind] is
    replaced by its outcome, proved by [tac]. *)
Ltac hstep tac :=
  rewrite ?bind_assoc; erewrite bind_ok; [|tac]; cbv beta iota; simpl.

Section HeapRotations.
Context {A : Type} `{Item A}.
Implicit Types (hp ext : list (Heap.cell A)) (p q : Heap.ptr) (t : node A).
Implicit Types (D : nat -> Prop).
Local Open Scope heap_scope.

Lemma rotateRight_refines D hp n t t' :
  Heap.repr_in D hp n t -> (forall l, (length hp <= l)%nat -> D l) ->
  Node.rotateRight t = Some t' ->
  exists ext p',
    Heap.rotateRight n hp = Heap.Ok p' (hp ++ ext) /\
    Heap.repr_in D (hp ++ ext) p' t'.
Proof.
  intros Hrep Hfresh Hrot.
  destruct t as [|v l r h]; [done|]. destruct l as [|lv ll lr lh]; [done|].
  simpl in Hrot. injection Hrot as <-.
  destruct Hrep as (ln & pl & pr & -> & Hdn & Hn & Hl & Hr).
  destruct Hl as (l0 & pll & plr & -> & Hdl & Hl0 & Hll & Hlr).
  eexists _, _. split.
  { apply from_nil. unfold Heap.rotateRight.
    hstep ltac:(by eapply load_old).
    hstep ltac:(by eapply clone_old).
    hstep ltac:(by eapply clone_old).
    hstep ltac:(by eapply (load_new _ _ 0)).
    hstep ltac:(by eapply (set_left_new _ _ 1)).
    hstep ltac:(by eapply (set_right_new _ _ 0)).
    hstep ltac:(eapply (adjustHeight_new _ _ 1);
                [done|by eapply height_old..]).
    hstep ltac:(eapply (adjustHeight_new _ _ 0);
                [done|by eapply height_old|by eapply (height_new _ _ 1)]).
    reflexivity. }
  eapply repr_in_node;
    [apply Hfresh; lia|by rewrite (lookup_new _ _ 0)|by apply repr_in_app|].
  eapply repr_in_node;
    [apply Hfresh; lia|by rewrite (lookup_new _ _ 1)|by apply repr_in_app..].
Qed.

Lemma rotateLeft_refines D hp n t t' :
  Heap.repr_in D hp n t -> (forall l, (length hp <= l)%nat -> D l) ->
  Node.rotateLeft t = Some t' ->
  exists ext p',
    Heap.rotateLeft n hp = Heap.Ok p' (hp ++ ext) /\
    Heap.repr_in D (hp ++ ext) p' t'.
Proof.
  intros Hrep Hfresh Hrot.
  destruct t as [|v l r h]; [done|]. destruct r as [|rv rl rr rh]; [done|].
  simpl in Hrot. injection Hrot as <-.
  destruct Hrep as (ln & pl & pr & -> & Hdn & Hn & Hl & Hr).
  destruct Hr as (r0 & prl & prr & -> & Hdr & Hr0 & Hrl & Hrr).
  eexists _, _. split.
  { apply from_nil. unfold Heap.rotateLeft.
    hstep ltac:(by eapply load_old).
    hstep ltac:(by eapply clone_old).
    hstep ltac:(by eapply clone_old).
    hstep ltac:(by eapply (load_new _ _ 0)).
    hstep ltac:(by eapply (set_right_new _ _ 1)).
    hstep ltac:(by eapply (set_left_new _ _ 0)).
    hstep ltac:(eapply (adjustHeight_new _ _ 1);
                [done|by eapply height_old..]).
    hstep ltac:(eapply (adjustHeight_new _ _ 0);
                [done|by eapply (height_new _ _ 1)|by eapply height_old]).
    reflexivity. }
  eapply repr_in_node;
    [apply Hfresh; lia|by rewrite (lookup_new _ _ 0)| |by apply repr_in_app].
  eapply repr_in_node;
    [apply Hfresh; lia|by rewrite (lookup_new _ _ 1)|by apply repr_in_app..].
Qed.

(** A cell allocated first and filled in after further allocations: the
    store is [hp ++ c :: rest] and the cell is [c]. *)
Lemma lookup_head_new hp (c : Heap.cell A) rest :
  (hp ++ c :: rest) !! length hp = Some c.
Proof. apply list_lookup_middle. done. Qed.

Lemma insert_head_new hp (c c' : Heap.cell A) rest :
  <[length hp:=c']> (hp ++ c :: rest) = hp ++ c' :: rest.
Proof.
  replace (length hp) with (length hp + 0)%nat by lia.
  by rewrite insert_new.
Qed.

Lemma repr_in_head D hp c c' rest p t :
  (forall l, D l -> l <> length hp) ->
  Heap.repr_in D (hp ++ c :: rest) p t ->
  Heap.repr_in D (hp ++ c' :: rest) p t.
Proof.
  intros Hne Hr. rewrite <- (insert_head_new hp c c' rest).
  by apply repr_in_insert.
Qed.

Lemma repr_in_base D hp ext p t :
  Heap.repr_in D hp p t ->
  Heap.repr_in (fun l => D l /\ l <> length hp) (hp ++ ext) p t.
Proof.
  intros Hr. apply repr_in_app. apply repr_in_allocated in Hr.
  eapply repr_in_mono; [|exact Hr]. intros l [? ?]. split; [done|lia].
Qed.

Lemma fresh_avoiding D hp (c : Heap.cell A) :
  (forall l, (length hp <= l)%nat -> D l) ->
  forall l, (length (hp ++ [c]) <= l)%nat -> D l /\ l <> length hp.
Proof.
  intros Hfresh l. rewrite length_app. simpl. intros Hl.
  split; [apply Hfresh|]; lia.
Qed.

Lemma left_balance_repr D hp l v pl pr ht tl :
  hp !! l = Some (Heap.Cell v pl pr ht) -> Heap.repr_in D hp pl tl ->
  Heap.left_balance (Some l) hp = Heap.Ok (Node.balance tl) hp.
Proof.
  intros Hl Hrl. unfold Heap.left_balance.
  rewrite (bind_ok _ _ _ _ _ (load_at _ _ _ Hl)). by eapply balance_repr.
Qed.

Lemma right_balance_repr D hp l v pl pr ht tr :
  hp !! l = Some (Heap.Cell v pl pr ht) -> Heap.repr_in D hp pr tr ->
  Heap.right_balance (Some l) hp = Heap.Ok (Node.balance tr) hp.
Proof.
  intros Hl Hrr. unfold Heap.right_balance.
  rewrite (bind_ok _ _ _ _ _ (load_at _ _ _ Hl)). by eapply balance_repr.
Qed.

(** A guard [b && e] of [rebalance], with [e] a test on the balance [z]
    of a child. *)
Lemma guard_ok (P : Prop) (Q : Z -> Prop) `{!Decision P}
    `{!forall z, Decision (Q z)} (m : Heap.M A Z) hp z :
  m hp = Heap.Ok z hp ->
  Heap.and_then (bool_decide P)
    (Heap.bind m (fun lb => Heap.ret (bool_decide (Q lb)))) hp =
  Heap.Ok (bool_decide (P /\ Q z)) hp.
Proof.
  intros Hm. unfold Heap.and_then. case_bool_decide as HP.
  - rewrite (bind_ok _ _ _ _ _ Hm). unfold Heap.ret. f_equal.
    apply bool_decide_ext. tauto.
  - unfold Heap.ret. f_equal. symmetry. apply bool_decide_eq_false. tauto.
Qed.

Lemma rebalance_refines D hp n t t' :
  Heap.repr_in D hp n t -> (forall l, (length hp <= l)%nat -> D l) ->
  Node.rebalance t = Some t' ->
  exists ext p',
    Heap.rebalance n hp = Heap.Ok p' (hp ++ ext) /\
    Heap.repr_in D (hp ++ ext) p' t'.
Proof.
  intros Hrep Hfresh Hreb. destruct t as [|v tl tr ht].
  - (* nil: the balance is 0 and no guard fires *)
    simpl in Hrep. subst n. injection Hreb as <-.
    exists [], None. split; [|done]. rewrite app_nil_r.
    unfold Heap.rebalance.
    hstep ltac:(by eapply (balance_repr D _ _ Nil)).
    do 4 hstep ltac:(reflexivity).
    reflexivity.
  - pose proof Hrep as (l & pl & pr & -> & Hd & Hl & Hrl & Hrr).
    unfold Node.rebalance in Hreb. cbn [Node.balance] in Hreb.
    pose proof (balance_repr _ _ _ _ Hrep) as Hb. cbn [Node.balance] in Hb.
    pose proof (left_balance_repr _ _ _ _ _ _ _ _ Hl Hrl) as Hlb.
    pose proof (right_balance_repr _ _ _ _ _ _ _ _ Hl Hrr) as Hrb.
    set (b := Node.height tr - Node.height tl) in *.
    destruct (decide (b < -1 /\ Node.balance tl <= 0)) as [H1|H1].
    { (* single right rotation *)
      destruct (rotateRight_refines D hp _ _ _ Hrep Hfresh Hreb)
        as (ext & p' & Hrun & Hrep').
      exists ext, p'. split; [|done]. unfold Heap.rebalance.
      hstep ltac:(exact Hb).
      hstep ltac:(by apply guard_ok).
      by rewrite bool_decide_eq_true_2. }
    destruct (decide (b > 1 /\ Node.balance tr >= 0)) as [H2|H2].
    { (* single left rotation *)
      destruct (rotateLeft_refines D hp _ _ _ Hrep Hfresh Hreb)
        as (ext & p' & Hrun & Hrep').
      exists ext, p'. split; [|done]. unfold Heap.rebalance.
      hstep ltac:(exact Hb).
      hstep ltac:(by apply guard_ok). rewrite bool_decide_eq_false_2 by done.
      hstep ltac:(by apply guard_ok).
      by rewrite bool_decide_eq_true_2. }
    destruct (decide (b < -1 /\ Node.balance tl > 0)) as [H3|H3].
    { (* left-right: clone, rotate the left child left, rotate right *)
      destruct (Node.rotateLeft tl) as [tl'|] eqn:Hrot; [|done].
      simpl in Hreb.
      set (cn := Heap.Cell v pl pr ht).
      destruct (rotateLeft_refines (fun l' => D l' /\ l' <> length hp)
                  (hp ++ [cn]) pl tl tl')
        as (ext1 & pl' & Hrun1 & Hrep1);
        [by apply repr_in_base|by apply fresh_avoiding|done|].
      rewrite <- app_assoc in Hrun1, Hrep1. simpl in Hrun1, Hrep1.
      set (cn' := Heap.Cell v pl' pr ht).
      destruct (rotateRight_refines D (hp ++ cn' :: ext1) (Some (length hp))
                  (Node v tl' tr ht) t')
        as (ext2 & p' & Hrun2 & Hrep2); [| |done|].
      { eapply repr_in_node; [apply Hfresh; lia|apply lookup_head_new| |].
        - eapply repr_in_mono; [|eapply repr_in_head; [|exact Hrep1]];
            simpl; tauto.
        - eapply repr_in_mono; [|by apply repr_in_base]. simpl. tauto. }
      { intros l' Hl'. apply Hfresh. rewrite length_app in Hl'. lia. }
      rewrite <- app_assoc in Hrun2, Hrep2. simpl in Hrun2, Hrep2.
      eexists _, p'. split; [|exact Hrep2]. unfold Heap.rebalance.
      hstep ltac:(exact Hb).
      hstep ltac:(by apply guard_ok). rewrite bool_decide_eq_false_2 by done.
      hstep ltac:(by apply guard_ok). rewrite bool_decide_eq_false_2 by done.
      hstep ltac:(by apply guard_ok). rewrite bool_decide_eq_true_2 by done.
      hstep ltac:(by eapply clone_at).
      hstep ltac:(eapply load_at, lookup_head_new).
      hstep ltac:(exact Hrun1).
      hstep ltac:(eapply set_left_at, lookup_head_new).
      rewrite insert_head_new. exact Hrun2. }
    destruct (decide (b > 1 /\ Node.balance tr < 0)) as [H4|H4].
    { (* right-left: clone, rotate the right child right, rotate left *)
      destruct (Node.rotateRight tr) as [tr'|] eqn:Hrot; [|done].
      simpl in Hreb.
      set (cn := Heap.Cell v pl pr ht).
      destruct (rotateRight_refines (fun l' => D l' /\ l' <> length hp)
                  (hp ++ [cn]) pr tr tr')
        as (ext1 & pr' & Hrun1 & Hrep1);
        [by apply repr_in_base|by apply fresh_avoiding|done|].
      rewrite <- app_assoc in Hrun1, Hrep1. simpl in Hrun1, Hrep1.
      set (cn' := Heap.Cell v pl pr' ht).
      destruct (rotateLeft_refines D (hp ++ cn' :: ext1) (Some (length hp))
                  (Node v tl tr' ht) t')
        as (ext2 & p' & Hrun2 & Hrep2); [| |done|].
      { eapply repr_in_node; [apply Hfresh; lia|apply lookup_head_new| |].
        - eapply repr_in_mono; [|by apply repr_in_base]. simpl. tauto.
        - eapply repr_in_mono; [|eapply repr_in_head; [|exact Hrep1]];
            simpl; tauto. }
      { intros l' Hl'. apply Hfresh. rewrite length_app in Hl'. lia. }
      rewrite <- app_assoc in Hrun2, Hrep2. simpl in Hrun2, Hrep2.
      eexists _, p'. split; [|exact Hrep2]. unfold Heap.rebalance.
      hstep ltac:(exact Hb).
      hstep ltac:(by apply guard_ok). rewrite bool_decide_eq_false_2 by done.
      hstep ltac:(by apply guard_ok). rewrite bool_decide_eq_false_2 by done.
      hstep ltac:(by apply guard_ok). rewrite bool_decide_eq_false_2 by done.
      hstep ltac:(by apply guard_ok). rewrite bool_decide_eq_true_2 by done.
      hstep ltac:(by eapply clone_at).
      hstep ltac:(eapply load_at, lookup_head_new).
      hstep ltac:(exact Hrun1).
      hstep ltac:(eapply set_right_at, lookup_head_new).
      rewrite insert_head_new. exact Hrun2. }
    destruct (decide (b > 1 \/ b < -1)) as [H5|H5]; [done|].
    injection Hreb as <-.
    exists [], (Some l). rewrite app_nil_r. split; [|done].
    unfold Heap.rebalance.
    hstep ltac:(exact Hb).
    hstep ltac:(by apply guard_ok). rewrite bool_decide_eq_false_2 by done.
    hstep ltac:(by apply guard_ok). rewrite bool_decide_eq_false_2 by done.
    hstep ltac:(by apply guard_ok). rewrite bool_decide_eq_false_2 by done.
    hstep ltac:(by apply guard_ok). rewrite bool_decide_eq_false_2 by done.
    by rewrite bool_decide_eq_false_2.
Qed.

End HeapRotations.

#[global] Arguments Heap.Insert : simpl never.
#[global] Arguments Heap.Update : simpl never.
#[global] Arguments Heap.Delete : simpl never.
#[global] Arguments Heap.Max : simpl never.
#[global] Arguments Heap.Min : simpl never.
#[global] Arguments Heap.destroy_with : simpl never.

Section HeapModify.
Context {A : Type} `{Item A}.
Implicit Types (hp ext : list (Heap.cell A)) (p q : Heap.ptr) (t : node A).
Implicit Types (D : nat -> Prop).
Local Open Scope heap_scope.

(** The tail [root.adjustHeight(); return root.rebalance(), e] of the
    modifying operations, for a root cell allocated by the current call
    whose subtrees do not contain it. *)
Lemma fixup_refines {R} D hp v pl pr h0 rest tl tr t' (e : R) :
  (forall l, (length hp <= l)%nat -> D l) ->
  Heap.repr_in (fun l => D l /\ l <> length hp)
    (hp ++ Heap.Cell v pl pr h0 :: rest) pl tl ->
  Heap.repr_in (fun l => D l /\ l <> length hp)
    (hp ++ Heap.Cell v pl pr h0 :: rest) pr tr ->
  Node.rebalance
    (Node v tl tr (Node.max (Node.height tl) (Node.height tr) + 1)) =
    Some t' ->
  exists ext p',
    Heap.bind (Heap.adjustHeight (Some (length hp)))
      (fun _ => Heap.bind (Heap.rebalance (Some (length hp)))
                  (fun r => Heap.ret (r, e)))
      (hp ++ Heap.Cell v pl pr h0 :: rest) =
    Heap.Ok (p', e) (hp ++ ext) /\
    Heap.repr_in D (hp ++ ext) p' t'.
Proof.
  intros Hfresh Hrl Hrr Hreb.
  set (c' := Heap.Cell v pl pr
               (Node.max (Node.height tl) (Node.height tr) + 1)).
  destruct (rebalance_refines D (hp ++ c' :: rest) (Some (length hp))
              (Node v tl tr (Node.max (Node.height tl) (Node.height tr) + 1))
              t')
    as (ext & p' & Hrun & Hrep); [| |done|].
  { eapply repr_in_node; [apply Hfresh; lia|apply lookup_head_new| |].
    - eapply repr_in_mono; [|eapply repr_in_head; [|exact Hrl]]; simpl; tauto.
    - eapply repr_in_mono; [|eapply repr_in_head; [|exact Hrr]]; simpl; tauto. }
  { intros l Hl. apply Hfresh. rewrite length_app in Hl. lia. }
  rewrite <- app_assoc in Hrun, Hrep. simpl in Hrun, Hrep.
  eexists _, p'. split; [|exact Hrep].
  hstep ltac:(eapply adjustHeight_at;
              [apply lookup_head_new|by eapply height_repr..]).
  rewrite insert_head_new.
  hstep ltac:(exact Hrun). done.
Qed.

Lemma Insert_unfold fuel n x :
  Heap.Insert (S fuel) n x =
  match n with
  | None =>
    Heap.bind (Heap.alloc (Heap.Cell x None None 1))
      (fun r => Heap.ret (r, None))
  | Some _ =>
    Heap.bind (Heap.load n) (fun cn =>
    let cmp := Compare x (Heap.value cn) in
    Heap.bind
      (if decide (cmp < 0) then
         Heap.bind (Heap.Insert fuel (Heap.left cn) x) (fun '(m, existing) =>
         match existing with
         | None =>
           Heap.bind (Heap.clone n) (fun root =>
           Heap.bind (Heap.set_left root m) (fun _ =>
           Heap.ret (root, existing)))
         | Some _ => Heap.ret (None, existing)
         end)
       else if decide (cmp > 0) then
         Heap.bind (Heap.Insert fuel (Heap.right cn) x) (fun '(m, existing) =>
         match existing with
         | None =>
           Heap.bind (Heap.clone n) (fun root =>
           Heap.bind (Heap.set_right root m) (fun _ =>
           Heap.ret (root, existing)))
         | Some _ => Heap.ret (None, existing)
         end)
       else Heap.ret (None, Some (Heap.value cn)))
      (fun '(root, existing) =>
       match root with
       | None => Heap.ret (n, existing)
       | Some _ =>
         Heap.bind (Heap.adjustHeight root) (fun _ =>
         Heap.bind (Heap.rebalance root) (fun r => Heap.ret (r, None)))
       end))
  end.
Proof. reflexivity. Qed.

Lemma Insert_refines D hp n t x fuel t' e :
  Heap.repr_in D hp n t -> (forall l, (length hp <= l)%nat -> D l) ->
  Node.Insert t x = Some (t', e) -> (depth t < fuel)%nat ->
  exists ext p',
    Heap.Insert fuel n x hp = Heap.Ok (p', e) (hp ++ ext) /\
    Heap.repr_in D (hp ++ ext) p' t'.
Proof.
  revert D hp n fuel t' e.
  induction t as [|v tl IHl tr IHr ht];
    intros D hp n fuel t' e Hrep Hfresh Hins Hfuel;
    (destruct fuel as [|fuel]; [simpl in Hfuel; lia|]);
    rewrite Insert_unfold.
  - simpl in Hrep. subst n. simpl in Hins. simplify_eq.
    eexists _, _. split; [reflexivity|].
    eapply repr_in_node; [apply Hfresh; lia|apply lookup_head_new|done..].
  - pose proof Hrep as (l & pl & pr & -> & Hd & Hl & Hrl & Hrr).
    simpl in Hfuel. cbn [Node.Insert] in Hins.
    hstep ltac:(by eapply load_at).
    destruct (decide (Compare x v < 0)) as [Hlt|Hlt];
      [|destruct (decide (Compare x v > 0)) as [Hgt|Hgt]].
    + destruct (Node.Insert tl x) as [[m e0]|] eqn:E; [|done].
      destruct (IHl D hp pl fuel m e0 Hrl Hfresh eq_refl ltac:(lia))
        as (ext1 & pm & Hrun1 & Hrep1).
      hstep ltac:(exact Hrun1).
      destruct e0 as [a|]; simpl in Hins.
      * simplify_eq. exists ext1, (Some l). split; [done|].
        by apply repr_in_app.
      * destruct (Node.rebalance _) as [t''|] eqn:Hreb; simpl in Hins;
          [|done]. simplify_eq.
        destruct (fixup_refines D (hp ++ ext1) v pm pr ht [] m tr t'
                    (@None A))
          as (ext2 & p' & Hrun2 & Hrep2).
        { intros l' Hl'. apply Hfresh. rewrite length_app in Hl'. lia. }
        { by apply repr_in_base. }
        { by apply repr_in_base, repr_in_app. }
        { done. }
        exists (ext1 ++ ext2), p'. rewrite app_assoc. split; [|done].
        hstep ltac:(by eapply clone_at, lookup_app_l_Some).
        hstep ltac:(eapply set_left_at, lookup_head_new).
        rewrite insert_head_new. exact Hrun2.
    + destruct (Node.Insert tr x) as [[m e0]|] eqn:E; [|done].
      destruct (IHr D hp pr fuel m e0 Hrr Hfresh eq_refl ltac:(lia))
        as (ext1 & pm & Hrun1 & Hrep1).
      hstep ltac:(exact Hrun1).
      destruct e0 as [a|]; simpl in Hins.
      * simplify_eq. exists ext1, (Some l). split; [done|].
        by apply repr_in_app.
      * destruct (Node.rebalance _) as [t''|] eqn:Hreb; simpl in Hins;
          [|done]. simplify_eq.
        destruct (fixup_refines D (hp ++ ext1) v pl pm ht [] tl m t'
                    (@None A))
          as (ext2 & p' & Hrun2 & Hrep2).
        { intros l' Hl'. apply Hfresh. rewrite length_app in Hl'. lia. }
        { by apply repr_in_base, repr_in_app. }
        { by apply repr_in_base. }
        { done. }
        exists (ext1 ++ ext2), p'. rewrite app_assoc. split; [|done].
        hstep ltac:(by eapply clone_at, lookup_app_l_Some).
        hstep ltac:(eapply set_right_at, lookup_head_new).
        rewrite insert_head_new. exact Hrun2.
    + simpl in Hins. simplify_eq. exists [], (Some l).
      rewrite app_nil_r. split; [done|done].
Qed.

Lemma Update_unfold fuel n x :
  Heap.Update (S fuel) n x =
  match n with
  | None =>
    Heap.bind (Heap.alloc (Heap.Cell x None None 1))
      (fun r => Heap.ret (r, None))
  | Some _ =>
    Heap.bind (Heap.clone n) (fun root =>
    Heap.bind (Heap.load n) (fun cn =>
    let cmp := Compare x (Heap.value cn) in
    Heap.bind
      (if decide (cmp < 0) then
         Heap.bind (Heap.Update fuel (Heap.left cn) x) (fun '(m, prev) =>
         Heap.bind (Heap.set_left root m) (fun _ => Heap.ret prev))
       else if decide (cmp > 0) then
         Heap.bind (Heap.Insert fuel (Heap.right cn) x) (fun '(m, prev) =>
         Heap.bind (Heap.set_right root m) (fun _ => Heap.ret prev))
       else
         Heap.bind (Heap.load root) (fun croot =>
         Heap.bind (Heap.set_value root x) (fun _ =>
         Heap.ret (Some (Heap.value croot)))))
      (fun prev =>
       Heap.bind (Heap.adjustHeight root) (fun _ =>
       Heap.bind (Heap.rebalance root) (fun r => Heap.ret (r, None))))))
  end.
Proof. reflexivity. Qed.

Lemma Update_refines D hp n t x fuel t' e :
  Heap.repr_in D hp n t -> (forall l, (length hp <= l)%nat -> D l) ->
  Node.Update t x = Some (t', e) -> (depth t < fuel)%nat ->
  exists ext p',
    Heap.Update fuel n x hp = Heap.Ok (p', e) (hp ++ ext) /\
    Heap.repr_in D (hp ++ ext) p' t'.
Proof.
  revert D hp n fuel t' e.
  induction t as [|v tl IHl tr IHr ht];
    intros D hp n fuel t' e Hrep Hfresh Hupd Hfuel;
    (destruct fuel as [|fuel]; [simpl in Hfuel; lia|]);
    rewrite Update_unfold.
  - simpl in Hrep. subst n. simpl in Hupd. simplify_eq.
    eexists _, _. split; [reflexivity|].
    eapply repr_in_node; [apply Hfresh; lia|apply lookup_head_new|done..].
  - pose proof Hrep as (l & pl & pr & -> & Hd & Hl & Hrl & Hrr).
    simpl in Hfuel. cbn [Node.Update] in Hupd.
    set (cn := Heap.Cell v pl pr ht).
    hstep ltac:(by eapply clone_at).
    hstep ltac:(by eapply load_at, lookup_app_l_Some).
    destruct (decide (Compare x v < 0)) as [Hlt|Hlt];
      [|destruct (decide (Compare x v > 0)) as [Hgt|Hgt]].
    + destruct (Node.Update tl x) as [[m e0]|] eqn:E; [|done].
      simpl in Hupd.
      destruct (Node.rebalance _) as [t''|] eqn:Hreb; simpl in Hupd; [|done].
      simplify_eq.
      destruct (IHl (fun l' => D l' /\ l' <> length hp) (hp ++ [cn]) pl fuel
                  m e0)
        as (ext1 & pm & Hrun1 & Hrep1);
        [by apply repr_in_base|by apply fresh_avoiding|done|lia|].
      rewrite <- app_assoc in Hrun1, Hrep1. simpl in Hrun1, Hrep1.
      destruct (fixup_refines D hp v pm pr ht ext1 m tr t' (@None A))
        as (ext2 & p' & Hrun2 & Hrep2); [done| | |done|].
      { eapply repr_in_head; [|exact Hrep1]. simpl. tauto. }
      { by apply repr_in_base. }
      exists ext2, p'. split; [|done].
      hstep ltac:(exact Hrun1).
      hstep ltac:(eapply set_left_at, lookup_head_new).
      rewrite insert_head_new.
      hstep ltac:(reflexivity). exact Hrun2.
    + destruct (Node.Insert tr x) as [[m e0]|] eqn:E; [|done].
      simpl in Hupd.
      destruct (Node.rebalance _) as [t''|] eqn:Hreb; simpl in Hupd; [|done].
      simplify_eq.
      destruct (Insert_refines (fun l' => D l' /\ l' <> length hp)
                  (hp ++ [cn]) pr tr x fuel m e0)
        as (ext1 & pm & Hrun1 & Hrep1);
        [by apply repr_in_base|by apply fresh_avoiding|done|lia|].
      rewrite <- app_assoc in Hrun1, Hrep1. simpl in Hrun1, Hrep1.
      destruct (fixup_refines D hp v pl pm ht ext1 tl m t' (@None A))
        as (ext2 & p' & Hrun2 & Hrep2); [done| | |done|].
      { by apply repr_in_base. }
      { eapply repr_in_head; [|exact Hrep1]. simpl. tauto. }
      exists ext2, p'. split; [|done].
      hstep ltac:(exact Hrun1).
      hstep ltac:(eapply set_right_at, lookup_head_new).
      rewrite insert_head_new.
      hstep ltac:(reflexivity). exact Hrun2.
    + simpl in Hupd.
      destruct (Node.rebalance _) as [t''|] eqn:Hreb; simpl in Hupd; [|done].
      simplify_eq.
      destruct (fixup_refines D hp x pl pr ht [] tl tr t' (@None A))
        as (ext2 & p' & Hrun2 & Hrep2); [done| | |done|].
      { by apply repr_in_base. }
      { by apply repr_in_base. }
      exists ext2, p'. split; [|done].
      hstep ltac:(eapply load_at, lookup_head_new).
      hstep ltac:(eapply set_value_at, lookup_head_new).
      rewrite insert_head_new.
      hstep ltac:(reflexivity). exact Hrun2.
Qed.

Lemma Max_unfold fuel n :
  @Heap.Max A (S fuel) n =
  match n with
  | None => Heap.ret None
  | Some _ =>
    Heap.bind (Heap.load n) (fun c : Heap.cell A =>
    match Heap.right c with
    | Some _ => Heap.Max fuel (Heap.right c)
    | None => Heap.ret (Some (Heap.value c))
    end)
  end.
Proof. reflexivity. Qed.

Lemma Max_refines D hp n t fuel :
  Heap.repr_in D hp n t -> (depth t < fuel)%nat ->
  Heap.Max fuel n hp = Heap.Ok (Node.Max t) hp.
Proof.
  revert n fuel. induction t as [|v tl IHl tr IHr ht]; intros n fuel Hrep Hfuel;
    (destruct fuel as [|fuel]; [simpl in Hfuel; lia|]); rewrite Max_unfold.
  - simpl in Hrep. by subst n.
  - destruct Hrep as (l & pl & pr & -> & Hd & Hl & Hrl & Hrr).
    simpl in Hfuel. hstep ltac:(by eapply load_at).
    destruct tr as [|rv rl rr rh].
    + simpl in Hrr. by subst pr.
    + pose proof Hrr as (r0 & ? & ? & -> & _). apply IHr; [done|lia].
Qed.

Lemma Delete_unfold fuel n x :
  Heap.Delete (S fuel) n x =
  match n with
  | None => Heap.ret (None, None)
  | Some _ =>
    Heap.bind (Heap.load n) (fun cn =>
    let cmp := Compare x (Heap.value cn) in
    Heap.bind
      (if decide (cmp < 0) then
         Heap.bind (Heap.Delete fuel (Heap.left cn) x) (fun '(m, existed) =>
         match existed with
         | Some _ =>
           Heap.bind (Heap.clone n) (fun root =>
           Heap.bind (Heap.set_left root m) (fun _ =>
           Heap.ret (root, existed)))
         | None => Heap.ret (None, existed)
         end)
       else if decide (cmp > 0) then
         Heap.bind (Heap.Delete fuel (Heap.right cn) x) (fun '(m, existed) =>
         match existed with
         | Some _ =>
           Heap.bind (Heap.clone n) (fun root =>
           Heap.bind (Heap.set_right root m) (fun _ =>
           Heap.ret (root, existed)))
         | None => Heap.ret (None, existed)
         end)
       else
         Heap.bind (Heap.destroy_with (Heap.Delete fuel) fuel n) (fun root =>
         Heap.ret (root, Some (Heap.value cn))))
      (fun '(root, existed) =>
       match existed with
       | None => Heap.ret (n, None)
       | Some _ =>
         match root with
         | None => Heap.ret (None, existed)
         | Some _ =>
           Heap.bind (Heap.adjustHeight root) (fun _ =>
           Heap.bind (Heap.rebalance root) (fun r => Heap.ret (r, existed)))
         end
       end))
  end.
Proof. reflexivity. Qed.

(** The tail of [Delete] when [destroy] has returned the only child of
    the removed node: its height is recomputed in place, to the value it
    already has. *)
Lemma keep_child_refines D hp p v tl tr ht t' (e : option A) :
  Heap.repr_in D hp p (Node v tl tr ht) ->
  (forall l, (length hp <= l)%nat -> D l) ->
  avl (Node v tl tr ht) ->
  Node.rebalance
    (Node v tl tr (Node.max (Node.height tl) (Node.height tr) + 1)) =
    Some t' ->
  exists ext p',
    Heap.bind (Heap.adjustHeight p)
      (fun _ => Heap.bind (Heap.rebalance p) (fun r => Heap.ret (r, e))) hp =
    Heap.Ok (p', e) (hp ++ ext) /\
    Heap.repr_in D (hp ++ ext) p' t'.
Proof.
  intros Hrep Hfresh (_ & _ & Hh & _) Hreb.
  assert (ht = Node.max (Node.height tl) (Node.height tr) + 1) as Hht
    by (rewrite max_Zmax; lia).
  rewrite <- Hht in Hreb.
  destruct (rebalance_refines D hp p _ t' Hrep Hfresh Hreb)
    as (ext & p' & Hrun & Hrep').
  destruct Hrep as (l & pl & pr & -> & Hd & Hl & Hrl & Hrr).
  exists ext, p'. split; [|done].
  hstep ltac:(eapply adjustHeight_same; [by rewrite <- Hht|done..]).
  hstep ltac:(exact Hrun). done.
Qed.

Lemma Delete_refines D hp n t x fuel t' e :
  Heap.repr_in D hp n t -> (forall l, (length hp <= l)%nat -> D l) ->
  avl t ->
  Node.Delete t x = Some (t', e) -> (depth t < fuel)%nat ->
  exists ext p',
    Heap.Delete fuel n x hp = Heap.Ok (p', e) (hp ++ ext) /\
    Heap.repr_in D (hp ++ ext) p' t'.
Proof.
  revert D hp n x fuel t' e.
  induction t as [|v tl IHl tr IHr ht];
    intros D hp n x fuel t' e Hrep Hfresh Havl Hdel Hfuel;
    (destruct fuel as [|fuel]; [simpl in Hfuel; lia|]);
    rewrite Delete_unfold.
  - simpl in Hrep. subst n. simpl in Hdel. simplify_eq.
    exists [], None. rewrite app_nil_r. by split.
  - pose proof Hrep as (l & pl & pr & -> & Hd & Hl & Hrl & Hrr).
    pose proof Havl as (Hal & Har & _).
    simpl in Hfuel. cbn [Node.Delete] in Hdel.
    hstep ltac:(by eapply load_at).
    destruct (decide (Compare x v < 0)) as [Hlt|Hlt];
      [|destruct (decide (Compare x v > 0)) as [Hgt|Hgt]].
    + destruct (Node.Delete tl x) as [[m e0]|] eqn:E; [|done].
      destruct (IHl D hp pl x fuel m e0 Hrl Hfresh Hal E ltac:(lia))
        as (ext1 & pm & Hrun1 & Hrep1).
      hstep ltac:(exact Hrun1).
      destruct e0 as [a|]; simpl in Hdel.
      * destruct (Node.rebalance _) as [t''|] eqn:Hreb; simpl in Hdel;
          [|done]. simplify_eq.
        destruct (fixup_refines D (hp ++ ext1) v pm pr ht [] m tr t'
                    (Some a))
          as (ext2 & p' & Hrun2 & Hrep2).
        { intros l' Hl'. apply Hfresh. rewrite length_app in Hl'. lia. }
        { by apply repr_in_base. }
        { by apply repr_in_base, repr_in_app. }
        { done. }
        exists (ext1 ++ ext2), p'. rewrite app_assoc. split; [|done].
        hstep ltac:(by eapply clone_at, lookup_app_l_Some).
        hstep ltac:(eapply set_left_at, lookup_head_new).
        rewrite insert_head_new. exact Hrun2.
      * simplify_eq. exists ext1, (Some l). split; [done|].
        by apply repr_in_app.
    + destruct (Node.Delete tr x) as [[m e0]|] eqn:E; [|done].
      destruct (IHr D hp pr x fuel m e0 Hrr Hfresh Har E ltac:(lia))
        as (ext1 & pm & Hrun1 & Hrep1).
      hstep ltac:(exact Hrun1).
      destruct e0 as [a|]; simpl in Hdel.
      * destruct (Node.rebalance _) as [t''|] eqn:Hreb; simpl in Hdel;
          [|done]. simplify_eq.
        destruct (fixup_refines D (hp ++ ext1) v pl pm ht [] tl m t'
                    (Some a))
          as (ext2 & p' & Hrun2 & Hrep2).
        { intros l' Hl'. apply Hfresh. rewrite length_app in Hl'. lia. }
        { by apply repr_in_base, repr_in_app. }
        { by apply repr_in_base. }
        { done. }
        exists (ext1 ++ ext2), p'. rewrite app_assoc. split; [|done].
        hstep ltac:(by eapply clone_at, lookup_app_l_Some).
        hstep ltac:(eapply set_right_at, lookup_head_new).
        rewrite insert_head_new. exact Hrun2.
      * simplify_eq. exists ext1, (Some l). split; [done|].
        by apply repr_in_app.
    + unfold Heap.destroy_with. unfold Node.destroy_with in Hdel.
      hstep ltac:(by eapply load_at).
      destruct tl as [|lv ll lr lh], tr as [|rv rl rr rh].
      * (* leaf *)
        simpl in Hrl, Hrr. subst pl pr. simpl in Hdel. simplify_eq.
        exists [], None. rewrite app_nil_r. by split.
      * (* right child only *)
        simpl in Hrl. subst pl.
        pose proof Hrr as (r0 & ? & ? & -> & _).
        simpl in Hdel.
        destruct (Node.rebalance _) as [t''|] eqn:Hreb; simpl in Hdel;
          [|done]. simplify_eq.
        destruct (keep_child_refines D hp (Some r0) rv rl rr rh t' (Some v))
          as (ext2 & p' & Hrun2 & Hrep2); [done..|].
        exists ext2, p'. split; [|done].
        hstep ltac:(reflexivity). exact Hrun2.
      * (* left child only *)
        simpl in Hrr. subst pr.
        pose proof Hrl as (l0 & ? & ? & -> & _).
        simpl in Hdel.
        destruct (Node.rebalance _) as [t''|] eqn:Hreb; simpl in Hdel;
          [|done]. simplify_eq.
        destruct (keep_child_refines D hp (Some l0) lv ll lr lh t' (Some v))
          as (ext2 & p' & Hrun2 & Hrep2); [done..|].
        exists ext2, p'. split; [|done].
        hstep ltac:(reflexivity). exact Hrun2.
      * (* two children: the maximum of the left subtree moves up *)
        pose proof Hrl as (l0 & ? & ? & -> & _).
        pose proof Hrr as (r0 & ? & ? & -> & _).
        destruct (Node.Max (Node lv ll lr lh)) as [mx|] eqn:Hmax; [|done].
        destruct (Node.Delete (Node lv ll lr lh) mx) as [[tl' e0]|] eqn:E;
          [|done].
        simpl in Hdel.
        destruct (Node.rebalance _) as [t''|] eqn:Hreb; simpl in Hdel;
          [|done]. simplify_eq.
        set (c0 := Heap.Cell mx None None 0).
        destruct (IHl (fun l' => D l' /\ l' <> length hp) (hp ++ [c0])
                    (Some l0) mx fuel tl' e0)
          as (ext1 & pl' & Hrun1 & Hrep1);
          [by apply repr_in_base|by apply fresh_avoiding|done|done|lia|].
        rewrite <- app_assoc in Hrun1, Hrep1. simpl in Hrun1, Hrep1.
        destruct (fixup_refines D hp mx pl' (Some r0) 0 ext1 tl'
                    (Node rv rl rr rh) t' (Some v))
          as (ext2 & p' & Hrun2 & Hrep2); [done| | |done|].
        { eapply repr_in_head; [|exact Hrep1]. simpl. tauto. }
        { by apply repr_in_base. }
        exists ext2, p'. split; [|done].
        hstep ltac:(eapply Max_refines; [exact Hrl|lia]).
        simpl in Hmax. rewrite Hmax.
        hstep ltac:(reflexivity).
        hstep ltac:(exact Hrun1).
        hstep ltac:(eapply set_left_at, lookup_head_new).
        rewrite insert_head_new.
        hstep ltac:(eapply set_right_at, lookup_head_new).
        rewrite insert_head_new.
        hstep ltac:(reflexivity). exact Hrun2.
Qed.

End HeapModify.

(** ** Read-only operations *)

#[global] Arguments Heap.Search : simpl never.
#[global] Arguments Heap.Predcessor : simpl never.
#[global] Arguments Heap.Successor : simpl never.
#[global] Arguments Heap.InOrder : simpl never.
#[global] Arguments Heap.PreOrder : simpl never.
#[global] Arguments Heap.PostOrder : simpl never.

Section HeapReads.
Context {A : Type} `{Item A}.
Implicit Types (hp ext : list (Heap.cell A)) (p q : Heap.ptr) (t : node A).

Lemma read_only_ret {R} (r : R) : Heap.read_only (A:=A) (Heap.ret r).
Proof. intros hp r' hp1 ext [= <- <-]. done. Qed.

Lemma read_only_load p : Heap.read_only (A:=A) (Heap.load p).
Proof.
  intros hp c hp1 ext. unfold Heap.load.
  destruct p as [l|]; [|done].
  destruct (hp !! l) as [c'|] eqn:E; [|done].
  intros [= <- <-]. by rewrite (lookup_app_l_Some _ _ _ _ E).
Qed.

Lemma read_only_bind {R R'} (m : Heap.M A R) (k : R -> Heap.M A R') :
  Heap.read_only m -> (forall r, Heap.read_only (k r)) ->
  Heap.read_only (Heap.bind m k).
Proof.
  intros Hm Hk hp r hp1 ext. unfold Heap.bind.
  destruct (m hp) as [r0 hp0| |] eqn:E; [|done..].
  destruct (Hm _ _ _ ext E) as [-> ->]. apply Hk.
Qed.

Lemma read_only_out_of_fuel {R} : Heap.read_only (A:=A) (R:=R) Heap.out_of_fuel.
Proof. by intros hp r hp1 ext. Qed.

Lemma Search_unfold fuel n x :
  Heap.Search (S fuel) n x =
  match n with
  | None => Heap.ret None
  | Some _ =>
    Heap.bind (Heap.load n) (fun c =>
    if decide (Compare x (Heap.value c) < 0)
    then Heap.Search fuel (Heap.left c) x
    else if decide (Compare x (Heap.value c) > 0)
         then Heap.Search fuel (Heap.right c) x
         else Heap.ret (Some (Heap.value c)))
  end.
Proof. reflexivity. Qed.

Lemma Min_unfold fuel n :
  @Heap.Min A (S fuel) n =
  match n with
  | None => Heap.ret None
  | Some _ =>
    Heap.bind (Heap.load n) (fun c : Heap.cell A =>
    match Heap.left c with
    | Some _ => Heap.Min fuel (Heap.left c)
    | None => Heap.ret (Some (Heap.value c))
    end)
  end.
Proof. reflexivity. Qed.

Lemma Predcessor_unfold fuel n x :
  Heap.Predcessor (S fuel) n x =
  match n with
  | None => Heap.ret None
  | Some _ =>
    Heap.bind (Heap.load n) (fun c =>
    if decide (Compare x (Heap.value c) < 0)
    then Heap.Predcessor fuel (Heap.left c) x
    else if decide (Compare x (Heap.value c) > 0)
         then Heap.bind (Heap.Predcessor fuel (Heap.right c) x) (fun o =>
              match o with
              | None => Heap.ret (Some (Heap.value c))
              | Some _ => Heap.ret o
              end)
         else Heap.Max fuel (Heap.left c))
  end.
Proof. reflexivity. Qed.

Lemma Successor_unfold fuel n x :
  Heap.Successor (S fuel) n x =
  match n with
  | None => Heap.ret None
  | Some _ =>
    Heap.bind (Heap.load n) (fun c =>
    if decide (Compare x (Heap.value c) < 0)
    then Heap.bind (Heap.Successor fuel (Heap.left c) x) (fun o =>
         match o with
         | None => Heap.ret (Some (Heap.value c))
         | Some _ => Heap.ret o
         end)
    else if decide (Compare x (Heap.value c) > 0)
         then Heap.Successor fuel (Heap.right c) x
         else Heap.Min fuel (Heap.right c))
  end.
Proof. reflexivity. Qed.

Lemma read_only_Search fuel n x : Heap.read_only (Heap.Search fuel n x).
Proof.
  revert n. induction fuel as [|fuel IH]; intros n;
    [apply read_only_out_of_fuel|].
  rewrite Search_unfold.
  destruct n; [|apply read_only_ret].
  apply read_only_bind; [apply read_only_load|]. intros c.
  repeat case_decide; auto using read_only_ret.
Qed.

Lemma read_only_Max fuel n : Heap.read_only (A:=A) (Heap.Max fuel n).
Proof.
  revert n. induction fuel as [|fuel IH]; intros n;
    [apply read_only_out_of_fuel|].
  rewrite Max_unfold.
  destruct n; [|apply read_only_ret].
  apply read_only_bind; [apply read_only_load|]. intros c.
  destruct (Heap.right c); auto using read_only_ret.
Qed.

Lemma read_only_Min fuel n : Heap.read_only (A:=A) (Heap.Min fuel n).
Proof.
  revert n. induction fuel as [|fuel IH]; intros n;
    [apply read_only_out_of_fuel|].
  rewrite Min_unfold.
  destruct n; [|apply read_only_ret].
  apply read_only_bind; [apply read_only_load|]. intros c.
  destruct (Heap.left c); auto using read_only_ret.
Qed.

Lemma read_only_Predcessor fuel n x :
  Heap.read_only (Heap.Predcessor fuel n x).
Proof.
  revert n. induction fuel as [|fuel IH]; intros n;
    [apply read_only_out_of_fuel|].
  rewrite Predcessor_unfold.
  destruct n; [|apply read_only_ret].
  apply read_only_bind; [apply read_only_load|]. intros c.
  repeat case_decide; auto using read_only_Max.
  apply read_only_bind; [done|]. intros [?|]; apply read_only_ret.
Qed.

Lemma read_only_Successor fuel n x :
  Heap.read_only (Heap.Successor fuel n x).
Proof.
  revert n. induction fuel as [|fuel IH]; intros n;
    [apply read_only_out_of_fuel|].
  rewrite Successor_unfold.
  destruct n; [|apply read_only_ret].
  apply read_only_bind; [apply read_only_load|]. intros c.
  repeat case_decide; auto using read_only_Min.
  apply read_only_bind; [done|]. intros [?|]; apply read_only_ret.
Qed.

Section Visitors.
Context {St : Type}.
Implicit Types (fn : A -> St -> bool * St) (s : St).

Lemma InOrder_unfold fuel n fn s :
  @Heap.InOrder A St (S fuel) n fn s =
  match n with
  | None => Heap.ret s
  | Some _ =>
    Heap.bind (Heap.load n) (fun c : Heap.cell A =>
    Heap.bind (Heap.InOrder fuel (Heap.left c) fn s) (fun s =>
    Heap.bind (Heap.visit fn (Heap.value c) s) (fun s =>
    Heap.InOrder fuel (Heap.right c) fn s)))
  end.
Proof. reflexivity. Qed.

Lemma PreOrder_unfold fuel n fn s :
  @Heap.PreOrder A St (S fuel) n fn s =
  match n with
  | None => Heap.ret s
  | Some _ =>
    Heap.bind (Heap.load n) (fun c : Heap.cell A =>
    Heap.bind (Heap.visit fn (Heap.value c) s) (fun s =>
    Heap.bind (Heap.PreOrder fuel (Heap.left c) fn s) (fun s =>
    Heap.PreOrder fuel (Heap.right c) fn s)))
  end.
Proof. reflexivity. Qed.

Lemma PostOrder_unfold fuel n fn s :
  @Heap.PostOrder A St (S fuel) n fn s =
  match n with
  | None => Heap.ret s
  | Some _ =>
    Heap.bind (Heap.load n) (fun c : Heap.cell A =>
    Heap.bind (Heap.PostOrder fuel (Heap.left c) fn s) (fun s =>
    Heap.bind (Heap.PostOrder fuel (Heap.right c) fn s) (fun s =>
    Heap.visit fn (Heap.value c) s)))
  end.
Proof. reflexivity. Qed.

Lemma read_only_visit fn x s : Heap.read_only (A:=A) (Heap.visit fn x s).
Proof. apply read_only_ret. Qed.

Lemma read_only_InOrder fuel n fn s :
  Heap.read_only (A:=A) (Heap.InOrder fuel n fn s).
Proof.
  revert n s. induction fuel as [|fuel IH]; intros n s;
    [apply read_only_out_of_fuel|].
  rewrite InOrder_unfold.
  destruct n; [|apply read_only_ret].
  repeat (apply read_only_bind; [auto using read_only_load, read_only_visit|];
          intros ?).
  apply IH.
Qed.

Lemma read_only_PreOrder fuel n fn s :
  Heap.read_only (A:=A) (Heap.PreOrder fuel n fn s).
Proof.
  revert n s. induction fuel as [|fuel IH]; intros n s;
    [apply read_only_out_of_fuel|].
  rewrite PreOrder_unfold.
  destruct n; [|apply read_only_ret].
  repeat (apply read_only_bind; [auto using read_only_load, read_only_visit|];
          intros ?).
  apply IH.
Qed.

Lemma read_only_PostOrder fuel n fn s :
  Heap.read_only (A:=A) (Heap.PostOrder fuel n fn s).
Proof.
  revert n s. induction fuel as [|fuel IH]; intros n s;
    [apply read_only_out_of_fuel|].
  rewrite PostOrder_unfold.
  destruct n; [|apply read_only_ret].
  repeat (apply read_only_bind; [auto using read_only_load, read_only_visit|];
          intros ?).
  apply read_only_visit.
Qed.

Lemma InOrder_refines D hp n t fn s fuel :
  Heap.repr_in D hp n t -> (depth t < fuel)%nat ->
  Heap.InOrder fuel n fn s hp = Heap.Ok (Node.InOrder t fn s) hp.
Proof.
  revert n s fuel. induction t as [|v tl IHl tr IHr ht];
    intros n s fuel Hrep Hfuel;
    (destruct fuel as [|fuel]; [simpl in Hfuel; lia|]);
    rewrite InOrder_unfold.
  - simpl in Hrep. by subst n.
  - destruct Hrep as (l & pl & pr & -> & Hd & Hl & Hrl & Hrr).
    simpl in Hfuel.
    hstep ltac:(by eapply load_at).
    hstep ltac:(apply IHl; [done|lia]).
    hstep ltac:(reflexivity).
    rewrite IHr by (done || lia).
    by destruct (fn v (Node.InOrder tl fn s)).
Qed.

Lemma PreOrder_refines D hp n t fn s fuel :
  Heap.repr_in D hp n t -> (depth t < fuel)%nat ->
  Heap.PreOrder fuel n fn s hp = Heap.Ok (Node.PreOrder t fn s) hp.
Proof.
  revert n s fuel. induction t as [|v tl IHl tr IHr ht];
    intros n s fuel Hrep Hfuel;
    (destruct fuel as [|fuel]; [simpl in Hfuel; lia|]);
    rewrite PreOrder_unfold.
  - simpl in Hrep. by subst n.
  - destruct Hrep as (l & pl & pr & -> & Hd & Hl & Hrl & Hrr).
    simpl in Hfuel.
    hstep ltac:(by eapply load_at).
    hstep ltac:(reflexivity).
    hstep ltac:(apply IHl; [done|lia]).
    rewrite IHr by (done || lia).
    by destruct (fn v s).
Qed.

Lemma PostOrder_refines D hp n t fn s fuel :
  Heap.repr_in D hp n t -> (depth t < fuel)%nat ->
  Heap.PostOrder fuel n fn s hp = Heap.Ok (Node.PostOrder t fn s) hp.
Proof.
  revert n s fuel. induction t as [|v tl IHl tr IHr ht];
    intros n s fuel Hrep Hfuel;
    (destruct fuel as [|fuel]; [simpl in Hfuel; lia|]);
    rewrite PostOrder_unfold.
  - simpl in Hrep. by subst n.
  - destruct Hrep as (l & pl & pr & -> & Hd & Hl & Hrl & Hrr).
    simpl in Hfuel.
    hstep ltac:(by eapply load_at).
    hstep ltac:(apply IHl; [done|lia]).
    hstep ltac:(apply IHr; [done|lia]).
    unfold Heap.visit, Heap.ret.
    by destruct (fn v (Node.PostOrder tr fn (Node.PostOrder tl fn s))).
Qed.

End Visitors.

(** On a represented tree and with fuel beyond its depth the read-only
    operations return the value-level answers. *)
Lemma Search_refines D hp n t x fuel :
  Heap.repr_in D hp n t -> (depth t < fuel)%nat ->
  Heap.Search fuel n x hp = Heap.Ok (Node.Search t x) hp.
Proof.
  revert n fuel. induction t as [|v tl IHl tr IHr ht];
    intros n fuel Hrep Hfuel;
    (destruct fuel as [|fuel]; [simpl in Hfuel; lia|]);
    rewrite Search_unfold.
  - simpl in Hrep. by subst n.
  - destruct Hrep as (l & pl & pr & -> & Hd & Hl & Hrl & Hrr).
    simpl in Hfuel.
    hstep ltac:(by eapply load_at).
    repeat case_decide; [apply IHl|apply IHr|]; done || lia.
Qed.

Lemma Min_refines D hp n t fuel :
  Heap.repr_in D hp n t -> (depth t < fuel)%nat ->
  Heap.Min fuel n hp = Heap.Ok (Node.Min t) hp.
Proof.
  revert n fuel. induction t as [|v tl IHl tr IHr ht]; intros n fuel Hrep Hfuel;
    (destruct fuel as [|fuel]; [simpl in Hfuel; lia|]); rewrite Min_unfold.
  - simpl in Hrep. by subst n.
  - destruct Hrep as (l & pl & pr & -> & Hd & Hl & Hrl & Hrr).
    simpl in Hfuel. hstep ltac:(by eapply load_at).
    destruct tl as [|lv ll lr lh].
    + simpl in Hrl. by subst pl.
    + pose proof Hrl as (l0 & ? & ? & -> & _). apply IHl; [done|lia].
Qed.

Lemma Predcessor_refines D hp n t x fuel :
  Heap.repr_in D hp n t -> (depth t < fuel)%nat ->
  Heap.Predcessor fuel n x hp = Heap.Ok (Node.Predcessor t x) hp.
Proof.
  revert n fuel. induction t as [|v tl IHl tr IHr ht];
    intros n fuel Hrep Hfuel;
    (destruct fuel as [|fuel]; [simpl in Hfuel; lia|]);
    rewrite Predcessor_unfold.
  - simpl in Hrep. by subst n.
  - destruct Hrep as (l & pl & pr & -> & Hd & Hl & Hrl & Hrr).
    simpl in Hfuel.
    hstep ltac:(by eapply load_at).
    repeat case_decide.
    + apply IHl; done || lia.
    + hstep ltac:(apply IHr; [done|lia]).
      by destruct (Node.Predcessor tr x).
    + eapply Max_refines; done || lia.
Qed.

Lemma Successor_refines D hp n t x fuel :
  Heap.repr_in D hp n t -> (depth t < fuel)%nat ->
  Heap.Successor fuel n x hp = Heap.Ok (Node.Successor t x) hp.
Proof.
  revert n fuel. induction t as [|v tl IHl tr IHr ht];
    intros n fuel Hrep Hfuel;
    (destruct fuel as [|fuel]; [simpl in Hfuel; lia|]);
    rewrite Successor_unfold.
  - simpl in Hrep. by subst n.
  - destruct Hrep as (l & pl & pr & -> & Hd & Hl & Hrl & Hrr).
    simpl in Hfuel.
    hstep ltac:(by eapply load_at).
    repeat case_decide.
    + hstep ltac:(apply IHl; [done|lia]).
      by destruct (Node.Successor tl x).
    + apply IHr; done || lia.
    + eapply Min_refines; done || lia.
Qed.

(** Growing the store changes no answer about an existing tree. *)
Lemma same_answers_app (T : Heap.Tree) hp ext :
  Heap.same_answers T hp (hp ++ ext).
Proof.
  repeat split; intros;
    unfold Heap.Tree_Search, Heap.Tree_Min, Heap.Tree_Max,
      Heap.Tree_Predecessor, Heap.Tree_Successor, Heap.Tree_InOrder,
      Heap.Tree_PreOrder, Heap.Tree_PostOrder in *.
  - by eapply read_only_Search.
  - by eapply read_only_Min.
  - by eapply read_only_Max.
  - by eapply read_only_Predcessor.
  - by eapply read_only_Successor.
  - by eapply read_only_InOrder.
  - by eapply read_only_PreOrder.
  - by eapply read_only_PostOrder.
Qed.

Lemma preserved_app hp ext : Heap.preserved hp (hp ++ ext).
Proof. intros l c. apply lookup_app_l_Some. Qed.

End HeapReads.

(** ** Calls that change nothing *)

Section HeapNoChange.
Context {A : Type} `{Item A}.
Implicit Types (hp ext : list (Heap.cell A)) (p q : Heap.ptr) (t : node A).
Implicit Types (D : nat -> Prop).

Lemma Search_Some_elem t (x v : A) :
  Node.Search t x = Some v -> v ∈ inorder t /\ Compare x v = 0.
Proof.
  induction t as [|a l IHl r IHr h]; simpl; [done|].
  rewrite elem_of_app, elem_of_cons. repeat case_decide.
  - intros [? ?]%IHl. auto.
  - intros [? ?]%IHr. auto.
  - intros [= ->]. split; [auto|lia].
Qed.

Lemma Search_None_absent t (x : A) :
  (forall v, v ∈ inorder t -> Compare x v <> 0) -> Node.Search t x = None.
Proof.
  intros Habs. destruct (Node.Search t x) as [v|] eqn:E; [|done].
  apply Search_Some_elem in E as [Hv Hx]. by destruct (Habs v Hv).
Qed.

(** [Insert] of an item that [Search] finds returns the same root and
    allocates nothing. *)
Lemma Insert_existing D hp n t (x v : A) fuel :
  Heap.repr_in D hp n t -> Node.Search t x = Some v ->
  (depth t < fuel)%nat ->
  Heap.Insert fuel n x hp = Heap.Ok (n, Some v) hp.
Proof.
  revert n fuel. induction t as [|a tl IHl tr IHr ht];
    intros n fuel Hrep Hs Hfuel; [done|].
  destruct fuel as [|fuel]; [simpl in Hfuel; lia|]. rewrite Insert_unfold.
  destruct Hrep as (l & pl & pr & -> & Hd & Hl & Hrl & Hrr).
  simpl in Hfuel, Hs.
  hstep ltac:(by eapply load_at).
  repeat case_decide.
  - hstep ltac:(apply IHl; [done|done|lia]). done.
  - hstep ltac:(apply IHr; [done|done|lia]). done.
  - by simplify_eq.
Qed.

(** [Delete] of an item that [Search] does not find returns the same root
    and allocates nothing. *)
Lemma Delete_absent D hp n t (x : A) fuel :
  Heap.repr_in D hp n t -> Node.Search t x = None ->
  (depth t < fuel)%nat ->
  Heap.Delete fuel n x hp = Heap.Ok (n, None) hp.
Proof.
  revert n fuel. induction t as [|a tl IHl tr IHr ht];
    intros n fuel Hrep Hs Hfuel;
    (destruct fuel as [|fuel]; [simpl in Hfuel; lia|]);
    rewrite Delete_unfold.
  - simpl in Hrep. by subst n.
  - destruct Hrep as (l & pl & pr & -> & Hd & Hl & Hrl & Hrr).
    simpl in Hfuel, Hs.
    hstep ltac:(by eapply load_at).
    repeat case_decide.
    + hstep ltac:(apply IHl; [done|done|lia]). done.
    + hstep ltac:(apply IHr; [done|done|lia]). done.
    + done.
Qed.

(** C8.  [Delete] of an item that the tree does not contain returns the
    handle it was given (same root pointer, same size) and an empty
    removed item, as a normal return; the store is left as it was, so no
    node was cloned. *)
Theorem delete_absent (T : Heap.Tree) (t : node A) (x : A) hp fuel :
  Heap.repr hp (Heap.root T) t ->
  (forall v, v ∈ inorder t -> Compare x v <> 0) ->
  (depth t < fuel)%nat ->
  Heap.Tree_Delete fuel T x hp = Heap.Ok (T, None) hp.
Proof.
  intros Hrep Habs Hfuel. unfold Heap.Tree_Delete.
  hstep ltac:(eapply Delete_absent;
              [exact Hrep|by apply Search_None_absent|done]).
  by destruct T.
Qed.

End HeapNoChange.

(** C5.  [Insert] of an item equal to one the tree contains returns the
    handle it was given (same root pointer, same size), together with the
    stored item; the store is left as it was. *)
Theorem insert_existing {A : Type} `{ItemOrder A}
    (T : Heap.Tree) (t : node A) (x v : A) hp fuel :
  Heap.repr hp (Heap.root T) t ->
  ascending (inorder t) ->
  v ∈ inorder t -> Compare x v = 0 ->
  (depth t < fuel)%nat ->
  Heap.Tree_Insert fuel T x hp = Heap.Ok (T, Some v) hp.
Proof.
  intros Hrep Hs Hv Hx Hfuel. unfold Heap.Tree_Insert.
  hstep ltac:(eapply Insert_existing;
              [exact Hrep|by apply Search_elem|done]).
  by destruct T.
Qed.

(** ** Persistence *)

Section Persistence.
Context {A : Type} `{Item A}.
Implicit Types (hp ext : list (Heap.cell A)) (p q : Heap.ptr) (t : node A).

Lemma fresh_True hp : forall l : nat, (length hp <= l)%nat -> (fun _ => True) l.
Proof. done. Qed.

(** The handle-level operations compute the value-level results and leave
    every allocated cell as it was. *)
Lemma Tree_Insert_refines (T1 : Heap.Tree) t1 (x : A) hp fuel :
  Heap.repr hp (Heap.root T1) t1 -> avl t1 -> (depth t1 < fuel)%nat ->
  exists T2 t2 e ext,
    Heap.Tree_Insert fuel T1 x hp = Heap.Ok (T2, e) (hp ++ ext) /\
    Node.Insert t1 x = Some (t2, e) /\
    Heap.repr (hp ++ ext) (Heap.root T2) t2 /\
    Heap.size T2 = match e with None => Heap.size T1 + 1 | Some _ => Heap.size T1 end.
Proof.
  intros Hrep Ha Hfuel.
  destruct (Insert_avl t1 x Ha) as (t2 & e & Hins & _).
  destruct (Insert_refines _ hp _ _ x fuel t2 e Hrep (fresh_True hp) Hins Hfuel)
    as (ext & p' & Hrun & Hrep').
  eexists _, t2, e, ext. split.
  { unfold Heap.Tree_Insert. hstep ltac:(exact Hrun). reflexivity. }
  split; [done|]. split; [exact Hrep'|done].
Qed.

Lemma Tree_Update_refines (T1 : Heap.Tree) t1 (x : A) hp fuel :
  Heap.repr hp (Heap.root T1) t1 -> avl t1 -> (depth t1 < fuel)%nat ->
  exists T2 t2 e ext,
    Heap.Tree_Update fuel T1 x hp = Heap.Ok (T2, e) (hp ++ ext) /\
    Node.Update t1 x = Some (t2, e) /\
    Heap.repr (hp ++ ext) (Heap.root T2) t2 /\
    Heap.size T2 = match e with None => Heap.size T1 + 1 | Some _ => Heap.size T1 end.
Proof.
  intros Hrep Ha Hfuel.
  destruct (Update_avl t1 x Ha) as (t2 & e & Hupd & _).
  destruct (Update_refines _ hp _ _ x fuel t2 e Hrep (fresh_True hp) Hupd Hfuel)
    as (ext & p' & Hrun & Hrep').
  eexists _, t2, e, ext. split.
  { unfold Heap.Tree_Update. hstep ltac:(exact Hrun). reflexivity. }
  split; [done|]. split; [exact Hrep'|done].
Qed.

Lemma Tree_Delete_refines (T1 : Heap.Tree) t1 (x : A) hp fuel :
  Heap.repr hp (Heap.root T1) t1 -> avl t1 -> (depth t1 < fuel)%nat ->
  exists T2 t2 e ext,
    Heap.Tree_Delete fuel T1 x hp = Heap.Ok (T2, e) (hp ++ ext) /\
    Node.Delete t1 x = Some (t2, e) /\
    Heap.repr (hp ++ ext) (Heap.root T2) t2 /\
    Heap.size T2 = match e with Some _ => Heap.size T1 - 1 | None => Heap.size T1 end.
Proof.
  intros Hrep Ha Hfuel.
  destruct (Delete_avl t1 x Ha) as (t2 & e & Hdel & _).
  destruct (Delete_refines _ hp _ _ x fuel t2 e Hrep (fresh_True hp) Ha Hdel
              Hfuel)
    as (ext & p' & Hrun & Hrep').
  eexists _, t2, e, ext. split.
  { unfold Heap.Tree_Delete. hstep ltac:(exact Hrun). reflexivity. }
  split; [done|]. split; [exact Hrep'|done].
Qed.

(** C7.  On a store holding a balanced tree under the handle [T1], each
    of [Insert], [Update] and [Delete] returns, and in the store it
    leaves every cell allocated before is unchanged, [T1] represents the
    same tree, and every read-only operation on [T1] ([Search], [Min],
    [Max], [Predcessor], [Successor] and the three traversals) returns
    what it returned before.  [Size] reads the handle [T1] only, which is
    a value. *)
Theorem persistence (T1 : Heap.Tree) (t1 : node A) (x : A) hp fuel :
  Heap.repr hp (Heap.root T1) t1 -> avl t1 -> (depth t1 < fuel)%nat ->
  (exists T2 e hp',
     Heap.Tree_Insert fuel T1 x hp = Heap.Ok (T2, e) hp' /\
     Heap.preserved hp hp' /\ Heap.repr hp' (Heap.root T1) t1 /\
     Heap.same_answers T1 hp hp') /\
  (exists T2 e hp',
     Heap.Tree_Update fuel T1 x hp = Heap.Ok (T2, e) hp' /\
     Heap.preserved hp hp' /\ Heap.repr hp' (Heap.root T1) t1 /\
     Heap.same_answers T1 hp hp') /\
  (exists T2 e hp',
     Heap.Tree_Delete fuel T1 x hp = Heap.Ok (T2, e) hp' /\
     Heap.preserved hp hp' /\ Heap.repr hp' (Heap.root T1) t1 /\
     Heap.same_answers T1 hp hp').
Proof.
  intros Hrep Ha Hfuel. repeat split.
  - destruct (Tree_Insert_refines T1 t1 x hp fuel Hrep Ha Hfuel)
      as (T2 & t2 & e & ext & Hrun & _).
    exists T2, e, (hp ++ ext). split; [done|].
    split; [apply preserved_app|].
    split; [by apply repr_in_app|apply same_answers_app].
  - destruct (Tree_Update_refines T1 t1 x hp fuel Hrep Ha Hfuel)
      as (T2 & t2 & e & ext & Hrun & _).
    exists T2, e, (hp ++ ext). split; [done|].
    split; [apply preserved_app|].
    split; [by apply repr_in_app|apply same_answers_app].
  - destruct (Tree_Delete_refines T1 t1 x hp fuel Hrep Ha Hfuel)
      as (T2 & t2 & e & ext & Hrun & _).
    exists T2, e, (hp ++ ext). split; [done|].
    split; [apply preserved_app|].
    split; [by apply repr_in_app|apply same_answers_app].
Qed.

End Persistence.

(** ** Sequences of operations on the store *)

#[global] Arguments Heap.Tree_Insert : simpl never.
#[global] Arguments Heap.Tree_Update : simpl never.
#[global] Arguments Heap.Tree_Delete : simpl never.

Section HeapRuns.
Context {A : Type} `{Item A}.
Implicit Types (hp ext : list (Heap.cell A)) (t : Tree A) (T : Heap.Tree).

(** On a balanced tree the cached height is the depth. *)
Lemma avl_depth (n : node A) : avl n -> Z.of_nat (depth n) = Node.height n.
Proof.
  induction n as [|v l IHl r IHr h]; [done|].
  intros (Hl & Hr & -> & _). cbn [depth Node.height].
  rewrite Nat2Z.inj_succ, Nat2Z.inj_max, IHl, IHr by done. lia.
Qed.

Lemma apply_op_refines fuel T t (o : op A) hp :
  Heap.repr hp (Heap.root T) (root t) -> Heap.size T = size t ->
  avl (root t) -> (depth (root t) < fuel)%nat ->
  exists T' t' ext,
    Heap.apply_op fuel T o hp = Heap.Ok T' (hp ++ ext) /\
    apply_op t o = Some t' /\
    Heap.repr (hp ++ ext) (Heap.root T') (root t') /\
    Heap.size T' = size t' /\
    avl (root t') /\ (depth (root t') <= S (depth (root t)))%nat.
Proof.
  intros Hrep Hsize Ha Hfuel.
  assert (forall n' : node A, avl n' ->
            Node.height n' <= Node.height (root t) + 1 ->
            (depth n' <= S (depth (root t)))%nat) as Hdepth.
  { intros n' Ha' Hh. pose proof (avl_depth n' Ha').
    pose proof (avl_depth (root t) Ha). lia. }
  destruct o as [x|x|x]; simpl.
  - destruct (Tree_Insert_refines T (root t) x hp fuel Hrep Ha Hfuel)
      as (T' & n' & e & ext & Hrun & Hins & Hrep' & Hsize').
    destruct (Insert_avl (root t) x Ha) as (? & ? & Hins' & Ha' & Hh & _).
    rewrite Hins in Hins'. simplify_eq.
    unfold Tree.Insert. rewrite Hins. simpl.
    eexists T', _, ext. split; [by hstep ltac:(exact Hrun)|].
    split; [done|]. simpl. rewrite Hsize', Hsize.
    repeat split; try done. apply Hdepth; [done|lia].
  - destruct (Tree_Update_refines T (root t) x hp fuel Hrep Ha Hfuel)
      as (T' & n' & e & ext & Hrun & Hupd & Hrep' & Hsize').
    destruct (Update_avl (root t) x Ha) as (? & ? & Hupd' & Ha' & Hh & _).
    rewrite Hupd in Hupd'. simplify_eq.
    unfold Tree.Update. rewrite Hupd. simpl.
    eexists T', _, ext. split; [by hstep ltac:(exact Hrun)|].
    split; [done|]. simpl. rewrite Hsize', Hsize.
    repeat split; try done. apply Hdepth; [done|lia].
  - destruct (Tree_Delete_refines T (root t) x hp fuel Hrep Ha Hfuel)
      as (T' & n' & e & ext & Hrun & Hdel & Hrep' & Hsize').
    destruct (Delete_avl (root t) x Ha) as (? & ? & Hdel' & Ha' & Hh & _).
    rewrite Hdel in Hdel'. simplify_eq.
    unfold Tree.Delete. rewrite Hdel. simpl.
    eexists T', _, ext. split; [by hstep ltac:(exact Hrun)|].
    split; [done|]. simpl. rewrite Hsize', Hsize.
    repeat split; try done. apply Hdepth; [done|lia].
Qed.

Lemma run_refines fuel (ops : list (op A)) T t hp :
  Heap.repr hp (Heap.root T) (root t) -> Heap.size T = size t ->
  avl (root t) -> (depth (root t) + length ops < fuel)%nat ->
  exists T' t' ext,
    Heap.run fuel ops T hp = Heap.Ok T' (hp ++ ext) /\
    run ops t = Some t' /\
    Heap.repr (hp ++ ext) (Heap.root T') (root t') /\
    Heap.size T' = size t' /\
    (depth (root t') <= depth (root t) + length ops)%nat.
Proof.
  revert T t hp. induction ops as [|o ops IH];
    intros T t hp Hrep Hsize Ha Hfuel; simpl in *.
  - exists T, t, []. rewrite app_nil_r. repeat split; try done. lia.
  - destruct (apply_op_refines fuel T t o hp Hrep Hsize Ha ltac:(lia))
      as (T1 & t1 & ext1 & Hrun1 & Hop & Hrep1 & Hsize1 & Ha1 & Hd1).
    destruct (IH T1 t1 (hp ++ ext1) Hrep1 Hsize1 Ha1 ltac:(lia))
      as (T' & t' & ext & Hrun & Hops & Hrep' & Hsize' & Hd').
    exists T', t', (ext1 ++ ext). rewrite app_assoc, Hop. simpl.
    split; [by hstep ltac:(exact Hrun1)|]. repeat split; try done. lia.
Qed.

(** X15.  Every sequence of [Insert], [Update] and [Delete] calls from
    the empty tree and the empty store returns, given fuel beyond its
    length: no call panics, and the handle returned represents the tree
    the value-level model computes, with the same size field. *)
Theorem built_trees_refine fuel (ops : list (op A)) :
  (length ops < fuel)%nat ->
  exists T t hp,
    Heap.run fuel ops (Heap.mkTree None 0) [] = Heap.Ok T hp /\
    run ops Tree.empty = Some t /\
    Heap.repr hp (Heap.root T) (root t) /\ Heap.size T = size t /\
    (depth (root t) < fuel)%nat.
Proof.
  intros Hfuel.
  destruct (run_refines fuel ops (Heap.mkTree None 0) Tree.empty [])
    as (T & t & ext & Hrun & Hops & Hrep & Hsize & Hd); try done.
  exists T, t, ext. repeat split; try done. simpl in Hd. lia.
Qed.

End HeapRuns.

(** X16.  The ordering invariant, end to end on the store: after any
    sequence of modifying calls from the empty tree, the in-order
    traversal returns, leaves the store as it is, and the items it has
    passed to the visitor are strictly ascending. *)
Theorem store_inorder_ascending {A : Type} `{ItemOrder A} {St : Type}
    fuel (ops : list (op A)) (fn : A -> St -> bool * St) (s : St) :
  (length ops < fuel)%nat ->
  exists T hp st,
    Heap.run fuel ops (Heap.mkTree None 0) [] = Heap.Ok T hp /\
    Heap.Tree_InOrder fuel T (logging fn) ([], s) hp = Heap.Ok st hp /\
    ascending (map fst (fst st)).
Proof.
  intros Hfuel.
  destruct (run_refines fuel ops (Heap.mkTree None 0) Tree.empty [])
    as (T & t & hp & Hrun & Hops & Hrep & _ & Hd); try done.
  simpl in Hd.
  exists T, hp, (Tree.InOrder t (logging fn) ([], s)).
  split; [done|]. split.
  - unfold Heap.Tree_InOrder. eapply InOrder_refines; [done|lia].
  - unfold Tree.InOrder. rewrite InOrder_items. simpl.
    apply reachable_ascending. by exists ops.
Qed.

(** ** Instances on the store of three insertions *)

(** [store123] and [handle123] are what three insertions from the empty
    tree build. *)
Lemma store123_built :
  Heap.bind (Heap.Tree_Insert 3 (Heap.mkTree None 0) 1) (fun '(t1, _) =>
  Heap.bind (Heap.Tree_Insert 3 t1 2) (fun '(t2, _) =>
  Heap.Tree_Insert 3 t2 3)) [] =
  Heap.Ok (handle123, None) store123.
Proof. vm_compute. reflexivity. Qed.

Lemma store123_repr : Heap.repr store123 (Heap.root handle123) (root ints123).
Proof.
  unfold Heap.repr. simpl.
  exists 6%nat, (Some 7%nat), (Some 3%nat). repeat split.
  - exists 7%nat, None, None. by repeat split.
  - exists 3%nat, None, None. by repeat split.
Qed.

Lemma insert_existing_witness :
  Heap.Tree_Insert 3 handle123 2 store123 =
  Heap.Ok (handle123, Some 2) store123.
Proof.
  apply (insert_existing handle123 (root ints123) 2 2 store123 3).
  - exact store123_repr.
  - repeat constructor; unfold lt, Compare, ZItem; lia.
  - simpl. apply elem_of_cons. right. apply elem_of_cons. by left.
  - reflexivity.
  - simpl. lia.
Defined.

Lemma delete_absent_witness :
  Heap.Tree_Delete 3 handle123 5 store123 = Heap.Ok (handle123, None) store123.
Proof.
  apply (delete_absent handle123 (root ints123) 5 store123 3).
  - exact store123_repr.
  - intros v Hv. simpl in Hv.
    repeat (apply elem_of_cons in Hv as [->|Hv]); try done.
    by apply elem_of_nil in Hv.
  - simpl. lia.
Defined.

Lemma persistence_witness :
  (exists T2 e hp',
     Heap.Tree_Insert 3 handle123 5 store123 = Heap.Ok (T2, e) hp' /\
     Heap.preserved store123 hp' /\
     Heap.repr hp' (Heap.root handle123) (root ints123) /\
     Heap.same_answers handle123 store123 hp') /\
  (exists T2 e hp',
     Heap.Tree_Update 3 handle123 5 store123 = Heap.Ok (T2, e) hp' /\
     Heap.preserved store123 hp' /\
     Heap.repr hp' (Heap.root handle123) (root ints123) /\
     Heap.same_answers handle123 store123 hp') /\
  (exists T2 e hp',
     Heap.Tree_Delete 3 handle123 5 store123 = Heap.Ok (T2, e) hp' /\
     Heap.preserved store123 hp' /\
     Heap.repr hp' (Heap.root handle123) (root ints123) /\
     Heap.same_answers handle123 store123 hp').
Proof.
  apply (persistence handle123 (root ints123) 5 store123 3).
  - exact store123_repr.
  - simpl. lia.
  - simpl. lia.
Defined.

(** * Further properties of the operations *)

(** ** Lookups, insertion and deletion on trees built by the API *)

Section MoreLists.
Context {A : Type} `{ItemOrder A}.

Lemma length_ins_list (x : A) (l : list A) :
  length (ins_list x l) =
  (length l + match find_list x l with None => 1 | Some _ => 0 end)%nat.
Proof.
  induction l as [|a l IH]; simpl; [done|].
  repeat case_decide; simpl; lia.
Qed.

Lemma length_upd_list (x : A) (l : list A) :
  length (upd_list x l) =
  (length l + match find_list x l with None => 1 | Some _ => 0 end)%nat.
Proof.
  induction l as [|a l IH]; simpl; [done|].
  repeat case_decide; simpl; lia.
Qed.

Lemma length_del_list (x : A) (l : list A) :
  (length (del_list x l) +
   match find_list x l with None => 0 | Some _ => 1 end)%nat = length l.
Proof.
  induction l as [|a l IH]; simpl; [done|].
  repeat case_decide; simpl; lia.
Qed.

Lemma del_ins_list (x : A) (l : list A) :
  find_list x l = None -> del_list x (ins_list x l) = l.
Proof.
  pose proof (Compare_refl x) as Hxx.
  induction l as [|a l IH]; simpl.
  - intros _. repeat case_decide; done || lia.
  - repeat case_decide; try done; simpl; repeat case_decide; try lia.
    + done.
    + intros Hf. by rewrite IH.
Qed.

Lemma ins_list_iff (x a : A) (l : list A) :
  find_list x l = None -> a ∈ ins_list x l <-> a = x \/ a ∈ l.
Proof.
  intros Hf. split; [apply ins_list_elem|].
  intros [->|Ha]; [by apply ins_list_adds|by apply ins_list_keeps].
Qed.

Lemma upd_list_adds (x : A) (l : list A) :
  find_list x l = None -> upd_list x l = ins_list x l.
Proof.
  induction l as [|a l IH]; simpl; [done|].
  repeat case_decide; try done. intros Hf. by rewrite IH.
Qed.

Lemma upd_list_keeps (x a : A) (l : list A) :
  a ∈ l -> Compare x a <> 0 -> a ∈ upd_list x l.
Proof.
  induction l as [|b l IH]; simpl; [by intros ?%elem_of_nil|].
  repeat case_decide; rewrite !elem_of_cons; intros [->|Ha] Hx; auto.
  lia.
Qed.

(** In an ascending list at most one item is equal to a key. *)
Lemma ascending_unique (x a b : A) (l : list A) :
  ascending l -> a ∈ l -> b ∈ l ->
  Compare x a = 0 -> Compare x b = 0 -> a = b.
Proof.
  intros Hs Ha Hb Hxa Hxb.
  pose proof (find_list_elem x a l Hs Ha Hxa).
  pose proof (find_list_elem x b l Hs Hb Hxb). congruence.
Qed.

Lemma del_list_iff (x a : A) (l : list A) :
  ascending l -> a ∈ del_list x l <-> a ∈ l /\ Compare x a <> 0.
Proof.
  unfold ascending. induction l as [|b l IH]; simpl.
  - intros _. split; [by intros ?%elem_of_nil|by intros [?%elem_of_nil _]].
  - rewrite StronglySorted_cons. intros [Hb Hs].
    rewrite Forall_forall in Hb.
    assert (forall c, c ∈ l -> Compare x b <= 0 -> Compare x c < 0) as Hlt.
    { intros c Hc Hxb. eapply le_lt_trans; [exact Hxb|by apply Hb]. }
    repeat case_decide; rewrite ?elem_of_cons, ?IH by done.
    + split; [|tauto]. intros [->|Ha]; (split; [tauto|]).
      * lia.
      * specialize (Hlt a Ha). lia.
    + split.
      * intros [->|[Ha Hx]]; (split; [tauto|]); [lia|done].
      * intros [[->|Ha] Hx]; tauto.
    + split.
      * intros Ha. split; [tauto|]. specialize (Hlt a Ha). lia.
      * intros [[->|Ha] Hx]; [lia|done].
Qed.

Lemma find_del_list (x : A) (l : list A) :
  ascending l -> find_list x (del_list x l) = None.
Proof.
  intros Hs. apply find_list_absent. intros v Hv.
  by apply del_list_iff in Hv as [_ ?].
Qed.

End MoreLists.

Section MoreValueLevel.
Context {A : Type} `{ItemOrder A}.
Implicit Types (t : Tree A) (n : node A) (x v : A).

Lemma Size_length n : Node.Size n = Z.of_nat (length (inorder n)).
Proof.
  induction n as [|a l IHl r IHr h]; [done|].
  cbn [Node.Size inorder]. rewrite length_app. simpl. lia.
Qed.

Lemma run_snoc (ops : list (op A)) (o : op A) t :
  run (ops ++ [o]) t = t' ← run ops t; apply_op t' o.
Proof.
  revert t. induction ops as [|o' ops IH]; intros t; simpl.
  - by destruct (apply_op t o).
  - destruct (apply_op t o'); simpl; [apply IH|done].
Qed.

Lemma reachable_step t (o : op A) t' :
  reachable t -> apply_op t o = Some t' -> reachable t'.
Proof.
  intros [ops Hops] Hop. exists (ops ++ [o]). by rewrite run_snoc, Hops.
Qed.

(** What [Insert], [Update] and [Delete] return on a tree built by the
    API, in terms of its in-order sequence. *)
Lemma Insert_reachable t x :
  reachable t ->
  exists r,
    Tree.Insert t x =
      Some (mkTree r (match find_list x (inorder (root t)) with
                      | None => size t + 1
                      | Some _ => size t
                      end), find_list x (inorder (root t))) /\
    inorder r = ins_list x (inorder (root t)) /\
    (is_Some (find_list x (inorder (root t))) -> r = root t).
Proof.
  intros Hr. pose proof (reachable_avl t Hr) as Ha.
  pose proof (reachable_ascending t Hr) as Hs.
  destruct (Insert_avl (root t) x Ha) as (r & e & Hins & _ & _ & Hsame & _).
  destruct (Insert_inorder _ _ _ _ Ha Hs Hins) as [Hin ->].
  exists r. unfold Tree.Insert. rewrite Hins. by repeat split.
Qed.

Lemma Delete_reachable t x :
  reachable t ->
  exists r,
    Tree.Delete t x =
      Some (mkTree r (match find_list x (inorder (root t)) with
                      | Some _ => size t - 1
                      | None => size t
                      end), find_list x (inorder (root t))) /\
    inorder r = del_list x (inorder (root t)) /\
    (find_list x (inorder (root t)) = None -> r = root t).
Proof.
  intros Hr. pose proof (reachable_avl t Hr) as Ha.
  pose proof (reachable_ascending t Hr) as Hs.
  destruct (Delete_avl (root t) x Ha) as (r & e & Hdel & _ & _ & Hsame).
  destruct (Delete_inorder _ _ _ _ Ha Hs Hdel) as [Hin ->].
  exists r. unfold Tree.Delete. rewrite Hdel. by repeat split.
Qed.

Lemma Update_reachable t x :
  reachable t ->
  exists r,
    Tree.Update t x = Some (mkTree r (size t + 1), None) /\
    (inorder r = upd_list x (inorder (root t)) \/
     inorder r = ins_list x (inorder (root t))).
Proof.
  intros Hr. pose proof (reachable_avl t Hr) as Ha.
  pose proof (reachable_ascending t Hr) as Hs.
  destruct (Update_avl (root t) x Ha) as (r & e & Hupd & _).
  destruct (Update_inorder _ _ _ _ Ha Hs Hupd) as [-> Hin].
  exists r. unfold Tree.Update. rewrite Hupd. by split.
Qed.

(** X1.  [Search] on a tree built by the API returns the stored item
    equal to the key, which is the only such item, and returns empty
    exactly when no stored item is equal to the key. *)
Theorem search_correct t x :
  reachable t ->
  match Tree.Search t x with
  | Some v =>
    v ∈ inorder (root t) /\ Compare x v = 0 /\
    forall v', v' ∈ inorder (root t) -> Compare x v' = 0 -> v' = v
  | None => forall v, v ∈ inorder (root t) -> Compare x v <> 0
  end.
Proof.
  intros Hs%reachable_ascending. unfold Tree.Search.
  destruct (Node.Search (root t) x) as [v|] eqn:E.
  - destruct (Search_Some_elem _ _ _ E) as [Hv Hx]. repeat split; try done.
    intros v' Hv' Hx'. pose proof (Search_elem _ _ _ Hs Hv' Hx'). congruence.
  - intros v Hv Hx. pose proof (Search_elem _ _ _ Hs Hv Hx). congruence.
Qed.

(** X2.  [Min] and [Max] on a tree built by the API return the least and
    the greatest stored item, and empty exactly on the empty tree. *)
Theorem min_max_correct t :
  reachable t ->
  is_min (inorder (root t)) (Tree.Min t) /\
  is_max (inorder (root t)) (Tree.Max t).
Proof.
  intros Hs%reachable_ascending. unfold Tree.Min, Tree.Max.
  rewrite Min_head, Max_last. split.
  - destruct (inorder (root t)) as [|m l] eqn:E; simpl; [done|].
    apply StronglySorted_cons in Hs as [Hm _]. rewrite Forall_forall in Hm.
    split; [by apply elem_of_cons; left|].
    intros q [->|Hq]%elem_of_cons.
    + rewrite Compare_refl. lia.
    + specialize (Hm q Hq). unfold lt in Hm. lia.
  - destruct (last (inorder (root t))) as [m|] eqn:E; simpl.
    + apply last_Some in E as [l El]. rewrite El in *.
      apply ascending_node in Hs as (_ & _ & Hm & _).
      rewrite Forall_forall in Hm.
      split; [apply elem_of_app; right; by apply list_elem_of_singleton|].
      intros q [Hq|Hq]%elem_of_app.
      * specialize (Hm q Hq). unfold lt in Hm. lia.
      * apply list_elem_of_singleton in Hq as ->. rewrite Compare_refl. lia.
    + by apply last_None in E.
Qed.

(** X3.  [Insert] on a tree built by the API reports an existing item
    exactly when a stored item is equal to [x], and then returns the tree
    as it is; otherwise the new tree holds [x] and the old items and
    nothing else, and both [Size] and the node count grow by one. *)
Theorem insert_result t x :
  reachable t ->
  exists t' e,
    Tree.Insert t x = Some (t', e) /\
    match e with
    | Some v => v ∈ inorder (root t) /\ Compare x v = 0 /\ t' = t
    | None =>
      (forall v, v ∈ inorder (root t) -> Compare x v <> 0) /\
      (forall a, a ∈ inorder (root t') <-> a = x \/ a ∈ inorder (root t)) /\
      Tree.Size t' = Tree.Size t + 1 /\
      Node.Size (root t') = Node.Size (root t) + 1
    end.
Proof.
  intros Hr. pose proof (reachable_ascending t Hr) as Hs.
  destruct (Insert_reachable t x Hr) as (r & Hins & Hin & Hsame).
  eexists _, _. split; [exact Hins|].
  destruct (find_list x (inorder (root t))) as [v|] eqn:E.
  - apply find_list_Some in E as [Hv Hx]. repeat split; try done.
    rewrite Hsame by eauto. by destruct t.
  - unfold Tree.Size. simpl. split_and!.
    + intros v Hv Hx. pose proof (find_list_elem _ _ _ Hs Hv Hx). congruence.
    + intros a. rewrite Hin. by apply ins_list_iff.
    + done.
    + rewrite !Size_length, Hin, length_ins_list, E. lia.
Qed.

(** X4.  [Delete] of a key equal to a stored item returns that item and a
    tree that holds the other items and nothing else; [Search] no longer
    finds the key, still finds every other item, and both [Size] and the
    node count shrink by one. *)
Theorem delete_present t x v :
  reachable t -> v ∈ inorder (root t) -> Compare x v = 0 ->
  exists t',
    Tree.Delete t x = Some (t', Some v) /\
    (forall a, a ∈ inorder (root t') <->
               a ∈ inorder (root t) /\ Compare x a <> 0) /\
    Tree.Search t' x = None /\
    (forall y a, a ∈ inorder (root t) -> Compare y a = 0 ->
                 Compare x a <> 0 -> Tree.Search t' y = Some a) /\
    Tree.Size t' = Tree.Size t - 1 /\
    Node.Size (root t') = Node.Size (root t) - 1.
Proof.
  intros Hr Hv Hx. pose proof (reachable_ascending t Hr) as Hs.
  destruct (Delete_reachable t x Hr) as (r & Hdel & Hin & _).
  rewrite (find_list_elem _ _ _ Hs Hv Hx) in Hdel.
  eexists. split; [exact Hdel|].
  assert (ascending (inorder r)) as Hs'.
  { rewrite Hin. by apply del_list_ascending. }
  unfold Tree.Search, Tree.Size. simpl. split_and!.
  - intros a. rewrite Hin. by apply del_list_iff.
  - rewrite Search_find, Hin by done. by apply find_del_list.
  - intros y a Ha Hy Hxa. apply Search_elem; [done| |done].
    rewrite Hin. by apply del_list_iff.
  - done.
  - pose proof (length_del_list x (inorder (root t))) as Hlen.
    rewrite (find_list_elem _ _ _ Hs Hv Hx) in Hlen.
    rewrite !Size_length, Hin. lia.
Qed.

(** X5.  [Delete] twice is [Delete] once: whatever the first call did,
    a second call with the same key finds nothing and returns the tree it
    was given. *)
Theorem delete_twice t x :
  reachable t ->
  exists t' e,
    Tree.Delete t x = Some (t', e) /\ Tree.Delete t' x = Some (t', None).
Proof.
  intros Hr. pose proof (reachable_ascending t Hr) as Hs.
  destruct (Delete_reachable t x Hr) as (r & Hdel & Hin & _).
  eexists _, _. split; [exact Hdel|].
  set (t' := mkTree r _).
  assert (reachable t') as Hr'.
  { apply (reachable_step t (OpDelete x)); [done|]. simpl. by rewrite Hdel. }
  destruct (Delete_reachable t' x Hr') as (r' & Hdel' & _ & Hsame).
  simpl in Hdel', Hsame. rewrite Hin, find_del_list in Hdel', Hsame by done.
  rewrite Hdel', Hsame by done. done.
Qed.

(** X6.  Inserting a new item and deleting it again gives back the
    in-order sequence and the size of the tree one started from. *)
Theorem insert_delete_inverse t x :
  reachable t ->
  (forall v, v ∈ inorder (root t) -> Compare x v <> 0) ->
  exists t1 t2,
    Tree.Insert t x = Some (t1, None) /\
    Tree.Delete t1 x = Some (t2, Some x) /\
    inorder (root t2) = inorder (root t) /\
    Tree.Size t2 = Tree.Size t.
Proof.
  intros Hr Habs.
  destruct (Insert_reachable t x Hr) as (r & Hins & Hin & _).
  rewrite (find_list_absent _ _ Habs) in Hins.
  set (t1 := mkTree r (size t + 1)) in *.
  assert (reachable t1) as Hr1.
  { apply (reachable_step t (OpInsert x)); [done|]. simpl. by rewrite Hins. }
  pose proof (reachable_ascending t1 Hr1) as Hs1.
  destruct (Delete_reachable t1 x Hr1) as (r2 & Hdel & Hin2 & _).
  simpl in Hdel, Hin2, Hs1.
  assert (find_list x (inorder r) = Some x) as Hf.
  { apply find_list_elem; [done| |apply Compare_refl].
    rewrite Hin. apply ins_list_adds. by apply find_list_absent. }
  rewrite Hf in Hdel.
  eexists t1, _. split; [done|]. split; [exact Hdel|]. simpl. split.
  - rewrite Hin2, Hin. apply del_ins_list. by apply find_list_absent.
  - unfold Tree.Size. simpl. lia.
Qed.

End MoreValueLevel.

(** ** The in-order traversal of a tree built by the API *)

(** C3.  On every tree built from the empty tree by [Insert], [Update]
    and [Delete], and for every visitor, whatever it answers, the in-order
    traversal passes to the visitor exactly the stored items: the items of
    the nodes from left to right, one call per node, which are the items
    that [Search] returns for some key; and this sequence of calls is
    strictly ascending for the comparison. *)
Theorem inorder_ascending {A : Type} `{ItemOrder A} {St : Type}
    (t : Tree A) (fn : A -> St -> bool * St) (s : St) :
  reachable t ->
  let calls := map fst (fst (Tree.InOrder t (logging fn) ([], s))) in
  ascending calls /\
  calls = inorder (root t) /\
  Z.of_nat (length calls) = Node.Size (root t) /\
  (forall v, v ∈ calls <-> exists x, Tree.Search t x = Some v).
Proof.
  intros Hr. cbv zeta. unfold Tree.InOrder, Tree.Search.
  rewrite InOrder_items. simpl.
  pose proof (reachable_ascending t Hr) as Hs.
  split_and!; try done.
  - by rewrite Size_length.
  - intros v. split.
    + intros Hv. exists v. apply Search_elem; [done..|apply Compare_refl].
    + intros [x Hx]. by apply Search_Some_elem in Hx as [? _].
Qed.

(** ** [Update], the size counter, neighbours *)

Section MoreValueLevel2.
Context {A : Type} `{ItemOrder A}.
Implicit Types (t : Tree A) (n : node A) (x v : A).

Lemma upd_list_has x (l : list A) : x ∈ upd_list x l.
Proof.
  induction l as [|a l IH]; simpl; [by apply list_elem_of_singleton|].
  repeat case_decide; rewrite !elem_of_cons; auto.
Qed.

(** X7.  [Update] on a tree built by the API never reports a previous
    item and always adds one to [Size].  Afterwards [Search] finds an item
    equal to [x], which is [x] itself when no equal item was stored; the
    items with other keys stay, nothing but [x] is added, and the node
    count grows by one exactly when no equal item was stored. *)
Theorem update_result t x :
  reachable t ->
  exists t' v,
    Tree.Update t x = Some (t', None) /\
    Tree.Size t' = Tree.Size t + 1 /\
    Tree.Search t' x = Some v /\ Compare x v = 0 /\
    (Tree.Search t x = None -> v = x) /\
    (forall a, a ∈ inorder (root t) -> Compare x a <> 0 ->
               a ∈ inorder (root t')) /\
    (forall a, a ∈ inorder (root t') -> a = x \/ a ∈ inorder (root t)) /\
    Node.Size (root t') =
      Node.Size (root t) +
      match Tree.Search t x with Some _ => 0 | None => 1 end.
Proof.
  intros Hr. pose proof (reachable_ascending t Hr) as Hs.
  destruct (Update_reachable t x Hr) as (r & Hupd & Hin).
  set (t' := mkTree r (size t + 1)) in *.
  assert (reachable t') as Hr'.
  { apply (reachable_step t (OpUpdate x)); [done|]. simpl. by rewrite Hupd. }
  pose proof (reachable_ascending t' Hr') as Hs'. simpl in Hs'.
  unfold Tree.Search, Tree.Size. rewrite (Search_find (root t)) by done.
  assert (exists v, v ∈ inorder r /\ Compare x v = 0 /\
            (find_list x (inorder (root t)) = None -> v = x)) as (v & Hv & Hx & Hnew).
  { destruct Hin as [-> | ->].
    - exists x. split; [apply upd_list_has|]. split; [apply Compare_refl|done].
    - destruct (find_list x (inorder (root t))) as [v|] eqn:E.
      + apply find_list_Some in E as [Hv Hx].
        exists v. split; [by apply ins_list_keeps|done].
      + exists x. split; [by apply ins_list_adds|].
        split; [apply Compare_refl|done]. }
  exists t', v. simpl. split_and!; try done.
  - by apply Search_elem.
  - intros a Ha Hxa. destruct Hin as [-> | ->];
      [by apply upd_list_keeps|by apply ins_list_keeps].
  - intros a. destruct Hin as [-> | ->];
      [apply upd_list_elem|apply ins_list_elem].
  - rewrite !Size_length.
    assert (length (inorder r) =
            (length (inorder (root t)) +
             match find_list x (inorder (root t)) with
             | None => 1 | Some _ => 0 end)%nat) as ->.
    { destruct Hin as [-> | ->];
        [apply length_upd_list|apply length_ins_list]. }
    destruct (find_list x (inorder (root t))); lia.
Qed.

(** How far the [size] counter is ahead of the node count, after one
    operation. *)
Lemma apply_op_size t (o : op A) t' :
  reachable t -> apply_op t o = Some t' ->
  Node.Size (root t) - size t >= Node.Size (root t') - size t' /\
  (is_update o = false ->
   Node.Size (root t') - size t' = Node.Size (root t) - size t).
Proof.
  intros Hr Hop. rewrite !Size_length. destruct o as [x|x|x]; simpl in Hop.
  - destruct (Insert_reachable t x Hr) as (r & Hins & Hin & _).
    rewrite Hins in Hop. simpl in Hop. simplify_eq. simpl.
    rewrite Hin, length_ins_list.
    destruct (find_list x (inorder (root t))); simpl; lia.
  - destruct (Update_reachable t x Hr) as (r & Hupd & Hin).
    rewrite Hupd in Hop. simpl in Hop. simplify_eq. simpl.
    split; [|done].
    destruct Hin as [-> | ->]; rewrite ?length_upd_list, ?length_ins_list;
      destruct (find_list x (inorder (root t))); simpl; lia.
  - destruct (Delete_reachable t x Hr) as (r & Hdel & Hin & _).
    rewrite Hdel in Hop. simpl in Hop. simplify_eq. simpl.
    pose proof (length_del_list x (inorder (root t))) as Hlen.
    rewrite Hin.
    destruct (find_list x (inorder (root t))); simpl; lia.
Qed.

Lemma run_size (ops : list (op A)) t t' :
  reachable t -> run ops t = Some t' ->
  Node.Size (root t) - size t >= Node.Size (root t') - size t' /\
  (forallb (fun o => negb (is_update o)) ops = true ->
   Node.Size (root t') - size t' = Node.Size (root t) - size t).
Proof.
  revert t. induction ops as [|o ops IH]; intros t Hr Hrun; simpl in Hrun.
  - simplify_eq. split; [lia|done].
  - destruct (apply_op t o) as [t1|] eqn:Hop; [|done]. simpl in Hrun.
    destruct (apply_op_size t o t1 Hr Hop) as [Hle Heq].
    destruct (IH t1 (reachable_step t o t1 Hr Hop) Hrun) as [Hle' Heq'].
    split; [lia|]. simpl. intros [Ho Hops]%andb_prop.
    rewrite Heq' by done. apply Heq. by destruct (is_update o).
Qed.

(** X8.  After any sequence of operations on the empty tree the [Size]
    counter is at least the number of nodes that [node.Size] counts, and
    the two agree when the sequence holds no [Update]. *)
Theorem size_counter (ops : list (op A)) :
  exists t,
    run ops Tree.empty = Some t /\
    Node.Size (root t) <= Tree.Size t /\
    (forallb (fun o => negb (is_update o)) ops = true ->
     Tree.Size t = Node.Size (root t)).
Proof.
  destruct (run_total ops) as [t Hrun]. exists t. split; [done|].
  assert (reachable (@Tree.empty A)) as Hr0 by (by exists []).
  destruct (run_size ops _ t Hr0 Hrun) as [Hle Heq].
  unfold Tree.Size. simpl in Hle, Heq. split; [lia|].
  intros Hops. specialize (Heq Hops). lia.
Qed.

(** X9.  On a tree built by the API that stores [v], [Successor] undoes
    [Predecessor] and [Predecessor] undoes [Successor]. *)
Theorem neighbours_inverse t v :
  reachable t -> v ∈ inorder (root t) ->
  (forall p, Tree.Predecessor t v = Some p -> Tree.Successor t p = Some v) /\
  (forall s, Tree.Successor t v = Some s -> Tree.Predecessor t s = Some v).
Proof.
  intros Hs%reachable_ascending Hv. unfold Tree.Predecessor, Tree.Successor.
  split.
  - intros p Hp. pose proof (Predcessor_spec (root t) v Hs) as Hpre.
    rewrite Hp in Hpre. destruct Hpre as (Hpin & Hpv & Hgreatest).
    pose proof (Successor_spec (root t) p Hs) as Hsuc.
    destruct (Node.Successor (root t) p) as [s|]; simpl in Hsuc.
    + destruct Hsuc as (Hsin & Hps & Hleast). f_equal.
      pose proof (Hleast v Hv Hpv) as Hsv.
      destruct (decide (Compare s v = 0)) as [E|E].
      * apply (ascending_unique s s v (inorder (root t))); auto.
        apply Compare_refl.
      * assert (lt s v) as Hlt by (unfold lt; lia).
        specialize (Hgreatest s Hsin Hlt). unfold lt in Hps.
        pose proof (Compare_gt_lt s p). lia.
    + by destruct (Hsuc v Hv).
  - intros s Hsuc0. pose proof (Successor_spec (root t) v Hs) as Hsuc.
    rewrite Hsuc0 in Hsuc. destruct Hsuc as (Hsin & Hvs & Hleast).
    pose proof (Predcessor_spec (root t) s Hs) as Hpre.
    destruct (Node.Predcessor (root t) s) as [p|]; simpl in Hpre.
    + destruct Hpre as (Hpin & Hps & Hgreatest). f_equal.
      pose proof (Hgreatest v Hv Hvs) as Hvp.
      destruct (decide (Compare v p = 0)) as [E|E].
      * symmetry. apply (ascending_unique v v p (inorder (root t))); auto.
        apply Compare_refl.
      * assert (lt v p) as Hlt by (unfold lt; lia).
        specialize (Hleast p Hpin Hlt). unfold lt in Hps.
        pose proof (Compare_gt_lt s p). lia.
    + by destruct (Hpre v Hv).
Qed.

End MoreValueLevel2.

(** ** Traversal coverage, height, rotations *)

Section MoreShape.
Context {A : Type} `{Item A}.
Implicit Types (n : node A).

Lemma preorder_inorder n : preorder n ≡ₚ inorder n.
Proof.
  induction n as [|v l IHl r IHr h]; [done|].
  cbn [preorder inorder]. rewrite IHl, IHr. apply Permutation_middle.
Qed.

Lemma postorder_inorder n : postorder n ≡ₚ inorder n.
Proof.
  induction n as [|v l IHl r IHr h]; [done|].
  cbn [postorder inorder]. rewrite IHl, IHr.
  apply Permutation_app_head. symmetry. apply Permutation_cons_append.
Qed.

(** X10.  Whatever the visitor does, [InOrder], [PreOrder] and
    [PostOrder] call it on the same items, each exactly as often as it is
    stored: the three call sequences are permutations of one another, and
    their length is [node.Size]. *)
Theorem traversals_visit_all {St} n (fn : A -> St -> bool * St) (s : St) :
  let calls trav :=
    map fst (fst (trav n (logging fn) ([], s))) in
  calls (@Node.PreOrder A _) ≡ₚ calls (@Node.InOrder A _) /\
  calls (@Node.PostOrder A _) ≡ₚ calls (@Node.InOrder A _) /\
  Z.of_nat (length (calls (@Node.InOrder A _))) = Node.Size n.
Proof.
  cbv beta zeta. rewrite InOrder_items, PreOrder_items, PostOrder_items. simpl.
  split; [apply preorder_inorder|]. split; [apply postorder_inorder|].
  by rewrite Size_length.
Qed.

Lemma avl_size_bounds n :
  avl n ->
  2 ^ (Node.height n / 2) <= Node.Size n + 1 <= 2 ^ Node.height n.
Proof.
  induction n as [|v l IHl r IHr h]; [done|].
  intros (Hl & Hr & -> & Hb).
  specialize (IHl Hl). specialize (IHr Hr).
  pose proof (avl_height_nonneg l Hl) as Hl0.
  pose proof (avl_height_nonneg r Hr) as Hr0.
  cbn [Node.Size Node.height].
  set (hl := Node.height l) in *. set (hr := Node.height r) in *.
  set (m := Z.max hl hr).
  assert (0 <= m) as Hm0 by lia.
  split.
  - destruct (decide (m = 0)) as [E|E].
    + rewrite E. change ((1 + 0) / 2) with 0.
      assert (0 < 2 ^ (hl / 2)) by (apply Z.pow_pos_nonneg; [lia|];
        apply Z.div_pos; lia).
      assert (0 < 2 ^ (hr / 2)) by (apply Z.pow_pos_nonneg; [lia|];
        apply Z.div_pos; lia).
      change (2 ^ 0) with 1. lia.
    + replace (1 + m) with (m - 1 + 1 * 2) by lia.
      rewrite Z.div_add by lia.
      assert (0 <= (m - 1) / 2) as Hq by (apply Z.div_pos; lia).
      rewrite Z.pow_add_r by lia. change (2 ^ 1) with 2.
      assert (2 ^ ((m - 1) / 2) <= 2 ^ (hl / 2)).
      { apply Z.pow_le_mono_r; [lia|]. apply Z.div_le_mono; lia. }
      assert (2 ^ ((m - 1) / 2) <= 2 ^ (hr / 2)).
      { apply Z.pow_le_mono_r; [lia|]. apply Z.div_le_mono; lia. }
      lia.
  - rewrite Z.pow_add_r by lia. change (2 ^ 1) with 2.
    assert (2 ^ hl <= 2 ^ m) by (apply Z.pow_le_mono_r; lia).
    assert (2 ^ hr <= 2 ^ m) by (apply Z.pow_le_mono_r; lia).
    lia.
Qed.

(** X11.  In a tree built by the API the height cached in the root is the
    true depth [d] of the tree, and with [s] stored items
    [2 ^ (d / 2) <= s + 1 <= 2 ^ d]: the depth is at most
    [2 * log2 (s + 1) + 1]. *)
Theorem height_logarithmic (t : Tree A) :
  reachable t ->
  Node.height (root t) = Z.of_nat (depth (root t)) /\
  2 ^ (Z.of_nat (depth (root t)) / 2) <= Node.Size (root t) + 1 /\
  Node.Size (root t) + 1 <= 2 ^ Z.of_nat (depth (root t)).
Proof.
  intros Ha%reachable_avl. rewrite avl_depth by done.
  split; [done|]. by apply avl_size_bounds.
Qed.

(** X12.  A rotation dereferences the node and the child that becomes
    the new root, and fails exactly when one of them is nil; when it
    succeeds the in-order sequence and the node count are unchanged. *)
Theorem rotations_keep_order n :
  match n with
  | Nil => Node.rotateRight n = None /\ Node.rotateLeft n = None
  | Node _ l r _ =>
    (Node.rotateRight n = None <-> l = Nil) /\
    (Node.rotateLeft n = None <-> r = Nil)
  end /\
  forall m, Node.rotateRight n = Some m \/ Node.rotateLeft n = Some m ->
    inorder m = inorder n /\ Node.Size m = Node.Size n.
Proof.
  destruct n as [|v l r h]; [by split; [|intros m [?|?]]|]. split.
  - split.
    + destruct l; simpl; split; done.
    + destruct r; simpl; split; done.
  - intros m [Hm|Hm].
    + destruct l as [|lv ll lr lh]; simpl in Hm; simplify_eq.
      cbn [inorder Node.Size]. rewrite <- !app_assoc. split; [done|lia].
    + destruct r as [|rv rl rr rh]; simpl in Hm; simplify_eq.
      cbn [inorder Node.Size]. rewrite <- !app_assoc. split; [done|lia].
Qed.

(** X13.  On a node whose cached height and whose left child's cached
    height are up to date, [rotateLeft] undoes [rotateRight]; and the same
    with left and right exchanged. *)
Theorem rotations_inverse (v w : A) (a b c : node A) :
  let l := Node w a b (Node.max (Node.height a) (Node.height b) + 1) in
  let r := Node w b c (Node.max (Node.height b) (Node.height c) + 1) in
  let n1 := Node v l c (Node.max (Node.height l) (Node.height c) + 1) in
  let n2 := Node v a r (Node.max (Node.height a) (Node.height r) + 1) in
  (Node.rotateRight n1 ≫= Node.rotateLeft) = Some n1 /\
  (Node.rotateLeft n2 ≫= Node.rotateRight) = Some n2.
Proof. done. Qed.

(** X14.  [rebalance] on a node with up-to-date height whose subtrees are
    balanced and differ in height by at most two returns a balanced tree
    with the same in-order sequence, of the same height or one less; it
    returns the node itself when the subtrees differ by at most one. *)
Theorem rebalance_restores_balance (v : A) (l r : node A) :
  avl l -> avl r ->
  -2 <= Node.height r - Node.height l <= 2 ->
  let n := Node v l r (1 + Z.max (Node.height l) (Node.height r)) in
  exists n',
    Node.rebalance n = Some n' /\ avl n' /\
    inorder n' = inorder n /\ Node.Size n' = Node.Size n /\
    Node.height n - 1 <= Node.height n' <= Node.height n /\
    (-1 <= Node.height r - Node.height l <= 1 -> n' = n).
Proof.
  intros Hl Hr Hb n.
  destruct (rebalance_spec v l r _ Hl Hr Hb eq_refl)
    as (n' & Hreb & Ha & Hin & Hh & Hsame).
  exists n'. split_and!; try done.
  - by rewrite !Size_length, Hin.
  - subst n. simpl. lia.
  - subst n. simpl. lia.
Qed.

End MoreShape.

(** ** Reads and allocations on the store *)

#[global] Arguments Heap.Size : simpl never.

Section MoreStore.
Context {A : Type} `{Item A}.
Implicit Types (hp ext : list (Heap.cell A)) (p q n : Heap.ptr) (t : node A).
Implicit Types (D : nat -> Prop).

Lemma Size_unfold fuel n :
  @Heap.Size A (S fuel) n =
  match n with
  | None => Heap.ret 0
  | Some _ =>
    Heap.bind (Heap.load n) (fun c : Heap.cell A =>
    Heap.bind (Heap.Size fuel (Heap.left c)) (fun sl =>
    Heap.bind (Heap.Size fuel (Heap.right c)) (fun sr =>
    Heap.ret (1 + sl + sr))))
  end.
Proof. reflexivity. Qed.

Lemma Size_refines D hp n t fuel :
  Heap.repr_in D hp n t -> (depth t < fuel)%nat ->
  Heap.Size fuel n hp = Heap.Ok (Node.Size t) hp.
Proof.
  revert n fuel. induction t as [|v tl IHl tr IHr ht];
    intros n fuel Hrep Hfuel;
    (destruct fuel as [|fuel]; [simpl in Hfuel; lia|]);
    rewrite Size_unfold.
  - simpl in Hrep. by subst n.
  - destruct Hrep as (l & pl & pr & -> & Hd & Hl & Hrl & Hrr).
    simpl in Hfuel.
    hstep ltac:(by eapply load_at).
    hstep ltac:(apply IHl; [done|lia]).
    hstep ltac:(apply IHr; [done|lia]).
    done.
Qed.

(** X17.  On a store that holds a tree under the handle [T], of any
    shape, every read-only operation returns given fuel beyond the depth
    of the tree, returns what the value-level model computes, and leaves
    the store as it is. *)
Theorem store_reads_agree {St : Type} (T : Heap.Tree) t hp fuel (x : A)
    (fn : A -> St -> bool * St) (s : St) :
  Heap.repr hp (Heap.root T) t -> (depth t < fuel)%nat ->
  Heap.Tree_Search fuel T x hp = Heap.Ok (Node.Search t x) hp /\
  Heap.Tree_Min fuel T hp = Heap.Ok (Node.Min t) hp /\
  Heap.Tree_Max fuel T hp = Heap.Ok (Node.Max t) hp /\
  Heap.Tree_Predecessor fuel T x hp = Heap.Ok (Node.Predcessor t x) hp /\
  Heap.Tree_Successor fuel T x hp = Heap.Ok (Node.Successor t x) hp /\
  Heap.Tree_InOrder fuel T fn s hp = Heap.Ok (Node.InOrder t fn s) hp /\
  Heap.Tree_PreOrder fuel T fn s hp = Heap.Ok (Node.PreOrder t fn s) hp /\
  Heap.Tree_PostOrder fuel T fn s hp = Heap.Ok (Node.PostOrder t fn s) hp /\
  Heap.Size fuel (Heap.root T) hp = Heap.Ok (Node.Size t) hp.
Proof.
  intros Hrep Hfuel. split_and!.
  - by eapply Search_refines.
  - by eapply Min_refines.
  - by eapply Max_refines.
  - by eapply Predcessor_refines.
  - by eapply Successor_refines.
  - by eapply InOrder_refines.
  - by eapply PreOrder_refines.
  - by eapply PostOrder_refines.
  - by eapply Size_refines.
Qed.

(** *** Counting allocations *)

Lemma bind_inv {R R'} (m : Heap.M A R) (k : R -> Heap.M A R') hp r hp' :
  Heap.bind m k hp = Heap.Ok r hp' ->
  exists a hp1, m hp = Heap.Ok a hp1 /\ k a hp1 = Heap.Ok r hp'.
Proof. unfold Heap.bind. destruct (m hp) as [a hp1| |]; [eauto|done..]. Qed.

Lemma grows_mono {R} (k k' : nat) (m : Heap.M A R) :
  (k <= k')%nat -> Heap.grows_by k m -> Heap.grows_by k' m.
Proof. intros Hk Hm hp r hp' Hrun. specialize (Hm hp r hp' Hrun). lia. Qed.

Lemma grows_ret {R} (r : R) : Heap.grows_by (A:=A) 0 (Heap.ret r).
Proof. intros hp r' hp' [= <- <-]. lia. Qed.

Lemma grows_panic {R} : Heap.grows_by (A:=A) (R:=R) 0 Heap.panic.
Proof. by intros hp r hp'. Qed.

Lemma grows_load p : Heap.grows_by (A:=A) 0 (Heap.load p).
Proof.
  intros hp c hp'. unfold Heap.load. destruct p as [l|]; [|done].
  destruct (hp !! l); [|done]. intros [= <- <-]. lia.
Qed.

Lemma grows_store p (c : Heap.cell A) : Heap.grows_by 0 (Heap.store p c).
Proof.
  intros hp r hp'. unfold Heap.store. destruct p as [l|]; [|done].
  destruct (hp !! l); [|done]. intros [= <- <-]. rewrite length_insert. lia.
Qed.

Lemma grows_alloc (c : Heap.cell A) : Heap.grows_by 1 (Heap.alloc c).
Proof.
  intros hp r hp'. unfold Heap.alloc. intros [= <- <-].
  rewrite length_app. simpl. lia.
Qed.

Lemma grows_bind {R R'} (k1 k2 : nat) (m : Heap.M A R)
    (f : R -> Heap.M A R') :
  Heap.grows_by k1 m -> (forall a, Heap.grows_by k2 (f a)) ->
  Heap.grows_by (k1 + k2) (Heap.bind m f).
Proof.
  intros Hm Hf hp r hp' (a & hp1 & Hrun1 & Hrun2)%bind_inv.
  specialize (Hm _ _ _ Hrun1). specialize (Hf _ _ _ _ Hrun2). lia.
Qed.

Lemma grows_set_left p q : Heap.grows_by (A:=A) 0 (Heap.set_left p q).
Proof.
  apply (grows_bind 0 0); [apply grows_load|intros; apply grows_store].
Qed.

Lemma grows_set_right p q : Heap.grows_by (A:=A) 0 (Heap.set_right p q).
Proof.
  apply (grows_bind 0 0); [apply grows_load|intros; apply grows_store].
Qed.

Lemma grows_set_value p (x : A) : Heap.grows_by 0 (Heap.set_value p x).
Proof.
  apply (grows_bind 0 0); [apply grows_load|intros; apply grows_store].
Qed.

Lemma grows_set_h p z : Heap.grows_by (A:=A) 0 (Heap.set_h p z).
Proof.
  apply (grows_bind 0 0); [apply grows_load|intros; apply grows_store].
Qed.

Lemma grows_clone n : Heap.grows_by (A:=A) 1 (Heap.clone n).
Proof.
  unfold Heap.clone. destruct n.
  - apply (grows_bind 0 1); [apply grows_load|intros; apply grows_alloc].
  - apply (grows_mono 0); [lia|apply grows_ret].
Qed.

Lemma grows_height n : Heap.grows_by (A:=A) 0 (Heap.height n).
Proof.
  unfold Heap.height. destruct n; [|apply grows_ret].
  apply (grows_bind 0 0); [apply grows_load|intros; apply grows_ret].
Qed.

Lemma grows_balance n : Heap.grows_by (A:=A) 0 (Heap.balance n).
Proof.
  unfold Heap.balance. destruct n; [|apply grows_ret].
  apply (grows_bind 0 0); [apply grows_load|intros c].
  apply (grows_bind 0 0); [apply grows_height|intros hr].
  apply (grows_bind 0 0); [apply grows_height|intros hl]. apply grows_ret.
Qed.

Lemma grows_adjustHeight n : Heap.grows_by (A:=A) 0 (Heap.adjustHeight n).
Proof.
  unfold Heap.adjustHeight.
  apply (grows_bind 0 0); [apply grows_load|intros c].
  apply (grows_bind 0 0); [apply grows_height|intros hl].
  apply (grows_bind 0 0); [apply grows_height|intros hr]. apply grows_set_h.
Qed.

(** A rotation clones two nodes. *)
Lemma grows_rotateRight n : Heap.grows_by (A:=A) 2 (Heap.rotateRight n).
Proof.
  unfold Heap.rotateRight.
  apply (grows_bind 0 2); [apply grows_load|intros cn].
  apply (grows_bind 1 1); [apply grows_clone|intros root].
  apply (grows_bind 1 0); [apply grows_clone|intros node].
  apply (grows_bind 0 0); [apply grows_load|intros croot].
  apply (grows_bind 0 0); [apply grows_set_left|intros _].
  apply (grows_bind 0 0); [apply grows_set_right|intros _].
  apply (grows_bind 0 0); [apply grows_adjustHeight|intros _].
  apply (grows_bind 0 0); [apply grows_adjustHeight|intros _].
  apply grows_ret.
Qed.

Lemma grows_rotateLeft n : Heap.grows_by (A:=A) 2 (Heap.rotateLeft n).
Proof.
  unfold Heap.rotateLeft.
  apply (grows_bind 0 2); [apply grows_load|intros cn].
  apply (grows_bind 1 1); [apply grows_clone|intros root].
  apply (grows_bind 1 0); [apply grows_clone|intros node].
  apply (grows_bind 0 0); [apply grows_load|intros croot].
  apply (grows_bind 0 0); [apply grows_set_right|intros _].
  apply (grows_bind 0 0); [apply grows_set_left|intros _].
  apply (grows_bind 0 0); [apply grows_adjustHeight|intros _].
  apply (grows_bind 0 0); [apply grows_adjustHeight|intros _].
  apply grows_ret.
Qed.

Lemma grows_guard (b : bool) (e : Heap.M A Z) (f : Z -> bool) :
  Heap.grows_by 0 e ->
  Heap.grows_by 0
    (Heap.and_then b (Heap.bind e (fun z => Heap.ret (f z)))).
Proof.
  intros He. unfold Heap.and_then. destruct b; [|apply grows_ret].
  apply (grows_bind 0 0); [done|intros; apply grows_ret].
Qed.

Lemma grows_left_balance n : Heap.grows_by (A:=A) 0 (Heap.left_balance n).
Proof.
  apply (grows_bind 0 0); [apply grows_load|intros; apply grows_balance].
Qed.

Lemma grows_right_balance n : Heap.grows_by (A:=A) 0 (Heap.right_balance n).
Proof.
  apply (grows_bind 0 0); [apply grows_load|intros; apply grows_balance].
Qed.

(** [rebalance] clones at most five nodes: one for the node itself and
    two for each of the two rotations of a double rotation. *)
Lemma grows_rebalance n : Heap.grows_by (A:=A) 5 (Heap.rebalance n).
Proof.
  unfold Heap.rebalance.
  apply (grows_bind 0 5); [apply grows_balance|intros b].
  apply (grows_bind 0 5);
    [apply (grows_guard _ _ (fun lb => bool_decide (lb <= 0)));
     apply grows_left_balance|intros c1].
  destruct c1; [apply (grows_mono 2); [lia|apply grows_rotateRight]|].
  apply (grows_bind 0 5);
    [apply (grows_guard _ _ (fun rb => bool_decide (rb >= 0)));
     apply grows_right_balance|intros c2].
  destruct c2; [apply (grows_mono 2); [lia|apply grows_rotateLeft]|].
  apply (grows_bind 0 5);
    [apply (grows_guard _ _ (fun lb => bool_decide (lb > 0)));
     apply grows_left_balance|intros c3].
  destruct c3.
  { apply (grows_bind 1 4); [apply grows_clone|intros n'].
    apply (grows_bind 0 4); [apply grows_load|intros c].
    apply (grows_bind 2 2); [apply grows_rotateLeft|intros l].
    apply (grows_bind 0 2); [apply grows_set_left|intros _].
    apply grows_rotateRight. }
  apply (grows_bind 0 5);
    [apply (grows_guard _ _ (fun rb => bool_decide (rb < 0)));
     apply grows_right_balance|intros c4].
  destruct c4.
  { apply (grows_bind 1 4); [apply grows_clone|intros n'].
    apply (grows_bind 0 4); [apply grows_load|intros c].
    apply (grows_bind 2 2); [apply grows_rotateRight|intros r].
    apply (grows_bind 0 2); [apply grows_set_right|intros _].
    apply grows_rotateLeft. }
  apply (grows_mono 0); [lia|].
  case_bool_decide; [apply grows_panic|apply grows_ret].
Qed.

(** [adjustHeight] and [rebalance] at the end of a modifying call. *)
Lemma grows_fixup {R} root (k : Heap.ptr -> R) :
  Heap.grows_by (A:=A) 5
    (Heap.bind (Heap.adjustHeight root) (fun _ =>
     Heap.bind (Heap.rebalance root) (fun r => Heap.ret (k r)))).
Proof.
  apply (grows_bind 0 5); [apply grows_adjustHeight|intros _].
  apply (grows_bind 5 0); [apply grows_rebalance|intros r]. apply grows_ret.
Qed.

(** The clone of the node on the path, with one child replaced. *)
Lemma grows_path_clone {R} n (set : Heap.ptr -> Heap.M A unit)
    (k : Heap.ptr -> R) :
  (forall root, Heap.grows_by 0 (set root)) ->
  Heap.grows_by 1
    (Heap.bind (Heap.clone n) (fun root =>
     Heap.bind (set root) (fun _ => Heap.ret (k root)))).
Proof.
  intros Hset.
  apply (grows_bind 1 0); [apply grows_clone|intros root].
  apply (grows_bind 0 0); [apply Hset|intros _]. apply grows_ret.
Qed.

Lemma Insert_allocs D t fuel n (x : A) hp r hp' :
  Heap.repr_in D hp n t -> Heap.Insert fuel n x hp = Heap.Ok r hp' ->
  (length hp <= length hp' <= length hp + (6 * depth t + 1))%nat.
Proof.
  revert fuel n hp r hp'.
  induction t as [|v tl IHl tr IHr ht]; intros fuel n hp r hp' Hrep Hrun;
    (destruct fuel as [|fuel]; [done|]); rewrite Insert_unfold in Hrun.
  - simpl in Hrep. subst n.
    apply (grows_bind 1 0 _ _ (grows_alloc _) (fun _ => grows_ret _)) in Hrun.
    simpl. lia.
  - destruct Hrep as (l & pl & pr & -> & _ & Hl & Hrl & Hrr).
    rewrite (bind_ok _ _ _ _ _ (load_at _ _ _ Hl)) in Hrun. simpl in Hrun.
    apply bind_inv in Hrun as ([root e] & hp1 & Hrun1 & Hrun2).
    assert (length hp1 <= length hp' <= length hp1 + 5)%nat as Hfix.
    { destruct root.
      - by apply grows_fixup in Hrun2.
      - apply grows_ret in Hrun2. lia. }
    assert (length hp <= length hp1 <=
            length hp + (6 * Nat.max (depth tl) (depth tr) + 1) + 1)%nat.
    { destruct (decide (Compare x v < 0));
        [|destruct (decide (Compare x v > 0))].
      - apply bind_inv in Hrun1 as ([m e0] & hp0 & Hsub & Hrun1).
        pose proof (IHl _ _ _ _ _ Hrl Hsub).
        assert (length hp0 <= length hp1 <= length hp0 + 1)%nat.
        { destruct e0.
          - apply grows_ret in Hrun1. lia.
          - by apply (grows_path_clone _ (fun root => Heap.set_left root m))
              in Hrun1; [|intros; apply grows_set_left]. }
        lia.
      - apply bind_inv in Hrun1 as ([m e0] & hp0 & Hsub & Hrun1).
        pose proof (IHr _ _ _ _ _ Hrr Hsub).
        assert (length hp0 <= length hp1 <= length hp0 + 1)%nat.
        { destruct e0.
          - apply grows_ret in Hrun1. lia.
          - by apply (grows_path_clone _ (fun root => Heap.set_right root m))
              in Hrun1; [|intros; apply grows_set_right]. }
        lia.
      - apply grows_ret in Hrun1. lia. }
    cbn [depth]. lia.
Qed.

Lemma Update_allocs D t fuel n (x : A) hp r hp' :
  Heap.repr_in D hp n t -> Heap.Update fuel n x hp = Heap.Ok r hp' ->
  (length hp <= length hp' <= length hp + (6 * depth t + 1))%nat.
Proof.
  revert fuel n hp r hp'.
  induction t as [|v tl IHl tr IHr ht]; intros fuel n hp r hp' Hrep Hrun;
    (destruct fuel as [|fuel]; [done|]); rewrite Update_unfold in Hrun.
  - simpl in Hrep. subst n.
    apply (grows_bind 1 0 _ _ (grows_alloc _) (fun _ => grows_ret _)) in Hrun.
    simpl. lia.
  - destruct Hrep as (l & pl & pr & -> & _ & Hl & Hrl & Hrr).
    rewrite (bind_ok _ _ _ _ _ (clone_at _ _ _ Hl)) in Hrun.
    pose proof (lookup_app_l_Some _ [Heap.Cell v pl pr ht] _ _ Hl) as Hl'.
    rewrite (bind_ok _ _ _ _ _ (load_at _ _ _ Hl')) in Hrun. simpl in Hrun.
    apply bind_inv in Hrun as (prev & hp1 & Hrun1 & Hrun2).
    apply grows_fixup in Hrun2.
    assert (length hp + 1 <= length hp1 <=
            length hp + 1 + (6 * Nat.max (depth tl) (depth tr) + 1))%nat.
    { destruct (decide (Compare x v < 0));
        [|destruct (decide (Compare x v > 0))].
      - apply bind_inv in Hrun1 as ([m e0] & hp0 & Hsub & Hrun1).
        apply (IHl _ _ (hp ++ _)) in Hsub; [|by apply repr_in_app].
        apply (grows_bind 0 0 _ _ (grows_set_left _ _)
                 (fun _ => grows_ret _)) in Hrun1.
        rewrite length_app in Hsub. simpl in Hsub. lia.
      - apply bind_inv in Hrun1 as ([m e0] & hp0 & Hsub & Hrun1).
        apply (Insert_allocs D tr _ _ _ (hp ++ _)) in Hsub;
          [|by apply repr_in_app].
        apply (grows_bind 0 0 _ _ (grows_set_right _ _)
                 (fun _ => grows_ret _)) in Hrun1.
        rewrite length_app in Hsub. simpl in Hsub. lia.
      - apply (grows_bind 0 0 _ _ (grows_load _)) in Hrun1.
        + rewrite length_app in Hrun1. simpl in Hrun1. lia.
        + intros croot. apply (grows_bind 0 0); [apply grows_set_value|].
          intros _. apply grows_ret. }
    cbn [depth]. lia.
Qed.

Lemma Max_same_store fuel n hp (r : option A) hp' :
  Heap.Max fuel n hp = Heap.Ok r hp' -> hp' = hp.
Proof. intros Hrun. by destruct (read_only_Max fuel n hp r hp' [] Hrun). Qed.

Lemma Delete_allocs D t fuel n (x : A) hp r hp' :
  Heap.repr_in D hp n t -> Heap.Delete fuel n x hp = Heap.Ok r hp' ->
  (length hp <= length hp' <= length hp + 6 * depth t)%nat.
Proof.
  revert fuel n x hp r hp'.
  induction t as [|v tl IHl tr IHr ht]; intros fuel n x hp r hp' Hrep Hrun;
    (destruct fuel as [|fuel]; [done|]); rewrite Delete_unfold in Hrun.
  - simpl in Hrep. subst n. apply grows_ret in Hrun. simpl. lia.
  - destruct Hrep as (l & pl & pr & -> & _ & Hl & Hrl & Hrr).
    rewrite (bind_ok _ _ _ _ _ (load_at _ _ _ Hl)) in Hrun. simpl in Hrun.
    apply bind_inv in Hrun as ([root e] & hp1 & Hrun1 & Hrun2).
    assert (length hp1 <= length hp' <= length hp1 + 5)%nat as Hfix.
    { destruct e; [destruct root|].
      - by apply grows_fixup in Hrun2.
      - apply grows_ret in Hrun2. lia.
      - apply grows_ret in Hrun2. lia. }
    assert (length hp <= length hp1 <=
            length hp + 6 * Nat.max (depth tl) (depth tr) + 1)%nat.
    { destruct (decide (Compare x v < 0));
        [|destruct (decide (Compare x v > 0))].
      - apply bind_inv in Hrun1 as ([m e0] & hp0 & Hsub & Hrun1).
        pose proof (IHl _ _ _ _ _ _ Hrl Hsub).
        assert (length hp0 <= length hp1 <= length hp0 + 1)%nat.
        { destruct e0.
          - by apply (grows_path_clone _ (fun root => Heap.set_left root m))
              in Hrun1; [|intros; apply grows_set_left].
          - apply grows_ret in Hrun1. lia. }
        lia.
      - apply bind_inv in Hrun1 as ([m e0] & hp0 & Hsub & Hrun1).
        pose proof (IHr _ _ _ _ _ _ Hrr Hsub).
        assert (length hp0 <= length hp1 <= length hp0 + 1)%nat.
        { destruct e0.
          - by apply (grows_path_clone _ (fun root => Heap.set_right root m))
              in Hrun1; [|intros; apply grows_set_right].
          - apply grows_ret in Hrun1. lia. }
        lia.
      - apply bind_inv in Hrun1 as (root' & hp0 & Hdes & Hrun1).
        apply grows_ret in Hrun1.
        unfold Heap.destroy_with in Hdes.
        rewrite (bind_ok _ _ _ _ _ (load_at _ _ _ Hl)) in Hdes.
        simpl in Hdes.
        destruct pl as [ll|], pr as [lr|];
          try (apply grows_ret in Hdes; lia).
        apply bind_inv in Hdes as (m & hp2 & Hmax & Hdes).
        apply Max_same_store in Hmax as ->.
        destruct m as [m|]; [|done].
        apply bind_inv in Hdes as (root0 & hp3 & Hall & Hdes).
        unfold Heap.alloc in Hall. simplify_eq.
        apply bind_inv in Hdes as ([l' e'] & hp4 & Hsub & Hdes).
        apply (IHl _ _ _ (hp ++ _)) in Hsub; [|by apply repr_in_app].
        apply (grows_bind 0 0 _ _ (grows_set_left _ _)) in Hdes.
        + rewrite length_app in Hsub. simpl in Hsub. lia.
        + intros _. apply (grows_bind 0 0); [apply grows_set_right|].
          intros _. apply grows_ret. }
    cbn [depth]. lia.
Qed.

(** X18.  Each modifying call on a store holding a balanced tree of depth
    [d] returns and allocates at most [6 * d + 1] cells ([6 * d] for
    [Delete]): the clones along one path and those of the rotations. *)
Theorem allocations_bounded (T1 : Heap.Tree) t1 (x : A) hp fuel :
  Heap.repr hp (Heap.root T1) t1 -> avl t1 -> (depth t1 < fuel)%nat ->
  (exists r hp',
     Heap.Tree_Insert fuel T1 x hp = Heap.Ok r hp' /\
     (length hp <= length hp' <= length hp + (6 * depth t1 + 1))%nat) /\
  (exists r hp',
     Heap.Tree_Update fuel T1 x hp = Heap.Ok r hp' /\
     (length hp <= length hp' <= length hp + (6 * depth t1 + 1))%nat) /\
  (exists r hp',
     Heap.Tree_Delete fuel T1 x hp = Heap.Ok r hp' /\
     (length hp <= length hp' <= length hp + 6 * depth t1)%nat).
Proof.
  intros Hrep Ha Hfuel. split_and!.
  - destruct (Tree_Insert_refines T1 t1 x hp fuel Hrep Ha Hfuel)
      as (T2 & t2 & e & ext & Hrun & _).
    eexists _, _. split; [exact Hrun|].
    unfold Heap.Tree_Insert in Hrun.
    apply bind_inv in Hrun as ([r0 e0] & hp1 & Hsub & Hret).
    apply grows_ret in Hret.
    pose proof (Insert_allocs _ _ _ _ _ _ _ _ Hrep Hsub). lia.
  - destruct (Tree_Update_refines T1 t1 x hp fuel Hrep Ha Hfuel)
      as (T2 & t2 & e & ext & Hrun & _).
    eexists _, _. split; [exact Hrun|].
    unfold Heap.Tree_Update in Hrun.
    apply bind_inv in Hrun as ([r0 e0] & hp1 & Hsub & Hret).
    apply grows_ret in Hret.
    pose proof (Update_allocs _ _ _ _ _ _ _ _ Hrep Hsub). lia.
  - destruct (Tree_Delete_refines T1 t1 x hp fuel Hrep Ha Hfuel)
      as (T2 & t2 & e & ext & Hrun & _).
    eexists _, _. split; [exact Hrun|].
    unfold Heap.Tree_Delete in Hrun.
    apply bind_inv in Hrun as ([r0 e0] & hp1 & Hsub & Hret).
    apply grows_ret in Hret.
    pose proof (Delete_allocs _ _ _ _ _ _ _ _ Hrep Hsub). lia.
Qed.

End MoreStore.

(** ** The cases of [rebalance], and heights across a modifying call *)

Section MoreRebalance.
Context {A : Type} `{Item A}.

(** X19.  [rebalance] does what the case selected by its [switch] says,
    and the case that panics with a balancing error is never selected,
    whatever the node: the four rotation cases cover every balance factor
    outside [-1, 1].  The node is returned as it is exactly when its
    balance factor is within [-1, 1]. *)
Theorem balancing_error_unreachable (n : node A) :
  rebalance_case n <> BalancingError /\
  (rebalance_case n = InBalance <-> -1 <= Node.balance n <= 1) /\
  Node.rebalance n =
    match rebalance_case n, n with
    | SingleRight, _ => Node.rotateRight n
    | SingleLeft, _ => Node.rotateLeft n
    | DoubleLeftRight, Node v l r h =>
      l' ← Node.rotateLeft l; Node.rotateRight (Node v l' r h)
    | DoubleRightLeft, Node v l r h =>
      r' ← Node.rotateRight r; Node.rotateLeft (Node v l r' h)
    | InBalance, _ => Some n
    | _, _ => None
    end.
Proof.
  destruct n as [|v l r h].
  - split; [done|]. split; [|done]. simpl. split; [lia|done].
  - unfold rebalance_case, Node.rebalance.
    set (b := Node.balance (Node v l r h)).
    repeat case_decide; split_and!; try done; try lia;
      split; (done || lia).
Qed.

(** X20.  On a tree built by the API, [Insert] and [Update] return a tree
    whose root height is the old one or one more, and [Delete] a tree
    whose root height is the old one or one less. *)
Theorem height_changes_by_one (t : Tree A) (x : A) :
  reachable t ->
  (exists t' e, Tree.Insert t x = Some (t', e) /\
     Node.height (root t) <= Node.height (root t')
       <= Node.height (root t) + 1) /\
  (exists t' e, Tree.Update t x = Some (t', e) /\
     Node.height (root t) <= Node.height (root t')
       <= Node.height (root t) + 1) /\
  (exists t' e, Tree.Delete t x = Some (t', e) /\
     Node.height (root t) - 1 <= Node.height (root t')
       <= Node.height (root t)).
Proof.
  intros Ha%reachable_avl. split_and!.
  - destruct (Insert_avl (root t) x Ha) as (r & e & Hrun & _ & Hh & _).
    unfold Tree.Insert. rewrite Hrun. eexists _, _. split; [done|].
    simpl. lia.
  - destruct (Update_avl (root t) x Ha) as (r & e & Hrun & _ & Hh & _).
    unfold Tree.Update. rewrite Hrun. eexists _, _. split; [done|].
    simpl. lia.
  - destruct (Delete_avl (root t) x Ha) as (r & e & Hrun & _ & Hh & _).
    unfold Tree.Delete. rewrite Hrun. eexists _, _. split; [done|].
    simpl. lia.
Qed.

End MoreRebalance.

(** ** Instances on the tree and the store of three insertions *)

Lemma search_correct_witness :
  match Tree.Search ints123 2 with
  | Some v =>
    v ∈ inorder (root ints123) /\ Compare 2 v = 0 /\
    forall v', v' ∈ inorder (root ints123) -> Compare 2 v' = 0 -> v' = v
  | None => forall v, v ∈ inorder (root ints123) -> Compare 2 v <> 0
  end.
Proof.
  apply (search_correct ints123 2).
  exists [OpInsert 1; OpInsert 2; OpInsert 3]. reflexivity.
Defined.

Lemma min_max_correct_witness :
  is_min (inorder (root ints123)) (Tree.Min ints123) /\
  is_max (inorder (root ints123)) (Tree.Max ints123).
Proof.
  apply (min_max_correct ints123).
  exists [OpInsert 1; OpInsert 2; OpInsert 3]. reflexivity.
Defined.

Lemma insert_result_witness :
  exists t' e,
    Tree.Insert ints123 5 = Some (t', e) /\
    match e with
    | Some v => v ∈ inorder (root ints123) /\ Compare 5 v = 0 /\ t' = ints123
    | None =>
      (forall v, v ∈ inorder (root ints123) -> Compare 5 v <> 0) /\
      (forall a, a ∈ inorder (root t') <->
                 a = 5 \/ a ∈ inorder (root ints123)) /\
      Tree.Size t' = Tree.Size ints123 + 1 /\
      Node.Size (root t') = Node.Size (root ints123) + 1
    end.
Proof.
  apply (insert_result ints123 5).
  exists [OpInsert 1; OpInsert 2; OpInsert 3]. reflexivity.
Defined.

Lemma delete_present_witness :
  exists t',
    Tree.Delete ints123 2 = Some (t', Some 2) /\
    (forall a, a ∈ inorder (root t') <->
               a ∈ inorder (root ints123) /\ Compare 2 a <> 0) /\
    Tree.Search t' 2 = None /\
    (forall y a, a ∈ inorder (root ints123) -> Compare y a = 0 ->
                 Compare 2 a <> 0 -> Tree.Search t' y = Some a) /\
    Tree.Size t' = Tree.Size ints123 - 1 /\
    Node.Size (root t') = Node.Size (root ints123) - 1.
Proof.
  apply (delete_present ints123 2 2).
  - exists [OpInsert 1; OpInsert 2; OpInsert 3]. reflexivity.
  - simpl. apply elem_of_cons. right. apply elem_of_cons. by left.
  - reflexivity.
Defined.

Lemma delete_twice_witness :
  exists t' e,
    Tree.Delete ints123 2 = Some (t', e) /\
    Tree.Delete t' 2 = Some (t', None).
Proof.
  apply (delete_twice ints123 2).
  exists [OpInsert 1; OpInsert 2; OpInsert 3]. reflexivity.
Defined.

Lemma insert_delete_inverse_witness :
  exists t1 t2,
    Tree.Insert ints123 5 = Some (t1, None) /\
    Tree.Delete t1 5 = Some (t2, Some 5) /\
    inorder (root t2) = inorder (root ints123) /\
    Tree.Size t2 = Tree.Size ints123.
Proof.
  apply (insert_delete_inverse ints123 5).
  - exists [OpInsert 1; OpInsert 2; OpInsert 3]. reflexivity.
  - intros v Hv. simpl in Hv.
    repeat (apply elem_of_cons in Hv as [->|Hv]); try done.
    by apply elem_of_nil in Hv.
Defined.

Lemma update_result_witness :
  exists t' v,
    Tree.Update ints123 2 = Some (t', None) /\
    Tree.Size t' = Tree.Size ints123 + 1 /\
    Tree.Search t' 2 = Some v /\ Compare 2 v = 0 /\
    (Tree.Search ints123 2 = None -> v = 2) /\
    (forall a, a ∈ inorder (root ints123) -> Compare 2 a <> 0 ->
               a ∈ inorder (root t')) /\
    (forall a, a ∈ inorder (root t') -> a = 2 \/ a ∈ inorder (root ints123)) /\
    Node.Size (root t') =
      Node.Size (root ints123) +
      match Tree.Search ints123 2 with Some _ => 0 | None => 1 end.
Proof.
  apply (update_result ints123 2).
  exists [OpInsert 1; OpInsert 2; OpInsert 3]. reflexivity.
Defined.

Lemma size_counter_witness :
  exists t,
    run [OpInsert 1; OpInsert 2; OpDelete 1] Tree.empty = Some t /\
    Node.Size (root t) <= Tree.Size t /\
    (forallb (fun o => negb (is_update o))
       [OpInsert 1; OpInsert 2; OpDelete 1] = true ->
     Tree.Size t = Node.Size (root t)).
Proof. apply (size_counter [OpInsert 1; OpInsert 2; OpDelete 1]). Defined.

Lemma neighbours_inverse_witness :
  (forall p, Tree.Predecessor ints123 2 = Some p ->
             Tree.Successor ints123 p = Some 2) /\
  (forall s, Tree.Successor ints123 2 = Some s ->
             Tree.Predecessor ints123 s = Some 2).
Proof.
  apply (neighbours_inverse ints123 2).
  - exists [OpInsert 1; OpInsert 2; OpInsert 3]. reflexivity.
  - simpl. apply elem_of_cons. right. apply elem_of_cons. by left.
Defined.

Lemma height_logarithmic_witness :
  Node.height (root ints123) = Z.of_nat (depth (root ints123)) /\
  2 ^ (Z.of_nat (depth (root ints123)) / 2) <= Node.Size (root ints123) + 1 /\
  Node.Size (root ints123) + 1 <= 2 ^ Z.of_nat (depth (root ints123)).
Proof.
  apply (height_logarithmic ints123).
  exists [OpInsert 1; OpInsert 2; OpInsert 3]. reflexivity.
Defined.

Lemma rebalance_restores_balance_witness :
  let l := Node 2 (Node 1 Nil Nil 1) Nil 2 in
  let n := Node 3 l Nil (1 + Z.max (Node.height l) (Node.height (@Nil Z))) in
  exists n',
    Node.rebalance n = Some n' /\ avl n' /\
    inorder n' = inorder n /\ Node.Size n' = Node.Size n /\
    Node.height n - 1 <= Node.height n' <= Node.height n /\
    (-1 <= Node.height (@Nil Z) - Node.height l <= 1 -> n' = n).
Proof.
  apply (rebalance_restores_balance 3 (Node 2 (Node 1 Nil Nil 1) Nil 2) Nil).
  - simpl. lia.
  - done.
  - simpl. lia.
Defined.

Lemma built_trees_refine_witness :
  exists T t hp,
    Heap.run 4 [OpInsert 1; OpInsert 2; OpInsert 3] (Heap.mkTree None 0) [] =
      Heap.Ok T hp /\
    run [OpInsert 1; OpInsert 2; OpInsert 3] Tree.empty = Some t /\
    Heap.repr hp (Heap.root T) (root t) /\ Heap.size T = size t /\
    (depth (root t) < 4)%nat.
Proof.
  apply (built_trees_refine 4 [OpInsert 1; OpInsert 2; OpInsert 3]).
  simpl. lia.
Defined.

Lemma store_inorder_ascending_witness :
  exists T hp st,
    Heap.run 4 [OpInsert 1; OpInsert 2; OpInsert 3] (Heap.mkTree None 0) [] =
      Heap.Ok T hp /\
    Heap.Tree_InOrder 4 T (logging stop_at_once) ([], tt) hp =
      Heap.Ok st hp /\
    ascending (map fst (fst st)).
Proof.
  apply (store_inorder_ascending 4 [OpInsert 1; OpInsert 2; OpInsert 3]
           stop_at_once tt).
  simpl. lia.
Defined.

Lemma store_reads_agree_witness :
  Heap.Tree_Search 3 handle123 2 store123 =
    Heap.Ok (Node.Search (root ints123) 2) store123 /\
  Heap.Tree_Min 3 handle123 store123 =
    Heap.Ok (Node.Min (root ints123)) store123 /\
  Heap.Tree_Max 3 handle123 store123 =
    Heap.Ok (Node.Max (root ints123)) store123 /\
  Heap.Tree_Predecessor 3 handle123 2 store123 =
    Heap.Ok (Node.Predcessor (root ints123) 2) store123 /\
  Heap.Tree_Successor 3 handle123 2 store123 =
    Heap.Ok (Node.Successor (root ints123) 2) store123 /\
  Heap.Tree_InOrder 3 handle123 stop_at_once tt store123 =
    Heap.Ok (Node.InOrder (root ints123) stop_at_once tt) store123 /\
  Heap.Tree_PreOrder 3 handle123 stop_at_once tt store123 =
    Heap.Ok (Node.PreOrder (root ints123) stop_at_once tt) store123 /\
  Heap.Tree_PostOrder 3 handle123 stop_at_once tt store123 =
    Heap.Ok (Node.PostOrder (root ints123) stop_at_once tt) store123 /\
  Heap.Size 3 (Heap.root handle123) store123 =
    Heap.Ok (Node.Size (root ints123)) store123.
Proof.
  apply (store_reads_agree handle123 (root ints123) store123 3 2
           stop_at_once tt).
  - exact store123_repr.
  - simpl. lia.
Defined.

Lemma allocations_bounded_witness :
  (exists r hp',
     Heap.Tree_Insert 3 handle123 5 store123 = Heap.Ok r hp' /\
     (length store123 <= length hp' <=
      length store123 + (6 * depth (root ints123) + 1))%nat) /\
  (exists r hp',
     Heap.Tree_Update 3 handle123 5 store123 = Heap.Ok r hp' /\
     (length store123 <= length hp' <=
      length store123 + (6 * depth (root ints123) + 1))%nat) /\
  (exists r hp',
     Heap.Tree_Delete 3 handle123 5 store123 = Heap.Ok r hp' /\
     (length store123 <= length hp' <=
      length store123 + 6 * depth (root ints123))%nat).
Proof.
  apply (allocations_bounded handle123 (root ints123) 5 store123 3).
  - exact store123_repr.
  - simpl. lia.
  - simpl. lia.
Defined.

Lemma height_changes_by_one_witness :
  (exists t' e, Tree.Insert ints123 5 = Some (t', e) /\
     Node.height (root ints123) <= Node.height (root t')
       <= Node.height (root ints123) + 1) /\
  (exists t' e, Tree.Update ints123 5 = Some (t', e) /\
     Node.height (root ints123) <= Node.height (root t')
       <= Node.height (root ints123) + 1) /\
  (exists t' e, Tree.Delete ints123 5 = Some (t', e) /\
     Node.height (root ints123) - 1 <= Node.height (root t')
       <= Node.height (root ints123)).
Proof.
  apply (height_changes_by_one ints123 5).
  exists [OpInsert 1; OpInsert 2; OpInsert 3]. reflexivity.
Defined.

Lemma inorder_ascending_witness :
  let calls :=
    map fst (fst (Tree.InOrder ints123 (logging stop_at_once) ([], tt))) in
  ascending calls /\
  calls = inorder (root ints123) /\
  Z.of_nat (length calls) = Node.Size (root ints123) /\
  (forall v, v ∈ calls <-> exists x, Tree.Search ints123 x = Some v).
Proof.
  apply (inorder_ascending ints123 stop_at_once tt).
  exists [OpInsert 1; OpInsert 2; OpInsert 3]. reflexivity.
Defined.
